(** * Resume_Toolkit: the document pipeline

    A shallow embedding of the two services of the repository,
    [services/pdfExtractor.ts] (PDF glyph runs to text) and
    [services/resumeGenerator.ts] (constrained Markdown to PDF draw
    commands), together with [parseMarkdownForPreview] of the preview
    component, and the properties the specification states about them.

    Conventions of the embedding.
    - A JavaScript string is the list of its code units; the code units
      modelled are those below 256 ([ascii]).  On that range the white
      space of [trim] and of the regular expression class [\s] is
      TAB, LF, VT, FF, CR, SPACE and NBSP, and the line terminators seen
      by a multiline [^] are LF and CR.
    - The numbers of the extractor (the coordinates, widths and heights
      of the glyph runs) are IEEE 754 doubles, the primitive [float]:
      differences, the products by 0.7 and 0.25 and the division by a
      length round as in JavaScript, and the comparisons are those of
      doubles.
    - The numbers of the renderer (millimetres on the page) are rationals
      [Q]: its sums, differences and products are carried out exactly,
      and a decimal constant such as 0.7 is the rational it denotes.
    - The plain object used as a dictionary ([Record<string, string>]) is
      a [gmap] of its own properties; an assignment to the property name
      [__proto__], which such an object does not store, leaves it as it
      is.
    - [Array.prototype.sort] belongs to the JavaScript engine.  It is a
      parameter with the law of ECMAScript: the result holds the elements
      of the array, and for a comparator that is consistent on them it is
      in the specified, stable order; for any other comparator the order
      is the engine's choice.
    - An exception is an outcome of a computation, beside the returned
      value; [try]/[catch] is a case distinction on the outcome.
    - The libraries the services talk to (pdf.js, jsPDF, marked) are not
      part of the repository; what the code relies on from them appears as
      parameters. *)

From Stdlib Require Import Floats.
From Stdlib Require Import QArith Qabs Lqa Ascii String List Permutation Sorted Lia.
From stdpp Require Import gmap strings list.
Import ListNotations.

#[local] Set Warnings "-inexact-float".

Local Open Scope list_scope.

(** ** JavaScript strings *)

Module JsString.

Abbreviation jsstring := (list ascii).

(** A string literal of the source. *)
Definition lit (s : string) : jsstring := list_ascii_of_string s.

Definition LF : ascii := "010"%char.
Definition CR : ascii := "013"%char.
Definition TAB : ascii := "009"%char.
Definition SP : ascii := " "%char.
Definition STAR : ascii := "*"%char.
Definition HASH : ascii := "#"%char.

(** [\s] and the characters removed by [trim]. *)
Definition is_space (c : ascii) : bool :=
  let n := nat_of_ascii c in
  (n =? 9) || (n =? 10) || (n =? 11) || (n =? 12) || (n =? 13)
  || (n =? 32) || (n =? 160).

(** The characters after which a multiline [^] matches. *)
Definition is_line_terminator (c : ascii) : bool :=
  let n := nat_of_ascii c in (n =? 10) || (n =? 13).

Fixpoint trimStart (s : jsstring) : jsstring :=
  match s with
  | [] => []
  | c :: s' => if is_space c then trimStart s' else s
  end.

Fixpoint trimEnd (s : jsstring) : jsstring :=
  match s with
  | [] => []
  | c :: s' =>
      match trimEnd s' with
      | [] => if is_space c then [] else [c]
      | t => c :: t
      end
  end.

Definition trim (s : jsstring) : jsstring := trimEnd (trimStart s).

(** [s.split(sep)] for a one-character separator: never empty. *)
Fixpoint split (sep : ascii) (s : jsstring) : list jsstring :=
  match s with
  | [] => [[]]
  | c :: s' =>
      if Ascii.eqb c sep then [] :: split sep s'
      else match split sep s' with
           | [] => [[c]]
           | l :: ls => (c :: l) :: ls
           end
  end.

(** [a.join(sep)]. *)
Fixpoint join (sep : jsstring) (a : list jsstring) : jsstring :=
  match a with
  | [] => []
  | [l] => l
  | l :: ls => l ++ sep ++ join sep ls
  end.

(** [a.slice(i)] and [a.slice(0, n)] on arrays, [s.substring(i)] on
    strings. *)
Definition slice_from {A} (i : nat) (a : list A) : list A := drop i a.
Definition slice_to {A} (n : nat) (a : list A) : list A := take n a.
Definition substring_from (i : nat) (s : jsstring) : jsstring := drop i s.

(** [toLowerCase] on the code units below 256: A-Z and the accented
    capitals U+00C0-U+00DE (without the multiplication sign U+00D7)
    move up by 32. *)
Definition lower_char (c : ascii) : ascii :=
  let n := nat_of_ascii c in
  if ((65 <=? n) && (n <=? 90))
     || ((192 <=? n) && (n <=? 222) && negb (n =? 215))
  then ascii_of_nat (n + 32) else c.

Definition toLowerCase (s : jsstring) : jsstring := map lower_char s.

(** [s.replace(/\s+/g, ' ')]: every maximal run of white space becomes
    one space. *)
Fixpoint collapse_spaces (in_run : bool) (s : jsstring) : jsstring :=
  match s with
  | [] => []
  | c :: s' =>
      if is_space c
      then (if in_run then collapse_spaces true s'
            else SP :: collapse_spaces true s')
      else c :: collapse_spaces false s'
  end.

(** [s] is empty or ends with a line terminator: what follows it starts a
    line. *)
Fixpoint ends_line (s : jsstring) : bool :=
  match s with
  | [] => true
  | [c] => is_line_terminator c
  | _ :: s' => ends_line s'
  end.

End JsString.

Import JsString.

(** ** The sanitization pass of [generatePdfResume] *)

Module Sanitize.

(** Length of the match of [\s*\*\s] at the head of [s].  The star is
    not white space, so the greedy [\s*] can only stop at the end of the
    run of white space: no backtracking changes the outcome. *)
Fixpoint bullet_match (s : jsstring) : option nat :=
  match s with
  | [] => None
  | c :: s' =>
      if is_space c then S <$> bullet_match s'
      else if Ascii.eqb c STAR then
        match s' with
        | d :: _ => if is_space d then Some 2 else None
        | [] => None
        end
      else None
  end.

(** The left-to-right scan of [replace(/^\s*\*\s/gm, '- ')].
    [skip] counts the characters of the current match still to be
    consumed; [bol] tells whether the position is the start of the input
    or follows a line terminator of the input. *)
Fixpoint replace_bullets (skip : nat) (bol : bool) (s : jsstring) : jsstring :=
  match s with
  | [] => []
  | c :: s' =>
      match skip with
      | S k => replace_bullets k (is_line_terminator c) s'
      | O =>
          match (if bol then bullet_match s else None) with
          | Some (S k) =>
              "-"%char :: SP :: replace_bullets k (is_line_terminator c) s'
          | _ => c :: replace_bullets 0 (is_line_terminator c) s'
          end
      end
  end.

(** [resumeText.replace(/^\s*\*\s/gm, '- ')] *)
Definition sanitize (resumeText : jsstring) : jsstring :=
  replace_bullets 0 true resumeText.

(** [n] bullet markers [- ] in a row. *)
Fixpoint dashes (n : nat) : jsstring :=
  match n with
  | O => []
  | S n' => "-"%char :: SP :: dashes n'
  end.

(** The text [s] is at the start of a line but for bullet markers: it is
    a text that ends a line, followed by markers only. *)
Definition line_start_markers (s : jsstring) : Prop :=
  exists out0 n, s = out0 ++ dashes n /\ ends_line out0 = true.

(** A line that holds a star and nothing else, above an indented bullet
    line. *)
Definition bare_star_above_bullet : jsstring :=
  lit "*" ++ LF :: lit "  * Go".

End Sanitize.

(** ** Numbers and [Array.prototype.sort] *)

(** The numbers of the extractor are IEEE 754 doubles, as in JavaScript:
    the primitive type [float], whose operations round to nearest, ties
    to even. *)
Module Number.

(** [a > b] *)
Definition gt (a b : float) : bool := (b <? a)%float.

(** The number of a length ([str.length]); a string has fewer than 2^53
    code units, so the number is the length itself. *)
Definition of_length (n : nat) : float :=
  PrimFloat.of_uint63 (Uint63.of_Z (Z.of_nat n)).

End Number.

Module ArraySort.

(** [SortCompare] (ECMAScript 23.1.3.30.2): the sort reads the number the
    comparator returns by its sign, and a NaN as [+0]. *)
Definition sort_compare (v : float) : comparison :=
  if (v <? 0)%float then Lt else if (0 <? v)%float then Gt else Eq.

(** [a <CF b], [a =CF b], [a >CF b] as [Lt], [Eq], [Gt]. *)
Definition order_of {A} (comparefn : A -> A -> float) (a b : A) : comparison :=
  sort_compare (comparefn a b).

(** [comparefn] is a consistent comparator for the values of [S]
    (ECMAScript 23.1.3.30): it returns no NaN, [=CF] is reflexive,
    symmetric and transitive, and [<CF] and [>CF] are transitive. *)
Definition consistent {A} (comparefn : A -> A -> float) (S : list A) : Prop :=
  (forall a b, a ∈ S -> b ∈ S -> PrimFloat.is_nan (comparefn a b) = false)
  /\ (forall a, a ∈ S -> order_of comparefn a a = Eq)
  /\ (forall a b, a ∈ S -> b ∈ S ->
        order_of comparefn a b = Eq -> order_of comparefn b a = Eq)
  /\ (forall a b c, a ∈ S -> b ∈ S -> c ∈ S ->
        order_of comparefn a b = Eq -> order_of comparefn b c = Eq ->
        order_of comparefn a c = Eq)
  /\ (forall a b c, a ∈ S -> b ∈ S -> c ∈ S ->
        order_of comparefn a b = Lt -> order_of comparefn b c = Lt ->
        order_of comparefn a c = Lt)
  /\ (forall a b c, a ∈ S -> b ∈ S -> c ∈ S ->
        order_of comparefn a b = Gt -> order_of comparefn b c = Gt ->
        order_of comparefn a c = Gt).

(** The sort order required of the result for a consistent comparator.
    [order] lists, for every index [p] of the result, the index [j] of
    [old] whose element stands there (the permutation of the
    specification takes [j] to [p]): an element that compares below
    another comes before it, and of two that compare equal the one that
    was first stays first (the sort is stable). *)
Definition specified_order {A} (comparefn : A -> A -> float) (old : list A)
  (order : list nat) : Prop :=
  forall p q j k a b,
    order !! p = Some j -> order !! q = Some k ->
    old !! j = Some a -> old !! k = Some b ->
    (order_of comparefn a b = Lt -> p < q)
    /\ (j < k -> order_of comparefn a b = Eq -> p < q).

(** What the code relies on from the JavaScript engine: [sort] returns
    the elements of the array in some order, and in the specified order
    when the comparator is consistent for them.  For any other
    comparator the order is implementation-defined. *)
Record Engine := {
  array_sort : forall A : Type, (A -> A -> float) -> list A -> list A;
  array_sort_spec :
    forall (A : Type) (comparefn : A -> A -> float) (old : list A),
      exists order : list nat,
        Permutation order (seq 0 (length old))
        /\ Forall2 (fun j a => old !! j = Some a) order (array_sort A comparefn old)
        /\ (consistent comparefn old -> specified_order comparefn old order)
}.
Arguments array_sort _ {A} _ _.

(** Stable insertion: an element moves past those that compare below
    it, and stops before the first that does not. *)
Fixpoint insert_by {A} (c : A -> A -> comparison) (a : A) (l : list A) : list A :=
  match l with
  | [] => [a]
  | b :: l' =>
      match c a b with
      | Gt => b :: insert_by c a l'
      | _ => a :: l
      end
  end.

Definition sort_by {A} (c : A -> A -> comparison) (l : list A) : list A :=
  foldr (insert_by c) [] l.

(** The stable sort of an array by a comparator. *)
Definition stable_sort {A} (comparefn : A -> A -> float) (l : list A) : list A :=
  sort_by (order_of comparefn) l.

(** The comparison of two elements by an integer key. *)
Definition by_key {A} (key : A -> Z) (a b : A) : comparison :=
  Z.compare (key a) (key b).

End ArraySort.

(** ** Splitting a document on its headings *)

Module HeadingSplit.

(** The lookahead [(?=##\s)]. *)
Definition heading_ahead (s : jsstring) : bool :=
  match s with
  | a :: b :: c :: _ => Ascii.eqb a HASH && Ascii.eqb b HASH && is_space c
  | _ => false
  end.

(** [rest.split(/^(?=##\s)/m)].  The separator is empty, so nothing is
    removed; the string is cut before every position that follows a line
    terminator and has a heading ahead.  [split] never cuts at the start of
    the segment it is building, so position 0 (where [bol] is [false]
    below) is not a cut.  The result is never the empty array. *)
Fixpoint split_headings_from (bol : bool) (s : jsstring) : list jsstring :=
  match s with
  | [] => [[]]
  | c :: s' =>
      let r := split_headings_from (is_line_terminator c) s' in
      let r' := match r with
                | [] => [[c]]
                | p :: ps => (c :: p) :: ps
                end in
      if bol && heading_ahead s then [] :: r' else r'
  end.

Definition split_headings (s : jsstring) : list jsstring :=
  split_headings_from false s.

(** The text [s], entered in line-start state [bol], has no line start with
    a heading ahead. *)
Fixpoint heading_free (bol : bool) (s : jsstring) : bool :=
  match s with
  | [] => true
  | c :: s' =>
      negb (bol && heading_ahead s) && heading_free (is_line_terminator c) s'
  end.

End HeadingSplit.

Import HeadingSplit.

(** ** [parseResumeStructure] of services/resumeGenerator.ts *)

Module Parse.

(** [{ header: string[], sections: Record<string, string> }] *)
Record ResumeStructure := {
  header : list jsstring;
  sections : gmap jsstring jsstring
}.

(** The one property name a plain object does not store: [__proto__] is an
    accessor inherited from [Object.prototype], and assigning a string to
    it is ignored (ECMAScript B.2.2.1), so the object gets no own property
    of that name. *)
Definition proto_key : jsstring := lit "__proto__".

(** [sections[title] = content] *)
Definition obj_set (title content : jsstring) (o : gmap jsstring jsstring)
  : gmap jsstring jsstring :=
  if decide (title = proto_key) then o else <[title := content]> o.

(** What one element of [splits] contributes: nothing when it is blank,
    else its title and content. *)
Definition section_of_part (part : jsstring) : option (jsstring * jsstring) :=
  match trim part with
  | [] => None
  | _ =>
      let sectionLines := split LF (trim part) in
      let title := toLowerCase (trim (substring_from 3 (nth 0 sectionLines []))) in
      let content := join [LF] (slice_from 1 sectionLines) in
      Some (title, content)
  end.

(** The body of [splits.forEach]. *)
Definition add_part (o : gmap jsstring jsstring) (part : jsstring)
  : gmap jsstring jsstring :=
  match section_of_part part with
  | None => o
  | Some (title, content) => obj_set title content o
  end.

(** The array [splits]. *)
Definition splits_of (markdown : jsstring) : list jsstring :=
  let lines := split LF markdown in
  let rest := join [LF] (slice_from 2 lines) in
  split_headings rest.

Definition parseResumeStructure (markdown : jsstring) : ResumeStructure :=
  let lines := split LF markdown in
  {| header := slice_to 2 lines;
     sections := fold_left add_part (splits_of markdown) ∅ |}.

(** A document with two sections under the heading [## __proto__]. *)
Definition two_proto_blocks : jsstring :=
  lit "Jane Doe" ++ LF :: lit "jane@example.com" ++ LF
  :: lit "## __proto__" ++ LF :: lit "first" ++ LF
  :: lit "## __proto__" ++ LF :: lit "second".

End Parse.

(** ** [parseMarkdownForPreview] of the preview component *)

Module Preview.

Record HeaderInfo := { name : jsstring; contact : jsstring }.

Record PreviewStructure := {
  headerInfo : HeaderInfo;
  sections : list (jsstring * jsstring)
}.

(** [lines[i] || ''] *)
Definition line_or_empty (lines : list jsstring) (i : nat) : jsstring :=
  default [] (lines !! i).

Definition add_part (acc : list (jsstring * jsstring)) (part : jsstring)
  : list (jsstring * jsstring) :=
  match trim part with
  | [] => acc
  | _ =>
      let sectionLines := split LF (trim part) in
      let title := trim (substring_from 3 (nth 0 sectionLines [])) in
      let content := join [LF] (slice_from 1 sectionLines) in
      acc ++ [(title, content)]
  end.

Definition parseMarkdownForPreview (markdown : jsstring) : PreviewStructure :=
  match markdown with
  | [] => {| headerInfo := {| name := []; contact := [] |}; sections := [] |}
  | _ =>
      let lines := split LF markdown in
      let rest := join [LF] (slice_from 2 lines) in
      {| headerInfo := {| name := line_or_empty lines 0;
                          contact := line_or_empty lines 1 |};
         sections := fold_left add_part (split_headings rest) [] |}
  end.

End Preview.

(** ** [extractTextFromPdf] of services/pdfExtractor.ts *)

Module Extractor.

(** An item of [textContent.items] as pdf.js supplies it: [x] is
    [transform[4]], [y] is [transform[5]]; its numbers are doubles. *)
Record TextItem := {
  str : jsstring;
  x : float;
  y : float;
  width : float;
  height : float
}.

(** [a > b] on the exact numbers of the renderer. *)
Definition Qgtb (a b : Q) : bool := negb (Qle_bool a b).

(** The comparator passed to [sort]. *)
Definition compare_items (a b : TextItem) : float :=
  let y1 := y a in
  let y2 := y b in
  let x1 := x a in
  let x2 := x b in
  if Number.gt (PrimFloat.abs (y1 - y2)) 4 then (y2 - y1)%float else (x1 - x2)%float.

(** The variables of the loop over [sortedItems]. *)
Record LineState := {
  lines : list jsstring;
  currentLine : jsstring;
  lastY : float;
  lastX_end : float
}.

(** [item.str.length > 0 ? (item.width / item.str.length) : item.width] *)
Definition charWidth (item : TextItem) : float :=
  if (0 <? length (str item))%nat
  then (width item / Number.of_length (length (str item)))%float
  else width item.

(** One iteration of the loop [for (let j = 1; ...)]. *)
Definition step (st : LineState) (item : TextItem) : LineState :=
  let currentY := y item in
  let currentX := x item in
  let yTolerance := (height item * 0.7)%float in
  if Number.gt (PrimFloat.abs (currentY - lastY st)) yTolerance
  then {| lines := lines st ++ [currentLine st];
          currentLine := str item;
          lastY := currentY;
          lastX_end := (currentX + width item)%float |}
  else
    let xGap := (currentX - lastX_end st)%float in
    {| lines := lines st;
       currentLine :=
         if Number.gt xGap (charWidth item * 0.25)
         then currentLine st ++ SP :: str item
         else currentLine st ++ str item;
       lastY := currentY;
       lastX_end := (currentX + width item)%float |}.

(** The array [lines] after the loop. *)
Definition assemble_lines (sortedItems : list TextItem) : list jsstring :=
  match sortedItems with
  | [] => []
  | first :: rest =>
      let st := fold_left step rest
                  {| lines := [];
                     currentLine := str first;
                     lastY := y first;
                     lastX_end := (x first + width first)%float |} in
      lines st ++ [currentLine st]
  end.

(** [line.replace(/\s+/g, ' ').trim()] *)
Definition clean_line (line : jsstring) : jsstring :=
  trim (collapse_spaces false line).

(** [textContent.items.slice().sort(...)] *)
Definition sortedItems (engine : ArraySort.Engine) (items : list TextItem)
  : list TextItem :=
  ArraySort.array_sort engine compare_items items.

(** The text pushed to [allPagesText] for one page. *)
Definition page_text (engine : ArraySort.Engine) (items : list TextItem)
  : jsstring :=
  match items with
  | [] => []
  | _ => join [LF] (map clean_line (assemble_lines (sortedItems engine items)))
  end.

(** The returned text, given the items of the pages in order. *)
Definition extract_text (engine : ArraySort.Engine) (pages : list (list TextItem))
  : jsstring :=
  trim (join [LF; LF] (map (page_text engine) pages)).

(** *** Notions of the specification *)

(** The horizontal gap between the end of [a] and the start of [b], as
    the loop computes it. *)
Definition xGap (a b : TextItem) : float := (x b - (x a + width a))%float.

(** The line break test of the loop for [b] after [a]. *)
Definition breaks_line (a b : TextItem) : bool :=
  Number.gt (PrimFloat.abs (y b - y a)) (height b * 0.7).

(** The space test of the loop for [b] after [a]. *)
Definition spaced (a b : TextItem) : bool :=
  Number.gt (xGap a b) (charWidth b * 0.25).

(** The runs after [prev], each preceded by a space where the gap to its
    predecessor exceeds a quarter of its character width. *)
Fixpoint glue (prev : TextItem) (rest : list TextItem) : jsstring :=
  match rest with
  | [] => []
  | b :: rest' => (if spaced prev b then SP :: str b else str b) ++ glue b rest'
  end.

Definition glued_line (runs : list TextItem) : jsstring :=
  match runs with
  | [] => []
  | a :: rest => str a ++ glue a rest
  end.

(** The sort takes [a] and [b] for runs of one line: their [y] are not
    more than 4 apart. *)
Definition same_sort_line (a b : TextItem) : bool :=
  negb (Number.gt (PrimFloat.abs (y a - y b)) 4).

(** Every two runs are within the tolerance of the sort (4 units) and
    within the line-break tolerance (0.7 of the height) of each other,
    as the code computes them. *)
Definition one_line (items : list TextItem) : bool :=
  forallb (fun a =>
    forallb (fun b => same_sort_line a b && negb (breaks_line a b)) items) items.

(** The runs start at finite numbers. *)
Definition finite_x (items : list TextItem) : bool :=
  forallb (fun a => PrimFloat.is_finite (x a)) items.

(** The baselines of the runs are finite numbers. *)
Definition finite_y (items : list TextItem) : bool :=
  forallb (fun a => PrimFloat.is_finite (y a)) items.

(** No two runs start at the same [x]. *)
Fixpoint distinct_x (items : list TextItem) : bool :=
  match items with
  | [] => true
  | a :: rest =>
      forallb (fun b => negb (x a =? x b)%float) rest && distinct_x rest
  end.

(** Three runs of one line, out of order, for the examples. *)
Definition run_hello : TextItem :=
  {| str := lit "Hello"; x := 72; y := 700; width := 50; height := 12 |}.
Definition run_world : TextItem :=
  {| str := lit "World"; x := 126; y := 701; width := 50; height := 12 |}.
Definition run_bang : TextItem :=
  {| str := lit "!"; x := 176; y := 699; width := 4; height := 12 |}.


(** Three runs on a slope: each is within 4 units in [y] of the next,
    the first and the last are not, so the comparator orders them in a
    circle. *)
Definition slope_runs : list TextItem :=
  [ {| str := lit "A"; x := 2; y := 6; width := 1; height := 1 |};
    {| str := lit "B"; x := 1; y := 3; width := 1; height := 1 |};
    {| str := lit "C"; x := 0; y := 0; width := 1; height := 1 |} ].

(** Two runs whose baselines are more than 4 units apart by less than the
    precision of a double: their difference rounds to 4. *)
Definition rounded_apart_runs : list TextItem :=
  [ {| str := lit "a"; x := 10; y := 4; width := 5; height := 5 |};
    {| str := lit "b"; x := 0; y := -0x1p-57; width := 5; height := 5 |} ].

End Extractor.

(** ** [PdfRenderer], the templates and [generatePdfResume] of
    services/resumeGenerator.ts *)

Module Generator.

Import Parse.

Local Open Scope Q_scope.

(** *** The libraries *)

(** A token of [marked.lexer]: its [type], and the fields [text],
    [tokens] and [items] where it has them ([text] counts as present when
    it is a string). *)
#[local] Unset Elimination Schemes.
Inductive Token := mkToken {
  type : jsstring;
  text : option jsstring;
  tokens : option (list Token);
  items : option (list Token)
}.
#[local] Set Elimination Schemes.

(** A call on the jsPDF document.  The first argument of [doc.text] may be
    [undefined] (a header line that is not there); [centered] stands for
    the option [{ align: 'center' }]. *)
Inductive DocCall :=
| NewDocument
| SetFont (fontName fontStyle : jsstring)
| SetFontSize (size : Q)
| SetTextColor (color : jsstring)
| SetDrawColor (color : jsstring)
| SetLineWidth (w : Q)
| DrawText (s : option jsstring) (x y : Q) (centered : bool)
| DrawLine (x1 y1 x2 y2 : Q)
| AddPage
| Save (filename : jsstring).

(** What the code relies on from jsPDF and marked.  A document answers as
    a function of the calls made on it so far: the width it reports for a
    text, and whether a call throws; the lexer returns tokens or throws. *)
Record Libraries := {
  getTextWidth : list DocCall -> jsstring -> Q;
  throws : list DocCall -> DocCall -> bool;
  lexer : jsstring -> option (list Token)
}.

(** *** Constants *)

Definition FONT_headerTitle : Q := 21.
Definition FONT_sectionTitle : Q := 15.
Definition FONT_body : Q := 108 # 10.
Definition FONT_contact : Q := 96 # 10.

Definition COLOR_primary : jsstring := lit "#1F2937".
Definition COLOR_accent : jsstring := lit "#3B82F6".
Definition COLOR_accentLight : jsstring := lit "#60a5fa".
Definition COLOR_accentLighter : jsstring := lit "#93c5fd".
Definition COLOR_grayText : jsstring := lit "#9ca3af".
Definition COLOR_border : jsstring := lit "#4b5563".
Definition COLOR_borderDark : jsstring := lit "#374151".

Definition PAGE_WIDTH : Q := 210.
Definition PAGE_HEIGHT : Q := 297.
Definition PAGE_MARGIN : Q := 20.
Definition PAGE_LINE_HEIGHT : Q := 5.
Definition CONTENT_WIDTH : Q := PAGE_WIDTH - PAGE_MARGIN * 2.

(** The bullet character U+2022 drawn before a list item.  Its code unit
    lies outside the modelled range; it stands here as the three bytes of
    its UTF-8 form. *)
Definition BULLET : jsstring := lit "•".

Definition helvetica : jsstring := lit "helvetica".
Definition courier : jsstring := lit "courier".

(** *** Rendering as a computation on the renderer's state *)

(** The document (the calls made on it) and the fields of [PdfRenderer]. *)
Record RenderState := {
  doc : list DocCall;
  cursorY : Q;
  pageNumber : nat
}.

Inductive Outcome (A : Type) :=
| Returned (a : A)
| Thrown.
Arguments Returned {A} a.
Arguments Thrown {A}.

(** A computation changes the state and returns or throws; after a throw
    the state is the one reached when the exception was raised. *)
Definition Render (A : Type) : Type := RenderState -> RenderState * Outcome A.

Definition ret {A} (a : A) : Render A := fun st => (st, Returned a).

Definition bind {A B} (m : Render A) (k : A -> Render B) : Render B :=
  fun st =>
    match m st with
    | (st', Returned a) => k a st'
    | (st', Thrown) => (st', Thrown)
    end.

Definition throw {A} : Render A := fun st => (st, Thrown).

Declare Scope render_scope.
Delimit Scope render_scope with render.
Bind Scope render_scope with Render.
Notation "x <- m ;; k" := (bind m (fun x => k))
  (at level 100, m at next level, k at level 200, right associativity)
  : render_scope.
Notation "m ;; k" := (bind m (fun _ => k))
  (at level 100, k at level 200, right associativity) : render_scope.
Local Open Scope render_scope.

(** A call on the document, recorded unless the library throws. *)
Definition call (lib : Libraries) (c : DocCall) : Render unit :=
  fun st =>
    if throws lib (doc st) c then (st, Thrown)
    else ({| doc := doc st ++ [c]; cursorY := cursorY st;
             pageNumber := pageNumber st |}, Returned tt).

(** [doc.getTextWidth(s)] *)
Definition textWidth (lib : Libraries) (s : jsstring) : Render Q :=
  fun st => (st, Returned (getTextWidth lib (doc st) s)).

Definition getCursorY : Render Q := fun st => (st, Returned (cursorY st)).

Definition setCursorY (v : Q) : Render unit :=
  fun st => ({| doc := doc st; cursorY := v; pageNumber := pageNumber st |},
             Returned tt).

(** [cursorY += d] *)
Definition addCursorY (d : Q) : Render unit :=
  fun st => ({| doc := doc st; cursorY := cursorY st + d;
                pageNumber := pageNumber st |}, Returned tt).

(** [pageNumber++] *)
Definition nextPageNumber : Render unit :=
  fun st => ({| doc := doc st; cursorY := cursorY st;
                pageNumber := S (pageNumber st) |}, Returned tt).

(** [array.forEach(f)] *)
Fixpoint forEach {A} (l : list A) (f : A -> Render unit) : Render unit :=
  match l with
  | [] => ret tt
  | a :: l' => f a ;; forEach l' f
  end.

(** [a === b] on strings. *)
Definition jseq (a b : jsstring) : bool := bool_decide (a = b).

(** *** [PdfRenderer] *)

(** [new PdfRenderer(doc)] *)
Definition newRenderer : Render unit :=
  fun st => ({| doc := doc st; cursorY := PAGE_MARGIN; pageNumber := 1 |},
             Returned tt).

Definition ensurePage (lib : Libraries) : Render unit :=
  y <- getCursorY ;;
  if Extractor.Qgtb y (PAGE_HEIGHT - PAGE_MARGIN)
  then call lib AddPage ;; nextPageNumber ;; setCursorY PAGE_MARGIN
  else ret tt.

Inductive Style := normal | bold | italic.

Definition fontStyle (s : Style) : jsstring :=
  match s with
  | normal => lit "normal"
  | bold => lit "bold"
  | italic => lit "italic"
  end.

Record Word := { word_text : jsstring; word_style : Style }.

(** [token.text.split(' ')], the empty pieces left out. *)
Definition words_of (currentStyle : Style) (s : jsstring) : list Word :=
  map (fun w => {| word_text := w; word_style := currentStyle |})
      (List.filter (fun w => negb (jseq w [])) (split SP s)).

(** The local function [flatten]: the words of the inline tokens in
    order.  Iterating over [token.tokens] throws when it is undefined. *)
Fixpoint flatten_token (currentStyle : Style) (token : Token) {struct token}
  : Outcome (list Word) :=
  if jseq (type token) (lit "strong") || jseq (type token) (lit "em") then
    match tokens token with
    | None => Thrown
    | Some inner =>
        (fix flatten_list (l : list Token) : Outcome (list Word) :=
           match l with
           | [] => Returned []
           | t :: l' =>
               match flatten_token
                       (if jseq (type token) (lit "strong") then bold else italic) t
               with
               | Thrown => Thrown
               | Returned ws =>
                   match flatten_list l' with
                   | Thrown => Thrown
                   | Returned ws' => Returned (ws ++ ws')
                   end
               end
           end) inner
    end
  else if jseq (type token) (lit "text") then
    match text token with
    | Some s => Returned (words_of currentStyle s)
    | None => Returned []
    end
  else Returned [].

Fixpoint flatten_tokens (currentStyle : Style) (l : list Token)
  : Outcome (list Word) :=
  match l with
  | [] => Returned []
  | t :: l' =>
      match flatten_token currentStyle t with
      | Thrown => Thrown
      | Returned ws =>
          match flatten_tokens currentStyle l' with
          | Thrown => Thrown
          | Returned ws' => Returned (ws ++ ws')
          end
      end
  end.

Definition flatten (inlineTokens : option (list Token)) : Render (list Word) :=
  match inlineTokens with
  | None => throw
  | Some l =>
      match flatten_tokens normal l with
      | Thrown => throw
      | Returned ws => ret ws
      end
  end.

(** The loop over [words] of [_renderInlineTokens]; [cursorX] is its
    local variable. *)
Fixpoint renderWords (lib : Libraries) (x maxWidth : Q) (cursorX : Q)
  (words : list Word) : Render unit :=
  match words with
  | [] => ret tt
  | word :: words' =>
      ensurePage lib ;;
      call lib (SetFont helvetica (fontStyle (word_style word))) ;;
      let textToRender := word_text word ++ [SP] in
      wordWidth <- textWidth lib textToRender ;;
      let wraps := Extractor.Qgtb (cursorX + wordWidth) (x + maxWidth) in
      (if wraps then addCursorY PAGE_LINE_HEIGHT else ret tt) ;;
      let cursorX' := if wraps then x else cursorX in
      y <- getCursorY ;;
      call lib (DrawText (Some textToRender) cursorX' y false) ;;
      renderWords lib x maxWidth (cursorX' + wordWidth) words'
  end.

(** [_renderInlineTokens(tokens, x, y, maxWidth)] *)
Definition renderInlineTokens (lib : Libraries)
  (inlineTokens : option (list Token)) (x y maxWidth : Q) : Render Q :=
  setCursorY y ;;
  words <- flatten inlineTokens ;;
  renderWords lib x maxWidth x words ;;
  addCursorY PAGE_LINE_HEIGHT ;;
  getCursorY.

(** [[{ type: 'text', text: s }]] *)
Definition textAsToken (s : jsstring) : option (list Token) :=
  Some [ {| type := lit "text"; text := Some s; tokens := None; items := None |} ].

(** The callback of [token.tokens.forEach] in the case [list_item]. *)
Definition renderItemContent (lib : Libraries) (indent effectiveMaxWidth : Q)
  (itemContent : Token) : Render unit :=
  if jseq (type itemContent) (lit "paragraph") && bool_decide (is_Some (tokens itemContent))
  then
    y <- getCursorY ;;
    y' <- renderInlineTokens lib (tokens itemContent) (indent + 4) y
            (effectiveMaxWidth - 4) ;;
    setCursorY y'
  else if jseq (type itemContent) (lit "text") then
    match text itemContent with
    | Some s =>
        y <- getCursorY ;;
        y' <- renderInlineTokens lib (textAsToken s) (indent + 4) y
                (effectiveMaxWidth - 4) ;;
        setCursorY y'
    | None => ret tt
    end
  else ret tt.

(** The callback of [tokens.forEach] in [renderTokens], at the current
    [listLevel]. *)
Fixpoint renderToken (lib : Libraries) (x maxWidth : Q) (listLevel : nat)
  (token : Token) {struct token} : Render unit :=
  ensurePage lib ;;
  let indent := x + inject_Z (Z.of_nat listLevel) * 5 in
  let effectiveMaxWidth := maxWidth - inject_Z (Z.of_nat listLevel) * 5 in
  if jseq (type token) (lit "heading") then ret tt
  else if jseq (type token) (lit "paragraph") then
    call lib (SetFont helvetica (lit "normal")) ;;
    call lib (SetFontSize FONT_body) ;;
    call lib (SetTextColor COLOR_primary) ;;
    y <- getCursorY ;;
    y' <- renderInlineTokens lib (tokens token) x y maxWidth ;;
    setCursorY y' ;;
    addCursorY 1
  else if jseq (type token) (lit "list") then
    match items token with
    | None => throw
    | Some its =>
        (fix renderItems (l : list Token) : Render unit :=
           match l with
           | [] => ret tt
           | t :: l' => renderToken lib x maxWidth (S listLevel) t ;; renderItems l'
           end) its
    end ;;
    (if (listLevel =? 0)%nat then addCursorY 3 else ret tt)
  else if jseq (type token) (lit "list_item") then
    call lib (SetFontSize FONT_body) ;;
    call lib (SetTextColor COLOR_primary) ;;
    y <- getCursorY ;;
    call lib (DrawText (Some BULLET) indent y false) ;;
    match tokens token with
    | None => throw
    | Some content => forEach content (renderItemContent lib indent effectiveMaxWidth)
    end ;;
    addCursorY (-1)
  else if jseq (type token) (lit "space") then ret tt
  else
    match text token with
    | Some (c :: s) =>
        call lib (SetFont helvetica (lit "normal")) ;;
        call lib (SetFontSize FONT_body) ;;
        y <- getCursorY ;;
        y' <- renderInlineTokens lib (textAsToken (c :: s)) x y maxWidth ;;
        setCursorY y'
    | _ => ret tt
    end.

(** [renderMarkdown(markdown, x, maxWidth, startY)] *)
Definition renderMarkdown (lib : Libraries) (markdown : jsstring) (x maxWidth : Q)
  (startY : option Q) : Render Q :=
  match startY with
  | Some v => if Qeq_bool v 0 then ret tt else setCursorY v
  | None => ret tt
  end ;;
  match lexer lib markdown with
  | None => throw
  | Some toks =>
      forEach toks (renderToken lib x maxWidth 0) ;;
      getCursorY
  end.

(** *** The templates *)

(** [toUpperCase] on ASCII letters; it is applied to the keys of the
    section orders below, which are ASCII words. *)
Definition upper_char (c : ascii) : ascii :=
  let n := nat_of_ascii c in
  if (97 <=? n)%nat && (n <=? 122)%nat then ascii_of_nat (n - 32) else c.

Definition toUpperCase (s : jsstring) : jsstring := map upper_char s.

(** [key.charAt(0).toUpperCase() + key.slice(1)] *)
Definition capitalize (key : jsstring) : jsstring :=
  toUpperCase (take 1 key) ++ drop 1 key.

Inductive TemplateId := classic | professional | technical | modern.

(** The constant [sectionOrder] of each template function. *)
Definition sectionOrder (templateId : TemplateId) : list jsstring :=
  match templateId with
  | classic | professional =>
      [lit "summary"; lit "skills"; lit "experience"; lit "projects"; lit "education"]
  | technical =>
      [lit "summary"; lit "skills"; lit "projects"; lit "experience"; lit "education"]
  | modern =>
      [lit "summary"; lit "experience"; lit "projects"; lit "skills"; lit "education"]
  end.

(** [doc.text(s, x, renderer.cursorY, ...)] *)
Definition textAtCursor (lib : Libraries) (s : option jsstring) (x : Q)
  (centered : bool) : Render unit :=
  y <- getCursorY ;; call lib (DrawText s x y centered).

(** [doc.line(x1, renderer.cursorY + d1, x2, renderer.cursorY + d2)] *)
Definition lineAtCursor (lib : Libraries) (x1 d1 x2 d2 : Q) : Render unit :=
  y <- getCursorY ;; call lib (DrawLine x1 (y + d1) x2 (y + d2)).

(** [renderer.renderMarkdown(data.sections[key], PAGE.MARGIN, CONTENT_WIDTH)]
    and the space after the section. *)
Definition renderBody (lib : Libraries) (content : jsstring) : Render unit :=
  _ <- renderMarkdown lib content PAGE_MARGIN CONTENT_WIDTH None ;;
  addCursorY 4.

(** [if (data.sections[key]) { ... }]: the entry is there and is not the
    empty string. *)
Definition whenSection (data : ResumeStructure) (key : jsstring)
  (body : jsstring -> Render unit) : Render unit :=
  match sections data !! key with
  | Some (c :: s) => body (c :: s)
  | _ => ret tt
  end.

Definition renderClassicTemplate (lib : Libraries) (data : ResumeStructure)
  : Render unit :=
  newRenderer ;;
  call lib (SetFont helvetica (lit "bold")) ;;
  call lib (SetFontSize FONT_headerTitle) ;;
  call lib (SetTextColor COLOR_primary) ;;
  textAtCursor lib (header data !! 0%nat) (PAGE_WIDTH / 2) true ;;
  addCursorY 8 ;;
  call lib (SetFont helvetica (lit "normal")) ;;
  call lib (SetFontSize FONT_contact) ;;
  call lib (SetTextColor COLOR_grayText) ;;
  textAtCursor lib (header data !! 1%nat) (PAGE_WIDTH / 2) true ;;
  addCursorY 12 ;;
  forEach (sectionOrder classic) (fun key =>
    whenSection data key (fun content =>
      let title := capitalize key in
      call lib (SetFont helvetica (lit "bold")) ;;
      call lib (SetFontSize FONT_sectionTitle) ;;
      call lib (SetTextColor COLOR_accentLight) ;;
      textAtCursor lib (Some title) PAGE_MARGIN false ;;
      addCursorY 2 ;;
      call lib (SetDrawColor COLOR_border) ;;
      call lib (SetLineWidth (2 # 10)) ;;
      lineAtCursor lib PAGE_MARGIN 0 (PAGE_WIDTH - PAGE_MARGIN) 0 ;;
      addCursorY 8 ;;
      renderBody lib content)).

Definition renderProfessionalTemplate (lib : Libraries) (data : ResumeStructure)
  : Render unit :=
  newRenderer ;;
  call lib (SetFont helvetica (lit "bold")) ;;
  call lib (SetFontSize FONT_headerTitle) ;;
  call lib (SetTextColor COLOR_primary) ;;
  textAtCursor lib (header data !! 0%nat) PAGE_MARGIN false ;;
  addCursorY 8 ;;
  call lib (SetFont helvetica (lit "normal")) ;;
  call lib (SetFontSize FONT_contact) ;;
  call lib (SetTextColor COLOR_grayText) ;;
  textAtCursor lib (header data !! 1%nat) PAGE_MARGIN false ;;
  addCursorY 10 ;;
  forEach (sectionOrder professional) (fun key =>
    whenSection data key (fun content =>
      let title := toUpperCase (capitalize key) in
      call lib (SetFont helvetica (lit "bold")) ;;
      call lib (SetFontSize 12) ;;
      call lib (SetTextColor COLOR_grayText) ;;
      textAtCursor lib (Some title) PAGE_MARGIN false ;;
      addCursorY 2 ;;
      call lib (SetDrawColor COLOR_borderDark) ;;
      call lib (SetLineWidth (5 # 10)) ;;
      lineAtCursor lib PAGE_MARGIN 0 (PAGE_WIDTH - PAGE_MARGIN) 0 ;;
      addCursorY 8 ;;
      renderBody lib content)).

Definition renderTechnicalTemplate (lib : Libraries) (data : ResumeStructure)
  : Render unit :=
  newRenderer ;;
  call lib (SetFont courier (lit "bold")) ;;
  call lib (SetFontSize FONT_headerTitle) ;;
  call lib (SetTextColor COLOR_primary) ;;
  textAtCursor lib (header data !! 0%nat) PAGE_MARGIN false ;;
  addCursorY 8 ;;
  call lib (SetFont courier (lit "normal")) ;;
  call lib (SetFontSize FONT_contact) ;;
  call lib (SetTextColor COLOR_grayText) ;;
  textAtCursor lib (header data !! 1%nat) PAGE_MARGIN false ;;
  addCursorY 12 ;;
  forEach (sectionOrder technical) (fun key =>
    whenSection data key (fun content =>
      let title := capitalize key in
      call lib (SetFont helvetica (lit "bold")) ;;
      call lib (SetFontSize (132 # 10)) ;;
      call lib (SetTextColor COLOR_accent) ;;
      textAtCursor lib (Some (lit ">> ")) PAGE_MARGIN false ;;
      call lib (SetTextColor COLOR_accent) ;;
      prefixWidth <- textWidth lib (lit ">> ") ;;
      textAtCursor lib (Some title) (PAGE_MARGIN + prefixWidth) false ;;
      addCursorY 8 ;;
      renderBody lib content)).

Definition renderModernTemplate (lib : Libraries) (data : ResumeStructure)
  : Render unit :=
  newRenderer ;;
  call lib (SetFont helvetica (lit "bold")) ;;
  call lib (SetFontSize FONT_headerTitle) ;;
  call lib (SetTextColor COLOR_primary) ;;
  textAtCursor lib (header data !! 0%nat) PAGE_MARGIN false ;;
  addCursorY 8 ;;
  call lib (SetFont helvetica (lit "normal")) ;;
  call lib (SetFontSize FONT_contact) ;;
  call lib (SetTextColor COLOR_grayText) ;;
  textAtCursor lib (header data !! 1%nat) PAGE_MARGIN false ;;
  addCursorY 8 ;;
  call lib (SetDrawColor COLOR_border) ;;
  call lib (SetLineWidth (2 # 10)) ;;
  lineAtCursor lib PAGE_MARGIN 0 (PAGE_WIDTH - PAGE_MARGIN) 0 ;;
  addCursorY 10 ;;
  forEach (sectionOrder modern) (fun key =>
    whenSection data key (fun content =>
      let title := capitalize key in
      addCursorY 4 ;;
      call lib (SetFont helvetica (lit "bold")) ;;
      call lib (SetFontSize (132 # 10)) ;;
      call lib (SetTextColor COLOR_accentLighter) ;;
      call lib (SetDrawColor COLOR_accent) ;;
      call lib (SetLineWidth 1) ;;
      lineAtCursor lib PAGE_MARGIN (-4) PAGE_MARGIN 4 ;;
      textAtCursor lib (Some title) (PAGE_MARGIN + 3) false ;;
      addCursorY 8 ;;
      renderBody lib content)).

(** The [switch (templateId)]. *)
Definition renderTemplate (lib : Libraries) (templateId : TemplateId)
  (data : ResumeStructure) : Render unit :=
  match templateId with
  | professional => renderProfessionalTemplate lib data
  | technical => renderTechnicalTemplate lib data
  | modern => renderModernTemplate lib data
  | classic => renderClassicTemplate lib data
  end.

(** *** [generatePdfResume] *)

(** What a call of [generatePdfResume] does to the world outside: it
    saves a file, or writes to the console and shows an alert. *)
Inductive Effect :=
| FileSaved (filename : jsstring) (calls : list DocCall)
| ConsoleError (label : jsstring)
| Alert (message : jsstring).

(** The body of the [try] up to the save: sanitize, create the document,
    parse, lay out. *)
Definition layout (lib : Libraries) (resumeText : jsstring)
  (templateId : TemplateId) : Render unit :=
  let sanitizedResumeText := Sanitize.sanitize resumeText in
  call lib NewDocument ;;
  let parsedData := parseResumeStructure sanitizedResumeText in
  call lib (SetFont helvetica (lit "normal")) ;;
  renderTemplate lib templateId parsedData.

(** Before [new jsPDF] there is no document and no renderer. *)
Definition no_document : RenderState :=
  {| doc := []; cursorY := 0; pageNumber := 0 |}.

Definition generatePdfResume (lib : Libraries) (resumeText : jsstring)
  (templateId : TemplateId) (filename : jsstring) : list Effect :=
  match (layout lib resumeText templateId ;; call lib (Save filename)) no_document with
  | (st, Returned _) => [FileSaved filename (doc st)]
  | (_, Thrown) =>
      [ConsoleError (lit "Failed to generate PDF:");
       Alert (lit "Sorry, there was an error generating the PDF. Please try again.")]
  end.

(** *** Observations on a document *)

(** The number of pages: the first, and one for every [addPage]. *)
Definition page_count (calls : list DocCall) : nat :=
  S (length (List.filter (fun c => match c with AddPage => true | _ => false end) calls)).

(** The position of every text drawn, in order. *)
Fixpoint text_positions (calls : list DocCall) : list (Q * Q) :=
  match calls with
  | [] => []
  | DrawText _ x y _ :: rest => (x, y) :: text_positions rest
  | _ :: rest => text_positions rest
  end.

(** The documents saved by a run. *)
Fixpoint saved_documents (effects : list Effect) : list (list DocCall) :=
  match effects with
  | [] => []
  | FileSaved _ calls :: rest => calls :: saved_documents rest
  | _ :: rest => saved_documents rest
  end.

(** *** Two runs *)

(** The body of the [try]: the layout and the save. *)
Definition generation (lib : Libraries) (resumeText : jsstring)
  (templateId : TemplateId) (filename : jsstring) : Render unit :=
  layout lib resumeText templateId ;; call lib (Save filename).

(** The calls made on the document at hand: those from the last
    [new jsPDF] on. *)
Definition current_document (calls : list DocCall) : list DocCall :=
  fold_left (fun made c =>
               match c with
               | NewDocument => [NewDocument]
               | _ => made ++ [c]
               end) calls [].

(** Two instances of the libraries answer alike, each about the document
    at hand: the width of a text and the failure of a call depend on the
    calls made on that document and not on documents created before it,
    [new jsPDF] fails in both or in neither, and the lexers return the same
    tokens. *)
Definition answer_alike (lib1 lib2 : Libraries) : Prop :=
  (forall calls1 calls2 s,
     current_document calls1 = current_document calls2 ->
     getTextWidth lib1 calls1 s = getTextWidth lib2 calls2 s)
  /\ (forall calls1 calls2 c,
        c <> NewDocument ->
        current_document calls1 = current_document calls2 ->
        throws lib1 calls1 c = throws lib2 calls2 c)
  /\ (forall calls1 calls2,
        throws lib1 calls1 NewDocument = throws lib2 calls2 NewDocument)
  /\ (forall s, lexer lib1 s = lexer lib2 s).

(** Two states with the same document at hand, cursor and page number. *)
Definition same_renderer (st1 st2 : RenderState) : Prop :=
  current_document (doc st1) = current_document (doc st2)
  /\ cursorY st1 = cursorY st2
  /\ pageNumber st1 = pageNumber st2.

(** Two results that end alike, in states with the same cursor and page
    number, after the same calls. *)
Definition same_result {A} (st1 st2 : RenderState)
  (r1 r2 : RenderState * Outcome A) : Prop :=
  snd r1 = snd r2
  /\ cursorY (fst r1) = cursorY (fst r2)
  /\ pageNumber (fst r1) = pageNumber (fst r2)
  /\ exists calls, doc (fst r1) = doc st1 ++ calls /\ doc (fst r2) = doc st2 ++ calls.

(** Two computations run in step from states with the same document at
    hand, cursor and page number. *)
Definition in_step {A} (m1 m2 : Render A) : Prop :=
  forall st1 st2, same_renderer st1 st2 -> same_result st1 st2 (m1 st1) (m2 st2).

(** A property of the tokens of an optional array. *)
Definition all_tokens (P : Token -> Prop) (o : option (list Token)) : Prop :=
  match o with
  | Some l => Forall P l
  | None => True
  end.

(** *** Libraries for the examples *)

(** A document that rejects a text that is not a string, as jsPDF does,
    and measures a text as two units per character; a lexer that makes one
    paragraph of one text token of its input. *)
Definition example_libraries : Libraries :=
  {| getTextWidth := fun _ s => inject_Z (Z.of_nat (length s)) * 2;
     throws := fun _ c =>
       match c with
       | DrawText None _ _ _ => true
       | _ => false
       end;
     lexer := fun s =>
       Some [ {| type := lit "paragraph"; text := Some s;
                 tokens := textAsToken s; items := None |} ] |}.

(** The same answers, computed in another way. *)
Definition example_libraries' : Libraries :=
  {| getTextWidth := fun _ s =>
       inject_Z (Z.of_nat (length s)) + inject_Z (Z.of_nat (length s));
     throws := fun _ c =>
       match c with
       | DrawText s _ _ _ => negb (bool_decide (is_Some s))
       | _ => false
       end;
     lexer := fun s =>
       Some [ {| type := lit "paragraph"; text := Some s;
                 tokens := textAsToken s; items := None |} ] |}.

(** What an earlier run can leave behind: a saved document of two pages,
    the cursor low on its second page. *)
Definition after_a_run : RenderState :=
  {| doc := [NewDocument; AddPage; Save (lit "Other.pdf")];
     cursorY := 250;
     pageNumber := 2 |}.

(** The resume of the specification's scenario. *)
Definition example_resume : jsstring :=
  lit "Jane Doe" ++ LF :: lit "jane@example.com | 555-1234" ++ LF
  :: lit "## Summary" ++ LF :: lit "Senior engineer with 5 years experience." ++ LF
  :: lit "## Skills" ++ LF :: lit "- Python" ++ LF :: lit "- Go".

End Generator.

(** ** The download dialog of the preview component *)

Module Download.

Import Generator.

(** [s.endsWith(suffix)] *)
Definition endsWith (s suffix : jsstring) : bool :=
  (length suffix <=? length s)
  && bool_decide (drop (length s - length suffix) s = suffix).

(** [s.replace(/\s+/g, '-')]: every maximal run of white space becomes
    one hyphen. *)
Fixpoint hyphenate (in_run : bool) (s : jsstring) : jsstring :=
  match s with
  | [] => []
  | c :: s' =>
      if is_space c
      then (if in_run then hyphenate true s'
            else "-"%char :: hyphenate true s')
      else c :: hyphenate false s'
  end.

(** The name [openModal] puts in the file name field, from the name line
    of the preview's parse. *)
Definition suggestedName (name : jsstring) : jsstring :=
  match name with
  | [] => lit "AI-Generated-Resume"
  | _ => hyphenate false (trim name) ++ lit "-Resume"
  end.

(** The name [handleDownload] passes on. *)
Definition finalFilename (filename : jsstring) : jsstring :=
  if endsWith (toLowerCase filename) (lit ".pdf")
  then filename
  else filename ++ lit ".pdf".

(** What [handleDownload] leaves behind: the effects of the generator, and
    whether the dialog is still open. *)
Record Download := {
  effects : list Effect;
  isModalOpen : bool
}.

Definition handleDownload (lib : Libraries) (filename resumeText : jsstring)
  (downloadTemplate : TemplateId) : Download :=
  match trim filename with
  | [] => {| effects := []; isModalOpen := true |}
  | _ =>
      {| effects :=
           generatePdfResume lib resumeText downloadTemplate (finalFilename filename);
         isModalOpen := false |}
  end.

End Download.

(** ** The technology tags of the preview component *)

Module TechTags.

(** [s.startsWith(prefix)] *)
Definition startsWith (s prefix : jsstring) : bool :=
  bool_decide (take (length prefix) s = prefix).

(** The paragraph [marked] makes of a line [**Technologies:** ...] starts
    with this. *)
Definition PREFIX : jsstring := lit "<strong>Technologies:</strong>".

Definition COMMA : ascii := ","%char.

(** [s.split(/,\s*/)]: the string is cut at every comma, and the white
    space after the comma goes with it.  [skipping] tells whether the
    position is in the white space after a comma.  The result is never the
    empty array. *)
Fixpoint split_commas (skipping : bool) (s : jsstring) : list jsstring :=
  match s with
  | [] => [[]]
  | c :: s' =>
      if skipping && is_space c then split_commas true s'
      else if Ascii.eqb c COMMA then [] :: split_commas true s'
      else match split_commas false s' with
           | [] => [[c]]
           | l :: ls => (c :: l) :: ls
           end
  end.

(** [text.replace(PREFIX, '').trim().split(/,\s*/)] for a text that starts
    with [PREFIX]: the occurrence replaced is the one at the start. *)
Definition technologies (text : jsstring) : list jsstring :=
  split_commas false (trim (drop (length PREFIX) text)).

(** [technologies.filter(tech => tech)] *)
Definition techTags (text : jsstring) : list jsstring :=
  List.filter (fun tech => negb (bool_decide (tech = []))) (technologies text).

Definition QUOTE : ascii := "034"%char.

(** The [span] of one tag. *)
Definition span (tech : jsstring) : jsstring :=
  lit "<span class=" ++ QUOTE :: lit "tech-tag" ++ QUOTE :: lit ">"
  ++ tech ++ lit "</span>".

(** The paragraph renderer of the section [projects]; [originalParagraph]
    is the renderer of [marked] it replaces. *)
Definition paragraph (originalParagraph : jsstring -> jsstring) (text : jsstring)
  : jsstring :=
  if startsWith text PREFIX
  then lit "<div class=" ++ QUOTE :: lit "tech-tags-container" ++ QUOTE :: lit ">"
       ++ concat (map span (techTags text)) ++ lit "</div>"
  else originalParagraph text.

End TechTags.

(** ** Notions used to state further properties of the services *)

Module Notions.

(** The characters of [s] that are not white space, in order. *)
Definition visible (s : jsstring) : jsstring :=
  List.filter (fun c => negb (is_space c)) s.

(** No star of [s] can start a bullet: each is followed by a character
    that is not white space (or ends the text), or has a character that is
    not white space before it on its line.  [seen] tells whether such a
    character has been met since the last line terminator. *)
Fixpoint no_bullet_star (seen : bool) (s : jsstring) : bool :=
  match s with
  | [] => true
  | c :: s' =>
      (if Ascii.eqb c STAR
       then seen || match s' with
                    | d :: _ => negb (is_space d)
                    | [] => true
                    end
       else true)
      && no_bullet_star
           (if is_line_terminator c then false else seen || negb (is_space c)) s'
  end.

(** A character and what the sanitization pass may put in its place: itself,
    or a hyphen for a star. *)
Definition kept_or_dash (a b : ascii) : Prop :=
  a = b \/ (a = STAR /\ b = "-"%char).

(** The sections of a list of titled sections as the dictionary of the
    generator has them: under the lower-cased title, a later section of the
    same title in place of an earlier one. *)
Definition dictionary_of (titled : list (jsstring * jsstring))
  : gmap jsstring jsstring :=
  fold_left (fun o tc => Parse.obj_set (toLowerCase (fst tc)) (snd tc) o) titled ∅.

(** The text starts with a character that is not white space. *)
Definition starts_visible (s : jsstring) : bool :=
  match s with
  | c :: _ => negb (is_space c)
  | [] => false
  end.

(** The white space of [s] is the space and the line feed only, and every
    space stands between two characters that are not white space;
    [after_visible] tells whether the character before [s] is one. *)
Fixpoint well_spaced (after_visible : bool) (s : jsstring) : bool :=
  match s with
  | [] => true
  | c :: s' =>
      if Ascii.eqb c SP
      then after_visible && starts_visible s' && well_spaced false s'
      else if Ascii.eqb c LF then well_spaced false s'
      else negb (is_space c) && well_spaced true s'
  end.

(** As the code computes it, [a] is on another line than [b] for the
    sort (their [y] are more than 4 apart) and for the walk when [a]
    follows [b] (they are more than 0.7 of the height of [a] apart). *)
Definition far_from (a b : Extractor.TextItem) : bool :=
  Number.gt (PrimFloat.abs (Extractor.y a - Extractor.y b)) 4
  && Extractor.breaks_line b a.

(** Two runs are on different lines, in whichever order the code meets
    them. *)
Definition apart (a b : Extractor.TextItem) : bool :=
  far_from a b && far_from b a.

(** Every two runs of the page are on different lines. *)
Fixpoint separate_lines (items : list Extractor.TextItem) : bool :=
  match items with
  | [] => true
  | a :: rest => forallb (apart a) rest && separate_lines rest
  end.

End Notions.

(** ** Specifications of rendering computations *)

Module RenderLogic.

Import Generator.
Local Open Scope Q_scope.

(** [m], run from a state that satisfies [P], adds to the document only
    calls that satisfy [ok], whether it returns or throws; when it returns,
    the value and the state satisfy [Q]. *)
Definition sound {A} (ok : DocCall -> Prop) (P : RenderState -> Prop)
  (m : Render A) (Q : A -> RenderState -> Prop) : Prop :=
  forall st, P st ->
    exists new,
      doc (fst (m st)) = doc st ++ new
      /\ Forall ok new
      /\ forall a, snd (m st) = Returned a -> Q a (fst (m st)).

(** The page counter of the renderer is [b] pages ahead of the document
    and [a] behind it (both are 0 once the renderer is created on a fresh
    document). *)
Definition counts_pages (a b : nat) (st : RenderState) : Prop :=
  (pageNumber st + a = page_count (doc st) + b)%nat.

(** The lowest row a text of a section body is drawn on: one line below
    the row at which a page is broken. *)
Definition BODY_BOTTOM : Q := PAGE_HEIGHT - PAGE_MARGIN + PAGE_LINE_HEIGHT.

(** A word as the inline renderer draws it: not empty, without a space,
    followed by one space. *)
Definition drawn_word (t : jsstring) : Prop :=
  exists w, t = w ++ [SP] /\ w <> [] /\ SP ∉ w.

(** The document never reports a negative width. *)
Definition widths_not_negative (lib : Libraries) : Prop :=
  forall calls s, 0 <= getTextWidth lib calls s.

(** A call made while a section body is rendered from the left edge [x]:
    Helvetica in one of its three styles, the body font size, the primary
    colour, a new page, or a bullet or a word drawn left-aligned, not below
    [BODY_BOTTOM] and, the widths not being negative, not left of [x]. *)
Definition body_call (lib : Libraries) (x : Q) (c : DocCall) : Prop :=
  match c with
  | DrawText s cx cy centered =>
      cy <= BODY_BOTTOM
      /\ (widths_not_negative lib -> x <= cx)
      /\ centered = false
      /\ exists t, s = Some t /\ (t = BULLET \/ drawn_word t)
  | SetFont fontName fontStyle =>
      fontName = helvetica
      /\ (fontStyle = lit "normal" \/ fontStyle = lit "bold"
          \/ fontStyle = lit "italic")
  | SetFontSize size => size = FONT_body
  | SetTextColor color => color = COLOR_primary
  | AddPage => True
  | _ => False
  end.

(** A call made while the document is laid out: any but the creation and
    the saving of the document. *)
Definition layout_call (c : DocCall) : Prop :=
  match c with
  | NewDocument | Save _ => False
  | _ => True
  end.

(** The title a template draws over the section of a key. *)
Definition sectionTitle (templateId : TemplateId) (key : jsstring) : jsstring :=
  match templateId with
  | professional => toUpperCase (capitalize key)
  | _ => capitalize key
  end.

(** The document holds the drawing of a left-aligned text [s]. *)
Definition draws (s : jsstring) (calls : list DocCall) : Prop :=
  exists x y, DrawText (Some s) x y false ∈ calls.

(** The document holds the drawing of a left-aligned text [s1] and, after
    it, that of a left-aligned text [s2]. *)
Definition draws_before (s1 s2 : jsstring) (calls : list DocCall) : Prop :=
  exists pre post x y,
    calls = pre ++ DrawText (Some s1) x y false :: post /\ draws s2 post.

(** [k1] comes before [k2] in the list. *)
Definition before {A} (k1 k2 : A) (l : list A) : Prop :=
  exists l1 l2 l3, l = l1 ++ k1 :: l2 ++ k2 :: l3.

(** The texts drawn, in order. *)
Fixpoint drawn_texts (calls : list DocCall) : list jsstring :=
  match calls with
  | [] => []
  | DrawText (Some t) _ _ _ :: rest => t :: drawn_texts rest
  | _ :: rest => drawn_texts rest
  end.

End RenderLogic.

(** * Properties *)

(** ** Strings *)

Section StringFacts.

Lemma is_line_terminator_space c : is_line_terminator c = true -> is_space c = true.
Proof.
  unfold is_line_terminator, is_space.
  destruct (nat_of_ascii c =? 10) eqn:E10; destruct (nat_of_ascii c =? 13) eqn:E13;
    simpl; intros H; try discriminate;
    repeat (rewrite ?E10, ?E13, ?orb_true_r; simpl); reflexivity.
Qed.

Lemma not_space_not_terminator c : is_space c = false -> is_line_terminator c = false.
Proof.
  intros H. destruct (is_line_terminator c) eqn:E; [|reflexivity].
  apply is_line_terminator_space in E. congruence.
Qed.

Lemma split_nonempty sep s : split sep s <> [].
Proof.
  destruct s as [|c s]; cbn [split]; [discriminate|].
  destruct (Ascii.eqb c sep); [discriminate|].
  destruct (split sep s); discriminate.
Qed.

(** A piece without the separator is the first element of the split. *)
Lemma split_app_sep sep h s :
  sep ∉ h -> split sep (h ++ sep :: s) = h :: split sep s.
Proof.
  induction h as [|c h IH]; intros Hh; cbn [app split].
  - rewrite Ascii.eqb_refl. reflexivity.
  - apply not_elem_of_cons in Hh as [Hc Hh].
    assert (Ascii.eqb c sep = false) as -> by (apply Ascii.eqb_neq; congruence).
    rewrite (IH Hh). reflexivity.
Qed.

Lemma split_no_sep sep h : sep ∉ h -> split sep h = [h].
Proof.
  induction h as [|c h IH]; intros Hh; cbn [split]; [reflexivity|].
  apply not_elem_of_cons in Hh as [Hc Hh].
  assert (Ascii.eqb c sep = false) as -> by (apply Ascii.eqb_neq; congruence).
  rewrite (IH Hh). reflexivity.
Qed.

Lemma join_cons sep l ls :
  ls <> [] -> join sep (l :: ls) = l ++ sep ++ join sep ls.
Proof. destruct ls; [congruence|reflexivity]. Qed.

(** Joining what was split gives the string back. *)
Lemma join_split sep s : join [sep] (split sep s) = s.
Proof.
  induction s as [|c s IH]; [reflexivity|]. cbn [split].
  destruct (Ascii.eqb c sep) eqn:E.
  - apply Ascii.eqb_eq in E as ->.
    rewrite join_cons by apply split_nonempty. rewrite IH. reflexivity.
  - pose proof (split_nonempty sep s) as Hne.
    destruct (split sep s) as [|l ls]; [congruence|].
    destruct ls as [|l' ls'].
    + cbn [join] in *. rewrite IH. reflexivity.
    + change (join [sep] ((c :: l) :: l' :: ls'))
        with (c :: join [sep] (l :: l' :: ls')).
      rewrite IH. reflexivity.
Qed.

Lemma trimStart_visible c s : is_space c = false -> trimStart (c :: s) = c :: s.
Proof. intros H. cbn [trimStart]. rewrite H. reflexivity. Qed.

Lemma trimEnd_cons_space c s :
  is_space c = true ->
  trimEnd (c :: s) = match trimEnd s with [] => [] | t => c :: t end.
Proof. intros H. cbn [trimEnd]. rewrite H. reflexivity. Qed.

Lemma trimEnd_cons_visible c s :
  is_space c = false -> trimEnd (c :: s) = c :: trimEnd s.
Proof. intros H. cbn [trimEnd]. rewrite H. destruct (trimEnd s); reflexivity. Qed.

(** Trimming the end stops at a visible character. *)
Lemma trimEnd_app_visible h c s :
  is_space c = false -> trimEnd (h ++ c :: s) = h ++ c :: trimEnd s.
Proof.
  intros Hc. induction h as [|a h IH]; cbn [app].
  - apply trimEnd_cons_visible, Hc.
  - cbn [trimEnd]. rewrite IH. destruct h; reflexivity.
Qed.

Lemma ends_line_cons a pre : pre <> [] -> ends_line (a :: pre) = ends_line pre.
Proof. destruct pre; [congruence|reflexivity]. Qed.

Lemma ends_line_tail a pre : ends_line (a :: pre) = true -> ends_line pre = true.
Proof. destruct pre; [reflexivity|]. intros H. exact H. Qed.

Lemma ends_line_single a pre :
  ends_line (a :: pre) = true -> pre = [] -> is_line_terminator a = true.
Proof. intros H ->. exact H. Qed.

Lemma ends_line_snoc s t : is_line_terminator t = true -> ends_line (s ++ [t]) = true.
Proof.
  intros Ht. induction s as [|a s IH]; [exact Ht|].
  cbn [app]. rewrite ends_line_cons; [exact IH|destruct s; discriminate].
Qed.

End StringFacts.

(** ** The sanitization pass *)

Section SanitizeFacts.

Import Sanitize.

Lemma star_not_space : is_space STAR = false.
Proof. reflexivity. Qed.

(** A match has at least the star and the white space after it. *)
Lemma bullet_match_ge2 s n : bullet_match s = Some n -> 2 <= n.
Proof.
  revert n. induction s as [|c s IH]; intros n; simpl; [discriminate|].
  destruct (is_space c).
  - destruct (bullet_match s) as [m|]; simpl; [|discriminate].
    intros [= <-]. specialize (IH m eq_refl). lia.
  - destruct (Ascii.eqb c STAR); [|discriminate].
    destruct s as [|d s']; [discriminate|].
    destruct (is_space d); [|discriminate]. intros [= <-]. lia.
Qed.

(** Where nothing matches at the head, the scan copies the head. *)
Lemma replace_bullets_no_match b c s :
  bullet_match (c :: s) = None ->
  replace_bullets 0 b (c :: s) = c :: replace_bullets 0 (is_line_terminator c) s.
Proof.
  intros H. cbn [replace_bullets]. rewrite H. destruct b; reflexivity.
Qed.

Lemma replace_bullets_mid c s :
  replace_bullets 0 false (c :: s) = c :: replace_bullets 0 (is_line_terminator c) s.
Proof. reflexivity. Qed.

(** The scan creates no match: a head that did not match before the pass
    does not match after it. *)
Lemma bullet_match_replace_none s :
  bullet_match s = None -> forall b, bullet_match (replace_bullets 0 b s) = None.
Proof.
  induction s as [|c s IH]; intros H b; [reflexivity|].
  rewrite (replace_bullets_no_match b c s H).
  cbn [bullet_match] in *.
  destruct (is_space c) eqn:Ec.
  - destruct (bullet_match s) eqn:Es; [discriminate|].
    rewrite (IH eq_refl). reflexivity.
  - destruct (Ascii.eqb c STAR) eqn:Estar; [|reflexivity].
    rewrite (not_space_not_terminator c Ec).
    destruct s as [|d s']; [reflexivity|].
    rewrite replace_bullets_mid.
    destruct (is_space d); [discriminate|reflexivity].
Qed.

(** A second pass changes nothing, whether it starts in the middle of a
    line or in the same line-start state as the first. *)
Lemma replace_bullets_idem s :
  (forall k b, replace_bullets 0 false (replace_bullets k b s) = replace_bullets k b s)
  /\ (forall b, replace_bullets 0 b (replace_bullets 0 b s) = replace_bullets 0 b s).
Proof.
  induction s as [|c s [IH1 IH2]]; [split; intros; destruct k || idtac; reflexivity|].
  assert (H1 : forall k b,
    replace_bullets 0 false (replace_bullets k b (c :: s)) = replace_bullets k b (c :: s)).
  { intros [|k] b; cbn [replace_bullets]; [|apply IH1].
    destruct (if b then bullet_match (c :: s) else None) as [[|m]|] eqn:E.
    - rewrite replace_bullets_mid. f_equal. apply IH2.
    - rewrite !replace_bullets_mid. cbn. do 2 f_equal. apply IH1.
    - rewrite replace_bullets_mid. f_equal. apply IH2. }
  split; [exact H1|].
  intros [|]; [|apply (H1 0 false)].
  cbn [replace_bullets].
  destruct (bullet_match (c :: s)) as [[|m]|] eqn:E.
  - apply bullet_match_ge2 in E. lia.
  - cbn. do 2 f_equal. apply IH1.
  - assert (E' := bullet_match_replace_none _ E true).
    rewrite (replace_bullets_no_match true c s E) in E'.
    rewrite (replace_bullets_no_match true _ _ E'). f_equal. apply IH2.
Qed.

(** Consuming the rest of a match: nothing is copied, and the position
    after it is a line start when the last consumed character is a line
    terminator. *)
Lemma replace_bullets_skip l1 x l2 b :
  replace_bullets (S (length l1)) b (l1 ++ x :: l2)
  = replace_bullets 0 (is_line_terminator x) l2.
Proof.
  revert b. induction l1 as [|a l1 IH]; intros b; [reflexivity|].
  cbn [length app replace_bullets]. apply IH.
Qed.

Lemma bullet_match_indent w d rest :
  forallb is_space w = true -> is_space d = true ->
  bullet_match (w ++ STAR :: d :: rest) = Some (length w + 2).
Proof.
  intros Hw Hd. induction w as [|a w IH]; cbn [app bullet_match length forallb] in *.
  - rewrite star_not_space, Hd. reflexivity.
  - apply andb_prop in Hw as [Ha Hw]. rewrite Ha, (IH Hw). reflexivity.
Qed.

(** A line start followed by white space, a star and a white space
    character: the whole of it becomes [- ]. *)
Lemma replace_bullets_indent w d rest :
  forallb is_space w = true -> is_space d = true ->
  replace_bullets 0 true (w ++ STAR :: d :: rest)
  = "-"%char :: SP :: replace_bullets 0 (is_line_terminator d) rest.
Proof.
  intros Hw Hd.
  assert (Hm := bullet_match_indent w d rest Hw Hd).
  replace (w ++ STAR :: d :: rest) with ((w ++ [STAR]) ++ d :: rest) in *
    by (rewrite <- app_assoc; reflexivity).
  destruct (w ++ [STAR]) as [|m0 M] eqn:EM; [destruct w; discriminate|].
  cbn [app] in *. cbn [replace_bullets]. rewrite Hm.
  replace (length w + 2) with (S (S (length M))).
  - rewrite replace_bullets_skip. reflexivity.
  - apply (f_equal (@length ascii)) in EM. rewrite length_app in EM.
    cbn [length] in EM. lia.
Qed.

(** A character that is neither white space nor a star ends every
    attempt to match: what precedes it is scanned independently of what
    follows it. *)
Lemma bullet_match_cut l c s :
  is_space c = false -> c <> STAR ->
  bullet_match (l ++ c :: s) = bullet_match (l ++ [c]).
Proof.
  intros Hc Hs.
  assert (Hne : Ascii.eqb c STAR = false) by (apply Ascii.eqb_neq; exact Hs).
  induction l as [|a l IH]; cbn [app bullet_match].
  - rewrite Hc, Hne. reflexivity.
  - destruct (is_space a); [rewrite IH; reflexivity|].
    destruct (Ascii.eqb a STAR); [|reflexivity].
    destruct l as [|d l']; cbn [app]; [rewrite Hc; reflexivity|reflexivity].
Qed.

Lemma bullet_match_within l c n :
  is_space c = false ->
  bullet_match (l ++ [c]) = Some n -> n <= length l.
Proof.
  intros Hc. revert n. induction l as [|a l IH]; intros n; cbn [app bullet_match length].
  - rewrite Hc. destruct (Ascii.eqb c STAR); discriminate.
  - destruct (is_space a).
    + destruct (bullet_match (l ++ [c])) as [m|]; [|discriminate].
      intros [= <-]. specialize (IH m eq_refl). lia.
    + destruct (Ascii.eqb a STAR); [|discriminate].
      destruct l as [|d l']; cbn [app].
      * rewrite Hc. discriminate.
      * destruct (is_space d); [|discriminate]. intros [= <-]. cbn [length]. lia.
Qed.

Lemma replace_bullets_cut pre c s :
  is_space c = false -> c <> STAR ->
  forall k b, k <= length pre ->
  replace_bullets k b (pre ++ c :: s)
  = replace_bullets k b (pre ++ [c]) ++ replace_bullets 0 false s.
Proof.
  intros Hc Hs.
  assert (Hne : Ascii.eqb c STAR = false) by (apply Ascii.eqb_neq; exact Hs).
  induction pre as [|p pre IH]; intros k b Hk.
  - cbn [length] in Hk. assert (k = 0) as -> by lia.
    cbn [app replace_bullets bullet_match]. rewrite Hc, Hne.
    rewrite (not_space_not_terminator c Hc). destruct b; reflexivity.
  - cbn [app length] in *. destruct k as [|k]; cbn [replace_bullets].
    + change (p :: pre ++ c :: s) with ((p :: pre) ++ c :: s).
      change (p :: pre ++ [c]) with ((p :: pre) ++ [c]).
      rewrite (bullet_match_cut (p :: pre) c s Hc Hs).
      destruct (if b then bullet_match ((p :: pre) ++ [c]) else None) as [[|m]|] eqn:E.
      * cbn [app]. f_equal. apply IH. lia.
      * assert (S m <= length (p :: pre)).
        { destruct b; [|discriminate]. eapply bullet_match_within; eauto. }
        cbn [length] in *. cbn [app]. do 2 f_equal. apply IH. lia.
      * cbn [app]. f_equal. apply IH. lia.
    + apply IH. lia.
Qed.

(** In the middle of a line the scan copies up to and including the line
    terminator. *)
Lemma replace_bullets_line_rest R t s :
  forallb (fun c => negb (is_line_terminator c)) R = true ->
  is_line_terminator t = true ->
  replace_bullets 0 false (R ++ t :: s) = R ++ t :: replace_bullets 0 true s.
Proof.
  intros HR Ht. induction R as [|c R IH]; cbn [app forallb] in *.
  - rewrite replace_bullets_mid, Ht. reflexivity.
  - apply andb_prop in HR as [Hc HR]. apply negb_true_iff in Hc.
    rewrite replace_bullets_mid, Hc, (IH HR). reflexivity.
Qed.

Lemma dashes_snoc n : dashes n ++ lit "- " = dashes (S n).
Proof.
  induction n as [|n IH]; [reflexivity|].
  cbn [dashes app]. rewrite IH. reflexivity.
Qed.

Lemma line_start_markers_nil : line_start_markers [].
Proof. exists [], 0. split; reflexivity. Qed.

Lemma line_start_markers_terminator acc t :
  is_line_terminator t = true -> line_start_markers (acc ++ [t]).
Proof.
  intros Ht. exists (acc ++ [t]), 0. cbn [dashes]. rewrite app_nil_r.
  split; [reflexivity|apply ends_line_snoc, Ht].
Qed.

Lemma line_start_markers_dash acc :
  line_start_markers acc -> line_start_markers (acc ++ lit "- ").
Proof.
  intros (out0 & n & -> & H). exists out0, (S n).
  rewrite <- app_assoc, dashes_snoc. split; [reflexivity|exact H].
Qed.

(** A match that starts in a text [pre] that ends a line and is followed
    by a bullet line ends inside [pre] or with the bullet of that line. *)
Lemma bullet_match_bound pre w d rest n :
  ends_line pre = true -> forallb is_space w = true -> is_space d = true ->
  bullet_match (pre ++ w ++ STAR :: d :: rest) = Some n ->
  n <= length pre \/ n = length pre + length w + 2.
Proof.
  intros Hpre Hw Hd. revert n. induction pre as [|c pre IH]; intros n.
  - cbn [app length]. rewrite (bullet_match_indent w d rest Hw Hd).
    intros [= <-]. right. lia.
  - cbn [app bullet_match length]. destruct (is_space c) eqn:Ec.
    + destruct (bullet_match (pre ++ w ++ STAR :: d :: rest)) as [m|] eqn:Em;
        [|discriminate].
      intros [= <-]. destruct (IH (ends_line_tail _ _ Hpre) m eq_refl); [left|right]; lia.
    + destruct (Ascii.eqb c STAR); [|discriminate].
      destruct pre as [|c' pre'].
      * cbn [ends_line] in Hpre. apply is_line_terminator_space in Hpre. congruence.
      * cbn [app]. destruct (is_space c'); [|discriminate].
        intros [= <-]. left. cbn [length]. lia.
Qed.

(** The scan from any position of a text [pre] that ends a line up to
    the bullet line that follows it.  [acc] is the output so far: at a
    line start it is at the start of a line but for markers, and inside a
    match it ends with the marker of that match. *)
Lemma scan_to_bullet w d rest :
  forallb is_space w = true -> is_space d = true ->
  forall pre k b acc,
    ends_line pre = true ->
    (k = 0 -> (pre = [] -> b = true) /\ (b = true -> line_start_markers acc)) ->
    (k <> 0 -> (k <= length pre \/ k = length pre + length w + 2)
               /\ exists acc0, acc = acc0 ++ lit "- " /\ line_start_markers acc0) ->
    exists acc',
      acc ++ replace_bullets k b (pre ++ w ++ STAR :: d :: rest)
      = acc' ++ lit "- " ++ replace_bullets 0 (is_line_terminator d) rest
      /\ line_start_markers acc'.
Proof.
  intros Hw Hd. induction pre as [|c pre IH]; intros k b acc Hpre H0 Hk.
  - cbn [app length] in *. destruct k as [|k].
    + destruct (H0 eq_refl) as [Hb Hacc]. rewrite (Hb eq_refl) in *.
      exists acc. split; [|apply Hacc; reflexivity].
      rewrite (replace_bullets_indent w d rest Hw Hd). reflexivity.
    + destruct (Hk ltac:(discriminate)) as [Hlen (acc0 & -> & Hacc0)].
      assert (k = length (w ++ [STAR])) as -> by (rewrite length_app; cbn [length]; lia).
      exists acc0. split; [|exact Hacc0].
      replace (w ++ STAR :: d :: rest) with ((w ++ [STAR]) ++ d :: rest)
        by (rewrite <- app_assoc; reflexivity).
      rewrite replace_bullets_skip, <- app_assoc. reflexivity.
  - pose proof (ends_line_tail _ _ Hpre) as Hpre'.
    pose proof (ends_line_single _ _ Hpre) as Hlast.
    cbn [app replace_bullets]. destruct k as [|k].
    + destruct (H0 eq_refl) as [_ Hacc].
      change (c :: pre ++ w ++ STAR :: d :: rest)
        with ((c :: pre) ++ w ++ STAR :: d :: rest).
      destruct (if b then bullet_match ((c :: pre) ++ w ++ STAR :: d :: rest) else None)
        as [[|m]|] eqn:E.
      * destruct b; [|discriminate]. apply bullet_match_ge2 in E. lia.
      * destruct b; [|discriminate].
        pose proof (bullet_match_ge2 _ _ E) as Hge.
        pose proof (bullet_match_bound (c :: pre) w d rest _ Hpre Hw Hd E) as Hb.
        cbn [length] in Hb.
        destruct (IH m (is_line_terminator c) (acc ++ lit "- ") Hpre') as (acc' & Heq & Hacc').
        { intros ->. lia. }
        { intros _. split; [lia|]. exists acc. split; [reflexivity|apply Hacc; reflexivity]. }
        exists acc'. split; [|exact Hacc'].
        rewrite <- Heq, <- app_assoc. reflexivity.
      * destruct (IH 0 (is_line_terminator c) (acc ++ [c]) Hpre') as (acc' & Heq & Hacc').
        { intros _. split; [exact Hlast|].
          intros Hc. apply line_start_markers_terminator, Hc. }
        { intros Hne. congruence. }
        exists acc'. split; [|exact Hacc'].
        rewrite <- Heq, <- app_assoc. reflexivity.
    + destruct (Hk ltac:(discriminate)) as [Hlen (acc0 & -> & Hacc0)].
      cbn [length] in Hlen.
      destruct (IH k (is_line_terminator c) (acc0 ++ lit "- ") Hpre') as (acc' & Heq & Hacc').
      { intros ->. split; [exact Hlast|].
        intros _. apply line_start_markers_dash, Hacc0. }
      { intros _. split; [lia|]. exists acc0. split; [reflexivity|exact Hacc0]. }
      exists acc'. split; [|exact Hacc']. exact Heq.
Qed.

End SanitizeFacts.

(** C3.  The bullet sanitization pass is idempotent; it rewrites the line
    [* Did X] to [- Did X]; it leaves the line [**Bold**] as it is. *)
Theorem sanitize_idempotent :
  (forall s : jsstring, Sanitize.sanitize (Sanitize.sanitize s) = Sanitize.sanitize s)
  /\ Sanitize.sanitize (lit "* Did X") = lit "- Did X"
  /\ Sanitize.sanitize (lit "**Bold**") = lit "**Bold**".
Proof.
  split; [|split; reflexivity].
  intros s. unfold Sanitize.sanitize. apply (proj2 (replace_bullets_idem s)).
Qed.

(** Where the pass puts the marker of a bullet line made of white space
    [w], a star and a white space character [d].  As the first line of the
    text the line becomes [- ] and what follows.  After any text [pre] that
    ends a line, the [- ] stands behind the [- ] of the [n] bare stars
    right above it, whose line breaks the pass consumes ([n] is 0 when
    there is none).  After a line with a visible character [v] other than
    a star in it ([R] the rest of that line, [t] its terminator; [w] may
    hold blank lines), that line stays and the [- ] starts the next
    line. *)
Lemma bullet_line_marker (w : jsstring) (d : ascii) (rest : jsstring) :
  forallb is_space w = true -> is_space d = true ->
  Sanitize.sanitize (w ++ STAR :: d :: rest)
  = lit "- " ++ Sanitize.replace_bullets 0 (is_line_terminator d) rest
  /\ (forall pre : jsstring,
        ends_line pre = true ->
        exists (out0 : jsstring) (n : nat),
          ends_line out0 = true
          /\ Sanitize.sanitize (pre ++ w ++ STAR :: d :: rest)
             = out0 ++ Sanitize.dashes (S n)
               ++ Sanitize.replace_bullets 0 (is_line_terminator d) rest)
  /\ (forall (A : jsstring) (v : ascii) (R : jsstring) (t : ascii),
        is_space v = false -> v <> STAR ->
        forallb (fun c => negb (is_line_terminator c)) R = true ->
        is_line_terminator t = true ->
        Sanitize.sanitize (A ++ v :: R ++ t :: w ++ STAR :: d :: rest)
        = Sanitize.sanitize (A ++ [v]) ++ R ++ t :: lit "- "
          ++ Sanitize.replace_bullets 0 (is_line_terminator d) rest).
Proof.
  intros Hw Hd. unfold Sanitize.sanitize. split; [|split].
  - apply replace_bullets_indent; assumption.
  - intros pre Hpre.
    destruct (scan_to_bullet w d rest Hw Hd pre 0 true [] Hpre)
      as (acc' & Heq & out0 & n & -> & Hout0).
    + intros _. split; [reflexivity|intros _; apply line_start_markers_nil].
    + intros Hne. congruence.
    + exists out0, n. split; [exact Hout0|].
      cbn [app] in Heq. rewrite Heq, <- dashes_snoc, <- !app_assoc. reflexivity.
  - intros A v R t Hv Hs HR Ht.
    rewrite (replace_bullets_cut A v _ Hv Hs 0 true) by lia.
    f_equal. rewrite (replace_bullets_line_rest R t _ HR Ht). do 2 f_equal.
    apply replace_bullets_indent; assumption.
Qed.

(** An indented bullet line loses its indentation, as the first line and
    below a line of text. *)
Example indented_bullet_line :
  Sanitize.sanitize (lit "    * Go") = lit "- Go"
  /\ Sanitize.sanitize (lit "**Skills**" ++ LF :: lit "    * Go")
     = lit "**Skills**" ++ LF :: lit "- Go".
Proof. split; reflexivity. Qed.

(** C10.  Below a line that holds a star and nothing else, a bullet line
    is not rewritten to a line that begins with [- ]: the white space
    character that the pattern asks for after the star of the first line
    is its line break, the pass consumes it, and the two lines come out
    as one.  The text is a star, a line feed and the line [  * Go]; the
    result is the single line [- - Go], in which the [- Go] of the second
    line does not stand at the start of a line.  Below a line of text the
    same bullet line does come out as a line of its own that begins with
    [- ]. *)
Theorem bare_star_joins_next_bullet :
  Sanitize.sanitize Sanitize.bare_star_above_bullet = lit "- - Go"
  /\ split LF Sanitize.bare_star_above_bullet = [lit "*"; lit "  * Go"]
  /\ split LF (Sanitize.sanitize Sanitize.bare_star_above_bullet) = [lit "- - Go"]
  /\ ~ (exists out0 : jsstring,
          ends_line out0 = true
          /\ Sanitize.sanitize Sanitize.bare_star_above_bullet = out0 ++ lit "- Go")
  /\ split LF (Sanitize.sanitize (lit "Skills" ++ LF :: lit "  * Go"))
     = [lit "Skills"; lit "- Go"].
Proof.
  split; [reflexivity|]. split; [reflexivity|]. split; [reflexivity|].
  split; [|reflexivity].
  intros (out0 & Hends & Heq).
  change (Sanitize.sanitize Sanitize.bare_star_above_bullet)
    with (lit "- " ++ lit "- Go") in Heq.
  apply app_inj_2 in Heq; [|reflexivity].
  destruct Heq as [<- _]. discriminate Hends.
Qed.

(** ** The structural parse *)

Section HeadingSplitFacts.

Lemma split_headings_from_nonempty b s : split_headings_from b s <> [].
Proof.
  destruct s as [|c s]; cbn [split_headings_from]; [discriminate|].
  destruct (b && heading_ahead (c :: s)); [discriminate|].
  destruct (split_headings_from (is_line_terminator c) s); discriminate.
Qed.

(** A text with no heading at a line start stays in one piece. *)
Lemma heading_free_split b s :
  heading_free b s = true -> split_headings_from b s = [s].
Proof.
  revert b. induction s as [|c s IH]; intros b H; [reflexivity|].
  cbn [heading_free split_headings_from] in *.
  apply andb_prop in H as [Hcut Hs].
  apply negb_true_iff in Hcut. rewrite Hcut, (IH _ Hs). reflexivity.
Qed.

Lemma split_headings_from_cut s :
  heading_ahead s = true ->
  split_headings_from true s = [] :: split_headings_from false s.
Proof.
  destruct s as [|c s]; [discriminate|]. intros H.
  cbn [split_headings_from]. rewrite H. reflexivity.
Qed.

(** The lookahead of a position inside a text that ends a line does not
    reach past that text. *)
Lemma heading_ahead_app_ends_line pre s :
  pre <> [] -> ends_line pre = true ->
  heading_ahead (pre ++ s) = heading_ahead pre.
Proof.
  intros Hne He.
  destruct pre as [|a [|b [|c pre]]]; [congruence| | |reflexivity].
  - cbn [ends_line] in He. cbn [app heading_ahead].
    assert (Ascii.eqb a HASH = false) as Ha.
    { apply Ascii.eqb_neq. intros ->. discriminate. }
    destruct s as [|x [|y s]]; [reflexivity|reflexivity|]. rewrite Ha. reflexivity.
  - cbn [ends_line] in He. cbn [app heading_ahead].
    assert (Ascii.eqb b HASH = false) as Hb.
    { apply Ascii.eqb_neq. intros ->. discriminate. }
    destruct s as [|x s]; [reflexivity|]. rewrite Hb, andb_false_r. reflexivity.
Qed.

(** Where a text that ends a line is followed by a heading, the pieces of
    the whole are the pieces of the text followed by the pieces of the
    rest. *)
Lemma split_headings_from_app b pre s :
  pre <> [] -> ends_line pre = true -> heading_ahead s = true ->
  split_headings_from b (pre ++ s)
  = split_headings_from b pre ++ split_headings_from false s.
Proof.
  intros Hne He Hs. revert b. induction pre as [|a pre IH]; intros b; [congruence|].
  change ((a :: pre) ++ s) with (a :: pre ++ s).
  cbn [split_headings_from].
  change (a :: pre ++ s) with ((a :: pre) ++ s).
  rewrite (heading_ahead_app_ends_line (a :: pre) s Hne He).
  destruct pre as [|a' pre'].
  - cbn [ends_line] in He. cbn [app]. rewrite He.
    rewrite (split_headings_from_cut s Hs). cbn [split_headings_from].
    destruct (b && heading_ahead [a]); reflexivity.
  - rewrite ends_line_cons in He by discriminate.
    rewrite (IH ltac:(discriminate) He).
    pose proof (split_headings_from_nonempty (is_line_terminator a) (a' :: pre')) as Hn.
    destruct (split_headings_from (is_line_terminator a) (a' :: pre')) as [|p ps];
      [congruence|].
    destruct (b && heading_ahead (a :: a' :: pre')); reflexivity.
Qed.

End HeadingSplitFacts.

Section ParseFacts.

Import Parse.

Lemma splits_of_after_header h0 h1 rest :
  LF ∉ h0 -> LF ∉ h1 ->
  splits_of (h0 ++ LF :: h1 ++ LF :: rest) = split_headings rest.
Proof.
  intros H0 H1. unfold splits_of.
  rewrite (split_app_sep LF h0 _ H0), (split_app_sep LF h1 _ H1).
  change (slice_from 2 (h0 :: h1 :: split LF rest)) with (split LF rest).
  rewrite join_split. reflexivity.
Qed.

Lemma header_two_lines h0 h1 rest :
  LF ∉ h0 -> LF ∉ h1 ->
  header (parseResumeStructure (h0 ++ LF :: h1 ++ LF :: rest)) = [h0; h1].
Proof.
  intros H0 H1. unfold parseResumeStructure. cbn [header].
  rewrite (split_app_sep LF h0 _ H0), (split_app_sep LF h1 _ H1).
  pose proof (split_nonempty LF rest). unfold slice_to.
  destruct (split LF rest); [congruence|reflexivity].
Qed.

(** A chunk made of a heading line [h ++ [c]] that starts and ends with a
    visible character, a line feed and a body [B]: its content is the body
    without its trailing white space. *)
Lemma section_of_part_heading a h c B :
  is_space a = false -> is_space c = false -> LF ∉ a :: h ++ [c] ->
  section_of_part (a :: h ++ c :: LF :: B)
  = Some (toLowerCase (trim (substring_from 3 (a :: h ++ [c]))), trimEnd B).
Proof.
  intros Ha Hc Hlf. unfold section_of_part, trim.
  rewrite (trimStart_visible a _ Ha).
  change (a :: h ++ c :: LF :: B) with ((a :: h) ++ c :: LF :: B).
  rewrite (trimEnd_app_visible (a :: h) c _ Hc).
  rewrite (trimEnd_cons_space LF B eq_refl).
  destruct (trimEnd B) as [|t ts] eqn:Et.
  - change ((a :: h) ++ [c]) with (a :: h ++ [c]).
    rewrite (split_no_sep LF _ Hlf). reflexivity.
  - replace ((a :: h) ++ c :: LF :: t :: ts) with ((a :: h ++ [c]) ++ LF :: t :: ts)
      by (cbn [app]; rewrite <- app_assoc; reflexivity).
    cbn [app].
    change (a :: (h ++ [c]) ++ LF :: t :: ts) with ((a :: h ++ [c]) ++ LF :: t :: ts).
    rewrite (split_app_sep LF _ _ Hlf).
    change (slice_from 1 (?x :: ?l)) with l. cbn [nth].
    rewrite join_split. reflexivity.
Qed.

Lemma obj_set_lookup k v o : k <> proto_key -> obj_set k v o !! k = Some v.
Proof. intros H. unfold obj_set. rewrite decide_False by exact H. apply lookup_insert_eq. Qed.

Lemma obj_set_lookup_ne k k' v o : k <> k' -> obj_set k v o !! k' = o !! k'.
Proof.
  intros H. unfold obj_set. destruct (decide (k = proto_key)); [reflexivity|].
  apply lookup_insert_ne, H.
Qed.

(** The object never gets an own property named [__proto__]. *)
Lemma fold_add_part_proto parts o :
  o !! proto_key = None -> fold_left add_part parts o !! proto_key = None.
Proof.
  revert o. induction parts as [|p parts IH]; intros o Ho; [exact Ho|].
  cbn [fold_left]. apply IH. unfold add_part.
  destruct (section_of_part p) as [[t c]|]; [|exact Ho].
  unfold obj_set. destruct (decide (t = proto_key)) as [->|Hne]; [exact Ho|].
  rewrite lookup_insert_ne by exact Hne. exact Ho.
Qed.

(** Chunks with other keys leave the entry of [k] alone. *)
Lemma fold_add_part_other parts k o :
  Forall (fun q => fst <$> section_of_part q <> Some k) parts ->
  fold_left add_part parts o !! k = o !! k.
Proof.
  intros H. revert o. induction H as [|q parts Hq _ IH]; intros o; [reflexivity|].
  cbn [fold_left]. rewrite IH. unfold add_part.
  destruct (section_of_part q) as [[t c]|]; [|reflexivity].
  apply obj_set_lookup_ne. intros ->. apply Hq. reflexivity.
Qed.

(** Sequential overwrite: the last chunk with key [k] decides. *)
Lemma fold_add_part_last before p after k v o :
  section_of_part p = Some (k, v) -> k <> proto_key ->
  Forall (fun q => fst <$> section_of_part q <> Some k) after ->
  fold_left add_part (before ++ p :: after) o !! k = Some v.
Proof.
  intros Hp Hk Hafter. rewrite fold_left_app. cbn [fold_left].
  rewrite (fold_add_part_other after k _ Hafter).
  unfold add_part. rewrite Hp. apply obj_set_lookup, Hk.
Qed.

End ParseFacts.

Section ParseShape.

Import Parse.

Lemma ends_line_app_line x B :
  ends_line B = true -> ends_line (x ++ LF :: B) = true.
Proof.
  intros HB. induction x as [|a x IH]; cbn [app].
  - destruct B; [reflexivity|exact HB].
  - rewrite ends_line_cons; [exact IH|destruct x; discriminate].
Qed.

(** The chunks of a text in which the section [## Foo] with a heading-free
    body [B] stands between a text [pre] that ends a line and a text
    [post] that is empty or starts with a heading. *)
Lemma split_headings_around pre B post :
  ends_line pre = true ->
  heading_free true B = true ->
  post = [] \/ (heading_ahead post = true /\ ends_line B = true) ->
  exists before after,
    split_headings (pre ++ lit "## Foo" ++ LF :: B ++ post)
    = before ++ (lit "## Foo" ++ LF :: B) :: after
    /\ (after = [] \/ after = split_headings post).
Proof.
  intros Hpre HB Hpost.
  set (sec := lit "## Foo" ++ LF :: B).
  assert (Hsec : split_headings_from false sec = [sec]).
  { apply heading_free_split. exact HB. }
  assert (Hmid : exists after,
             split_headings_from false (sec ++ post) = sec :: after
             /\ (after = [] \/ after = split_headings post)).
  { destruct Hpost as [->|[Hp HeB]].
    - exists []. rewrite app_nil_r. split; [exact Hsec|left; reflexivity].
    - exists (split_headings post). split; [|right; reflexivity].
      rewrite split_headings_from_app; [rewrite Hsec; reflexivity|discriminate| |exact Hp].
      apply (ends_line_app_line (lit "## Foo") B HeB). }
  destruct Hmid as (after & Hmid & Hafter).
  replace (lit "## Foo" ++ LF :: B ++ post) with (sec ++ post)
    by (unfold sec; rewrite <- app_assoc; reflexivity).
  destruct pre as [|a pre].
  - exists [], after. split; [exact Hmid|exact Hafter].
  - exists (split_headings (a :: pre)), after. split; [|exact Hafter].
    unfold split_headings.
    rewrite split_headings_from_app; [rewrite Hmid; reflexivity|discriminate|exact Hpre|].
    reflexivity.
Qed.

End ParseShape.

(** C1, as the code has it.  In a document whose two header lines are
    followed by a text that ends a line, the heading line [## Foo], a body
    [B] with no heading at a line start, and then nothing or further
    sections none of which has the key [foo], the parse stores under [foo]
    the body with its trailing white space removed; white space at the
    start of the body stays. *)
Theorem section_body_trailing_trim (h0 h1 pre B post : jsstring) :
  LF ∉ h0 -> LF ∉ h1 ->
  ends_line pre = true ->
  heading_free true B = true ->
  post = [] \/ (heading_ahead post = true /\ ends_line B = true) ->
  Forall (fun q => fst <$> Parse.section_of_part q <> Some (lit "foo"))
         (split_headings post) ->
  Parse.sections
    (Parse.parseResumeStructure
       (h0 ++ LF :: h1 ++ LF :: pre ++ lit "## Foo" ++ LF :: B ++ post))
    !! lit "foo"
  = Some (trimEnd B).
Proof.
  intros H0 H1 Hpre HB Hpost Hlater.
  unfold Parse.parseResumeStructure. cbn [Parse.sections].
  rewrite (splits_of_after_header h0 h1 _ H0 H1).
  destruct (split_headings_around pre B post Hpre HB Hpost)
    as (before & after & -> & Hafter).
  apply fold_add_part_last.
  - exact (section_of_part_heading HASH (lit "# Fo") "o"%char B
             eq_refl eq_refl ltac:(compute_done)).
  - discriminate.
  - destruct Hafter as [->| ->]; [constructor|exact Hlater].
Qed.

Lemma section_body_trailing_trim_witness :
  Parse.sections
    (Parse.parseResumeStructure
       (lit "Jane Doe" ++ LF :: lit "jane@example.com" ++ LF
        :: (lit "## Summary" ++ LF :: lit "Engineer." ++ [LF])
        ++ lit "## Foo" ++ LF :: (LF :: lit "  bar" ++ [SP; LF])
        ++ (lit "## Skills" ++ LF :: lit "- Go")))
    !! lit "foo"
  = Some (LF :: lit "  bar").
Proof.
  apply (section_body_trailing_trim
           (lit "Jane Doe") (lit "jane@example.com")
           (lit "## Summary" ++ LF :: lit "Engineer." ++ [LF])
           (LF :: lit "  bar" ++ [SP; LF])
           (lit "## Skills" ++ LF :: lit "- Go")).
  - compute_done.
  - compute_done.
  - reflexivity.
  - reflexivity.
  - right. split; reflexivity.
  - compute_done.
Defined.

(** C1, as the specification states it, fails: the body of [## Foo] below
    starts with an empty line, and the parse keeps it. *)
Lemma section_body_not_fully_trimmed :
  Parse.sections
    (Parse.parseResumeStructure
       (lit "Jane Doe" ++ LF :: lit "jane@example.com" ++ LF
        :: lit "## Foo" ++ LF :: (LF :: lit "bar")))
    !! lit "foo"
  <> Some (trim (LF :: lit "bar")).
Proof. vm_compute. discriminate. Qed.

(** The header of the parse is the first two lines as [slice(0, 2)] gives
    them: an input without a line feed has a header of length one. *)
Lemma header_lookup (markdown : jsstring) (i : nat) :
  i < 2 ->
  Parse.header (Parse.parseResumeStructure markdown) !! i = split LF markdown !! i.
Proof.
  intros Hi. unfold Parse.parseResumeStructure, slice_to. cbn [Parse.header].
  apply lookup_take_lt. exact Hi.
Qed.

Lemma header_single_line (markdown : jsstring) :
  LF ∉ markdown ->
  Parse.header (Parse.parseResumeStructure markdown) = [markdown].
Proof.
  intros H. unfold Parse.parseResumeStructure, slice_to. cbn [Parse.header].
  rewrite (split_no_sep LF markdown H). reflexivity.
Qed.

(** The preview's parse puts the empty string where a header line is
    missing. *)
Lemma preview_header_total (markdown : jsstring) :
  Preview.name (Preview.headerInfo (Preview.parseMarkdownForPreview markdown))
  = default [] (split LF markdown !! 0)
  /\ Preview.contact (Preview.headerInfo (Preview.parseMarkdownForPreview markdown))
     = default [] (split LF markdown !! 1).
Proof. destruct markdown; split; reflexivity. Qed.

(** C2.  On the one-line input [Jane Doe] the parse of the generator has
    a header of one element: [header[1]] is [undefined], where the
    specification, and the preview's parse of the same input, have the
    empty string. *)
Theorem single_line_header_contact_undefined :
  Parse.header (Parse.parseResumeStructure (lit "Jane Doe")) = [lit "Jane Doe"]
  /\ Parse.header (Parse.parseResumeStructure (lit "Jane Doe")) !! 1 = None
  /\ Preview.contact
       (Preview.headerInfo (Preview.parseMarkdownForPreview (lit "Jane Doe")))
     = [].
Proof. repeat split; reflexivity. Qed.

(** C6.  The parse of the generator never stores a section under the key
    [__proto__], so for that heading the last occurrence does not win: the
    document below has two [## __proto__] blocks, its split yields two
    chunks with that key and the bodies [first] and [second], and the
    object has no entry for the key and is empty.  The preview's parse of
    the same document keeps both sections, and with the heading
    [## Skills] in place of [## __proto__] the generator's parse has an
    entry, the body of the second block. *)
Theorem duplicate_proto_heading_not_stored :
  (forall markdown : jsstring,
     Parse.sections (Parse.parseResumeStructure markdown) !! Parse.proto_key = None)
  /\ Parse.splits_of Parse.two_proto_blocks
     = [lit "## __proto__" ++ LF :: lit "first" ++ [LF];
        lit "## __proto__" ++ LF :: lit "second"]
  /\ map Parse.section_of_part (Parse.splits_of Parse.two_proto_blocks)
     = [Some (lit "__proto__", lit "first"); Some (lit "__proto__", lit "second")]
  /\ Parse.sections (Parse.parseResumeStructure Parse.two_proto_blocks)
       !! lit "__proto__" = None
  /\ Parse.sections (Parse.parseResumeStructure Parse.two_proto_blocks) = ∅
  /\ Preview.sections (Preview.parseMarkdownForPreview Parse.two_proto_blocks)
     = [(lit "__proto__", lit "first"); (lit "__proto__", lit "second")]
  /\ Parse.sections
       (Parse.parseResumeStructure
          (lit "Jane Doe" ++ LF :: lit "jane@example.com" ++ LF
           :: lit "## Skills" ++ LF :: lit "first" ++ LF
           :: lit "## Skills" ++ LF :: lit "second"))
       !! lit "skills"
     = Some (lit "second").
Proof.
  split.
  { intros markdown. unfold Parse.parseResumeStructure. cbn [Parse.sections].
    apply fold_add_part_proto, lookup_empty. }
  repeat split; vm_compute; reflexivity.
Qed.
(** ** Doubles *)

(** Facts on the specification of binary floating-point numbers that the
    primitive doubles obey, for any precision and exponent range. *)
Section SpecFloatFacts.

Variables prec emax : Z.
Hypothesis Hprec : (0 < prec)%Z.

Local Open Scope Z_scope.

Local Abbreviation emin := (SpecFloat.emin prec emax).
Local Abbreviation fexp := (SpecFloat.fexp prec emax).

Lemma digits2_bounds m :
  2 ^ (Zpos (digits2_pos m) - 1) <= Zpos m < 2 ^ Zpos (digits2_pos m).
Proof.
  induction m as [m IH|m IH|]; cbn [digits2_pos].
  - rewrite Pos2Z.inj_succ. change (Zpos m~1) with (2 * Zpos m + 1).
    replace (Z.succ (Zpos (digits2_pos m)) - 1) with (Z.succ (Zpos (digits2_pos m) - 1)) by lia.
    rewrite !Z.pow_succ_r by lia.
    generalize dependent (2 ^ (Zpos (digits2_pos m) - 1)).
    generalize (2 ^ Zpos (digits2_pos m)). intros; lia.
  - rewrite Pos2Z.inj_succ. change (Zpos m~0) with (2 * Zpos m).
    replace (Z.succ (Zpos (digits2_pos m)) - 1) with (Z.succ (Zpos (digits2_pos m) - 1)) by lia.
    rewrite !Z.pow_succ_r by lia.
    generalize dependent (2 ^ (Zpos (digits2_pos m) - 1)).
    generalize (2 ^ Zpos (digits2_pos m)). intros; lia.
  - cbn. lia.
Qed.

Lemma shr_1_m mrs : 0 <= shr_m mrs -> shr_m (shr_1 mrs) = shr_m mrs / 2.
Proof.
  destruct mrs as [m r s]. cbn [shr_m shr_1].
  destruct m as [|[p|p|]|p]; cbn [shr_m]; intros H; try lia.
  - reflexivity.
  - change (Zpos p~1) with (2 * Zpos p + 1). apply Z.div_unique with 1; lia.
  - change (Zpos p~0) with (2 * Zpos p). apply Z.div_unique with 0; lia.
  - reflexivity.
Qed.

Lemma iter_shr_m p :
  forall mrs, 0 <= shr_m mrs ->
    shr_m (SpecFloat.iter_pos shr_1 p mrs) = shr_m mrs / 2 ^ Zpos p.
Proof.
  induction p as [p IH|p IH|]; intros mrs H; cbn [SpecFloat.iter_pos].
  - assert (0 <= shr_m (shr_1 mrs)) as H1
      by (rewrite shr_1_m by exact H; apply Z.div_pos; lia).
    assert (0 <= shr_m (SpecFloat.iter_pos shr_1 p (shr_1 mrs))) as H2
      by (rewrite IH by exact H1; apply Z.div_pos; [exact H1|apply Z.pow_pos_nonneg; lia]).
    rewrite IH by exact H2. rewrite IH by exact H1. rewrite shr_1_m by exact H.
    rewrite !Z.div_div by (try apply Z.pow_pos_nonneg; lia).
    f_equal. change (Zpos p~1) with (2 * Zpos p + 1).
    replace (2 * Zpos p + 1) with (1 + Zpos p + Zpos p) by lia.
    rewrite !Z.pow_add_r by lia. lia.
  - assert (0 <= shr_m (SpecFloat.iter_pos shr_1 p mrs)) as H2
      by (rewrite IH by exact H; apply Z.div_pos; [exact H|apply Z.pow_pos_nonneg; lia]).
    rewrite IH by exact H2. rewrite IH by exact H.
    rewrite !Z.div_div by (try apply Z.pow_pos_nonneg; lia).
    f_equal. change (Zpos p~0) with (2 * Zpos p).
    replace (2 * Zpos p) with (Zpos p + Zpos p) by lia.
    rewrite !Z.pow_add_r by lia. lia.
  - rewrite shr_1_m by exact H. reflexivity.
Qed.

Lemma shr_record_of_loc_m m l : shr_m (shr_record_of_loc m l) = m.
Proof. destruct l as [|[]]; reflexivity. Qed.

(** A positive mantissa at an exponent not below [emin] stays positive
    when it is shifted to its canonical exponent. *)
Lemma shr_fexp_pos m e l :
  0 < m -> emin <= e ->
  0 < shr_m (fst (shr_fexp prec emax m e l))
  /\ emin <= snd (shr_fexp prec emax m e l).
Proof.
  intros Hm He. unfold shr_fexp, shr.
  destruct m as [|p|p]; try lia. cbn [Zdigits2].
  pose proof (digits2_bounds p) as Hd.
  set (d := Zpos (digits2_pos p)) in *.
  assert (0 < d) as Hd0 by (unfold d; lia).
  unfold SpecFloat.fexp.
  destruct (Z.max (d + e - prec) emin - e) as [|q|q] eqn:En; cbn [fst snd].
  - rewrite shr_record_of_loc_m. lia.
  - rewrite iter_shr_m by (rewrite shr_record_of_loc_m; lia).
    rewrite shr_record_of_loc_m. split; [|lia].
    apply Z.div_str_pos. split; [apply Z.pow_pos_nonneg; lia|].
    apply Z.le_trans with (2 ^ (d - 1)); [|lia].
    apply Z.pow_le_mono_r; lia.
  - rewrite shr_record_of_loc_m. lia.
Qed.

Lemma round_nearest_even_ge m l : m <= round_nearest_even m l.
Proof. destruct l as [|[]]; cbn; try lia. destruct (Z.even m); lia. Qed.

Lemma binary_round_aux_sign sx m e l :
  0 < m -> emin <= e ->
  (exists m' e', binary_round_aux prec emax sx m e l = S754_finite sx m' e')
  \/ binary_round_aux prec emax sx m e l = S754_infinity sx.
Proof.
  intros Hm He. unfold binary_round_aux.
  pose proof (shr_fexp_pos m e l Hm He) as [H1 H2].
  destruct (shr_fexp prec emax m e l) as [mrs' e']. cbn [fst snd] in H1, H2.
  pose proof (round_nearest_even_ge (shr_m mrs') (loc_of_shr_record mrs')) as Hr.
  pose proof (shr_fexp_pos (round_nearest_even (shr_m mrs') (loc_of_shr_record mrs'))
                e' loc_Exact ltac:(lia) H2) as [H3 _].
  destruct (shr_fexp prec emax _ e' loc_Exact) as [mrs'' e'']. cbn [fst] in H3.
  destruct (shr_m mrs'') as [|q|q]; try lia.
  destruct (e'' <=? emax - prec); [left; eauto|right; reflexivity].
Qed.

Lemma shl_align_snd mx ex ex' : emin <= ex -> emin <= ex' ->
  emin <= snd (shl_align mx ex ex').
Proof. intros. unfold shl_align. destruct (ex' - ex); cbn [snd]; lia. Qed.

Lemma fexp_ge k : emin <= fexp k.
Proof. unfold SpecFloat.fexp. lia. Qed.

Lemma binary_round_sign sx mx ex :
  emin <= ex ->
  (exists m' e', binary_round prec emax sx mx ex = S754_finite sx m' e')
  \/ binary_round prec emax sx mx ex = S754_infinity sx.
Proof.
  intros He. unfold binary_round.
  pose proof (shl_align_snd mx ex (fexp (Zpos (digits2_pos mx) + ex)) He (fexp_ge _)) as H.
  destruct (shl_align mx ex _) as [mz ez]. cbn [snd] in H.
  apply binary_round_aux_sign; lia.
Qed.

(** The sign of a float: [Lt] below zero, [Gt] above, [Eq] for zeros. *)
Definition SFsign (x : spec_float) : option comparison :=
  match x with
  | S754_nan => None
  | S754_zero _ => Some Eq
  | S754_infinity s | S754_finite s _ _ => Some (if s then Lt else Gt)
  end.

Lemma binary_normalize_sign m e :
  emin <= e -> SFsign (binary_normalize prec emax m e false) = Some (m ?= 0).
Proof.
  intros He. destruct m as [|p|p]; cbn [binary_normalize]; [reflexivity| |].
  - destruct (binary_round_sign false p e He) as [(m' & e' & ->)| ->]; reflexivity.
  - destruct (binary_round_sign true p e He) as [(m' & e' & ->)| ->]; reflexivity.
Qed.

Lemma iter_xO m d : Zpos (Pos.iter xO m d) = Zpos m * 2 ^ Zpos d.
Proof.
  induction d as [|d IH] using Pos.peano_ind.
  - cbn. lia.
  - rewrite Pos.iter_succ. change (Zpos (Pos.iter xO m d)~0) with (2 * Zpos (Pos.iter xO m d)).
    rewrite IH, Pos2Z.inj_succ, Z.pow_succ_r by lia. lia.
Qed.

Lemma shl_align_fst mx ex ez : ez <= ex ->
  Zpos (fst (shl_align mx ex ez)) = Zpos mx * 2 ^ (ex - ez).
Proof.
  intros H. unfold shl_align. destruct (ez - ex) as [|d|d] eqn:E; cbn [fst].
  - replace (ex - ez) with 0 by lia. lia.
  - lia.
  - rewrite iter_xO. f_equal. f_equal. lia.
Qed.

(** The value of a finite float in units of [2 ^ emin]. *)
Definition SFunits (x : spec_float) : Z :=
  match x with
  | S754_finite s m e => cond_Zopp s (Zpos m) * 2 ^ (e - emin)
  | _ => 0
  end.

Definition SFfinite (x : spec_float) : bool :=
  match x with
  | S754_zero _ | S754_finite _ _ _ => true
  | _ => false
  end.

Lemma valid_emin s m e :
  SpecFloat.valid_binary prec emax (S754_finite s m e) = true -> emin <= e.
Proof.
  cbn [SpecFloat.valid_binary]. unfold bounded, canonical_mantissa.
  intros H. apply andb_prop in H as [H _]. apply Z.eqb_eq in H.
  rewrite <- H. apply fexp_ge.
Qed.

Lemma cond_Zopp_sign s m : (cond_Zopp s (Zpos m) ?= 0) = if s then Lt else Gt.
Proof. destruct s; reflexivity. Qed.

Lemma SFunits_sign x : SFfinite x = true ->
  SpecFloat.valid_binary prec emax x = true -> SFsign x = Some (SFunits x ?= 0).
Proof.
  destruct x as [s|s| |s m e]; try discriminate; intros _ Hv; [reflexivity|].
  cbn [SFsign SFunits]. f_equal.
  pose proof (valid_emin s m e Hv).
  assert (0 < 2 ^ (e - emin)) by (apply Z.pow_pos_nonneg; lia).
  destruct s; cbn [cond_Zopp]; symmetry; [apply Z.compare_lt_iff|apply Z.compare_gt_iff]; nia.
Qed.

(** The sign of a difference of finite floats is that of the difference of
    their values: rounding does not reach zero from a value that is not,
    nor cross it. *)
Lemma SFsub_sign x y :
  SFfinite x = true -> SFfinite y = true ->
  SpecFloat.valid_binary prec emax x = true -> SpecFloat.valid_binary prec emax y = true ->
  SFsign (SFsub prec emax x y) = Some (SFunits x ?= SFunits y).
Proof.
  intros Fx Fy Vx Vy.
  destruct x as [sx|sx| |sx mx ex]; try discriminate;
  destruct y as [sy|sy| |sy my ey]; try discriminate.
  - destruct sx, sy; reflexivity.
  - cbn [SFsub SFsign SFunits]. f_equal.
    pose proof (valid_emin _ _ _ Vy).
    assert (0 < 2 ^ (ey - emin)) by (apply Z.pow_pos_nonneg; lia).
    destruct sy; cbn [negb cond_Zopp]; symmetry;
      [apply Z.compare_gt_iff|apply Z.compare_lt_iff]; nia.
  - cbn [SFsub]. rewrite (SFunits_sign (S754_finite sx mx ex) eq_refl Vx). reflexivity.
  - cbn [SFsub SFunits].
    pose proof (valid_emin _ _ _ Vx) as Hx. pose proof (valid_emin _ _ _ Vy) as Hy.
    rewrite binary_normalize_sign by lia. f_equal.
    rewrite (shl_align_fst mx ex (Z.min ex ey)) by lia.
    rewrite (shl_align_fst my ey (Z.min ex ey)) by lia.
    set (z := Z.min ex ey).
    assert (0 < 2 ^ (z - emin)) as Hz by (apply Z.pow_pos_nonneg; lia).
    replace (2 ^ (ex - emin)) with (2 ^ (ex - z) * 2 ^ (z - emin))
      by (rewrite <- Z.pow_add_r by lia; f_equal; lia).
    replace (2 ^ (ey - emin)) with (2 ^ (ey - z) * 2 ^ (z - emin))
      by (rewrite <- Z.pow_add_r by lia; f_equal; lia).
    set (A := cond_Zopp sx (Zpos mx * 2 ^ (ex - z))).
    set (B := cond_Zopp sy (Zpos my * 2 ^ (ey - z))).
    replace (cond_Zopp sx (Zpos mx) * (2 ^ (ex - z) * 2 ^ (z - emin)))
      with (A * 2 ^ (z - emin)) by (unfold A; destruct sx; cbn [cond_Zopp]; lia).
    replace (cond_Zopp sy (Zpos my) * (2 ^ (ey - z) * 2 ^ (z - emin)))
      with (B * 2 ^ (z - emin)) by (unfold B; destruct sy; cbn [cond_Zopp]; lia).
    rewrite <- (Zmult_compare_compat_r A B (2 ^ (z - emin))) by lia.
    rewrite <- Z.compare_sub. reflexivity.
Qed.

(** Of two canonical mantissas the one with the smaller exponent has the
    smaller value. *)
Lemma canonical_exponent_lt m1 e1 m2 e2 :
  canonical_mantissa prec emax m1 e1 = true ->
  canonical_mantissa prec emax m2 e2 = true ->
  e1 < e2 ->
  Zpos m1 * 2 ^ (e1 - emin) < Zpos m2 * 2 ^ (e2 - emin).
Proof.
  unfold canonical_mantissa, SpecFloat.fexp. intros H1 H2 He.
  apply Z.eqb_eq in H1, H2.
  pose proof (digits2_bounds m1) as [_ B1]. pose proof (digits2_bounds m2) as [B2 _].
  set (d1 := Zpos (digits2_pos m1)) in *. set (d2 := Zpos (digits2_pos m2)) in *.
  assert (emin <= e1) as Hm by lia.
  assert (d2 = prec) as -> by lia.
  assert (d1 <= prec) as Hd by lia.
  assert (2 ^ d1 <= 2 ^ prec) as Hp by (apply Z.pow_le_mono_r; lia).
  assert (0 < 2 ^ (e1 - emin)) as P1 by (apply Z.pow_pos_nonneg; lia).
  assert (2 ^ (e2 - emin) = 2 ^ (e1 - emin) * 2 ^ (e2 - e1)) as ->
    by (rewrite <- Z.pow_add_r by lia; f_equal; lia).
  assert (2 ^ prec = 2 ^ (prec - 1) * 2) as Hpp
    by (rewrite <- (Z.pow_1_r 2) at 3; rewrite <- Z.pow_add_r by lia; f_equal; lia).
  assert (2 <= 2 ^ (e2 - e1)) as P2.
  { change 2 with (2 ^ 1) at 1. apply Z.pow_le_mono_r; lia. }
  assert (Zpos m1 < Zpos m2 * 2) as Hm12 by lia.
  apply Z.lt_le_trans with (Zpos m2 * 2 * 2 ^ (e1 - emin)).
  - apply Z.mul_lt_mono_pos_r; assumption.
  - rewrite <- Z.mul_assoc, (Z.mul_comm 2).
    apply Z.mul_le_mono_nonneg_l; [lia|].
    apply Z.mul_le_mono_nonneg_l; lia.
Qed.

Lemma SFcompare_units x y :
  SFfinite x = true -> SFfinite y = true ->
  SpecFloat.valid_binary prec emax x = true -> SpecFloat.valid_binary prec emax y = true ->
  SFcompare x y = Some (SFunits x ?= SFunits y).
Proof.
  intros Fx Fy Vx Vy.
  destruct x as [sx|sx| |sx mx ex]; try discriminate;
  destruct y as [sy|sy| |sy my ey]; try discriminate.
  - reflexivity.
  - cbn [SFcompare SFunits]. f_equal.
    pose proof (valid_emin _ _ _ Vy).
    assert (0 < 2 ^ (ey - emin)) by (apply Z.pow_pos_nonneg; lia).
    destruct sy; cbn [cond_Zopp]; symmetry;
      [apply Z.compare_gt_iff|apply Z.compare_lt_iff]; nia.
  - cbn [SFcompare SFunits]. f_equal.
    pose proof (valid_emin _ _ _ Vx).
    assert (0 < 2 ^ (ex - emin)) by (apply Z.pow_pos_nonneg; lia).
    destruct sx; cbn [cond_Zopp]; symmetry;
      [apply Z.compare_lt_iff|apply Z.compare_gt_iff]; nia.
  - pose proof (valid_emin _ _ _ Vx) as Hx. pose proof (valid_emin _ _ _ Vy) as Hy.
    cbn [SpecFloat.valid_binary] in Vx, Vy. unfold bounded in Vx, Vy.
    apply andb_prop in Vx as [Cx _]. apply andb_prop in Vy as [Cy _].
    assert (0 < 2 ^ (ex - emin)) as Px by (apply Z.pow_pos_nonneg; lia).
    assert (0 < 2 ^ (ey - emin)) as Py by (apply Z.pow_pos_nonneg; lia).
    cbn [SFcompare SFunits]. f_equal.
    assert (Hcmp : (Zpos mx * 2 ^ (ex - emin) ?= Zpos my * 2 ^ (ey - emin))
                   = match ex ?= ey with
                     | Lt => Lt
                     | Gt => Gt
                     | Eq => Pos.compare_cont Eq mx my
                     end).
    { destruct (Z.compare_spec ex ey) as [->|Hlt|Hgt].
      - rewrite <- Zmult_compare_compat_r by lia. reflexivity.
      - apply Z.compare_lt_iff. apply canonical_exponent_lt; assumption.
      - apply Z.compare_gt_iff. apply canonical_exponent_lt; assumption. }
    destruct sx, sy; cbn [cond_Zopp].
    + transitivity (CompOpp (Zpos mx * 2 ^ (ex - emin) ?= Zpos my * 2 ^ (ey - emin))).
      * rewrite Hcmp. destruct (ex ?= ey); reflexivity.
      * rewrite !Z.mul_opp_l, Z.compare_opp. symmetry. apply Z.compare_antisym.
    + symmetry. apply Z.compare_lt_iff. nia.
    + symmetry. apply Z.compare_gt_iff. nia.
    + exact (eq_sym Hcmp).
Qed.

End SpecFloatFacts.

(** The doubles. *)
Section DoubleFacts.

Local Open Scope Z_scope.

Lemma SFcompare_zero_r r s : SFcompare r (S754_zero s) = SFsign r.
Proof. destruct r as [?|[]| |[] ? ?]; reflexivity. Qed.

Lemma SFcompare_zero_l r s :
  SFcompare (S754_zero s) r = option_map CompOpp (SFsign r).
Proof. destruct r as [?|[]| |[] ? ?]; reflexivity. Qed.

Lemma SFcompare_refl r : SFsign r <> None -> SFcompare r r = Some Eq.
Proof.
  intros H. destruct r as [?|[]| |[] m e]; try reflexivity;
    try (exfalso; apply H; reflexivity);
    cbn [SFcompare]; rewrite Z.compare_refl, Pos.compare_cont_refl; reflexivity.
Qed.

Lemma SFcompare_antisym x y : SFcompare y x = option_map CompOpp (SFcompare x y).
Proof.
  destruct x as [sx|sx| |sx mx ex], y as [sy|sy| |sy my ey];
    try reflexivity; try (destruct sx; reflexivity); try (destruct sy; reflexivity);
    try (destruct sx, sy; reflexivity).
  unfold SFcompare, option_map. f_equal.
  destruct sx, sy; try reflexivity; rewrite (Z.compare_antisym ex ey);
    destruct (ex ?= ey); cbn [CompOpp]; try reflexivity.
  - rewrite Pos.compare_cont_antisym, CompOpp_involutive. reflexivity.
  - rewrite Pos.compare_cont_antisym. reflexivity.
Qed.


(** The value of a finite number in units of [2 ^ -1074], the smallest
    positive number. *)
Definition units (a : float) : Z := SFunits prec emax (Prim2SF a).

Lemma is_finite_spec a : is_finite a = true -> SFfinite (Prim2SF a) = true.
Proof.
  unfold is_finite, is_nan, is_infinity.
  rewrite !FloatAxioms.eqb_spec, FloatAxioms.abs_spec.
  change (Prim2SF infinity) with (S754_infinity false).
  destruct (Prim2SF a) as [s|[]| |s m e]; try reflexivity; discriminate.
Qed.

Lemma ltb_units a b :
  is_finite a = true -> is_finite b = true ->
  (a <? b)%float = (units a <? units b).
Proof.
  intros Ha Hb. rewrite FloatAxioms.ltb_spec. unfold SFltb, units, Z.ltb.
  rewrite (SFcompare_units prec emax eq_refl _ _ (is_finite_spec a Ha) (is_finite_spec b Hb)
             (Prim2SF_valid a) (Prim2SF_valid b)).
  reflexivity.
Qed.

Lemma leb_units a b :
  is_finite a = true -> is_finite b = true ->
  (a <=? b)%float = (units a <=? units b).
Proof.
  intros Ha Hb. rewrite FloatAxioms.leb_spec. unfold SFleb, units, Z.leb.
  rewrite (SFcompare_units prec emax eq_refl _ _ (is_finite_spec a Ha) (is_finite_spec b Hb)
             (Prim2SF_valid a) (Prim2SF_valid b)).
  destruct (_ ?= _); reflexivity.
Qed.

Lemma eqb_units a b :
  is_finite a = true -> is_finite b = true ->
  (a =? b)%float = (units a =? units b).
Proof.
  intros Ha Hb. rewrite FloatAxioms.eqb_spec. unfold SFeqb, units.
  rewrite (SFcompare_units prec emax eq_refl _ _ (is_finite_spec a Ha) (is_finite_spec b Hb)
             (Prim2SF_valid a) (Prim2SF_valid b)).
  rewrite Z.eqb_compare. reflexivity.
Qed.

Lemma sub_sign a b :
  is_finite a = true -> is_finite b = true ->
  SFsign (Prim2SF (a - b)) = Some (units a ?= units b).
Proof.
  intros Ha Hb. rewrite FloatAxioms.sub_spec. unfold SF64sub, units.
  apply (SFsub_sign prec emax eq_refl); auto using is_finite_spec, Prim2SF_valid.
Qed.

Lemma sub_neg a b :
  is_finite a = true -> is_finite b = true ->
  (a - b <? 0)%float = (units a <? units b).
Proof.
  intros Ha Hb. rewrite FloatAxioms.ltb_spec. change (Prim2SF 0) with (S754_zero false).
  unfold SFltb. rewrite SFcompare_zero_r, (sub_sign a b Ha Hb). reflexivity.
Qed.

Lemma sub_pos a b :
  is_finite a = true -> is_finite b = true ->
  (0 <? a - b)%float = (units b <? units a).
Proof.
  intros Ha Hb. rewrite FloatAxioms.ltb_spec. change (Prim2SF 0) with (S754_zero false).
  unfold SFltb. rewrite SFcompare_zero_l, (sub_sign a b Ha Hb). cbn [option_map].
  unfold Z.ltb. rewrite (Z.compare_antisym (units a) (units b)).
  destruct (units a ?= units b); reflexivity.
Qed.

Lemma sub_not_nan a b :
  is_finite a = true -> is_finite b = true -> is_nan (a - b) = false.
Proof.
  intros Ha Hb. unfold is_nan. rewrite FloatAxioms.eqb_spec. unfold SFeqb.
  rewrite SFcompare_refl; [reflexivity|].
  rewrite (sub_sign a b Ha Hb). discriminate.
Qed.

(** The sort reads the difference of two finite numbers as their
    comparison. *)
Lemma sort_compare_sub a b :
  is_finite a = true -> is_finite b = true ->
  ArraySort.sort_compare (a - b) = (units a ?= units b).
Proof.
  intros Ha Hb. unfold ArraySort.sort_compare.
  rewrite (sub_neg a b Ha Hb), (sub_pos a b Ha Hb). unfold Z.ltb.
  rewrite (Z.compare_antisym (units a) (units b)).
  destruct (units a ?= units b); reflexivity.
Qed.

(** Two finite numbers of one value are not more than 4 apart. *)
Lemma same_units_not_far a b :
  is_finite a = true -> is_finite b = true -> units a = units b ->
  Number.gt (abs (a - b)) 4 = false.
Proof.
  intros Ha Hb Hu. unfold Number.gt.
  rewrite FloatAxioms.ltb_spec, FloatAxioms.abs_spec.
  pose proof (sub_sign a b Ha Hb) as Hs. rewrite Hu, Z.compare_refl in Hs.
  destruct (Prim2SF (a - b)) as [s|[]| |[] m e]; try discriminate.
  reflexivity.
Qed.

End DoubleFacts.
(** ** [Array.prototype.sort] *)

Section InsertionFacts.

Import ArraySort.

Context {A : Type}.

Lemma insert_by_perm (c : A -> A -> comparison) a l :
  Permutation (insert_by c a l) (a :: l).
Proof.
  induction l as [|b l IH]; [reflexivity|]. cbn [insert_by].
  destruct (c a b); try reflexivity.
  rewrite IH. apply perm_swap.
Qed.

Lemma sort_by_perm (c : A -> A -> comparison) l : Permutation (sort_by c l) l.
Proof.
  induction l as [|a l IH]; [reflexivity|].
  cbn [sort_by foldr]. fold (sort_by c l).
  rewrite insert_by_perm. constructor. exact IH.
Qed.

(** The sort only asks the comparator about elements of the array. *)
Lemma insert_by_ext (c1 c2 : A -> A -> comparison) a l :
  (forall b, b ∈ l -> c1 a b = c2 a b) ->
  insert_by c1 a l = insert_by c2 a l.
Proof.
  induction l as [|b l IH]; intros H; [reflexivity|].
  cbn [insert_by]. rewrite (H b) by left.
  rewrite IH; [reflexivity|]. intros d Hd. apply H. right. exact Hd.
Qed.

Lemma sort_by_ext (c1 c2 : A -> A -> comparison) l :
  (forall a b, a ∈ l -> b ∈ l -> c1 a b = c2 a b) ->
  sort_by c1 l = sort_by c2 l.
Proof.
  induction l as [|a l IH]; intros H; [reflexivity|].
  cbn [sort_by foldr]. fold (sort_by c1 l) (sort_by c2 l).
  rewrite IH by (intros; apply H; right; assumption).
  apply insert_by_ext. intros b Hb. apply H; [left|right].
  rewrite <- (sort_by_perm c2 l). exact Hb.
Qed.

(** Sorting what a function picks is picking what is sorted. *)
Lemma insert_by_map {B} (f : B -> A) (c : A -> A -> comparison) b l :
  map f (insert_by (fun u v => c (f u) (f v)) b l) = insert_by c (f b) (map f l).
Proof.
  induction l as [|d l IH]; [reflexivity|]. cbn [insert_by map].
  destruct (c (f b) (f d)); cbn [map]; rewrite ?IH; reflexivity.
Qed.

Lemma sort_by_map {B} (f : B -> A) (c : A -> A -> comparison) l :
  map f (sort_by (fun u v => c (f u) (f v)) l) = sort_by c (map f l).
Proof.
  induction l as [|b l IH]; [reflexivity|].
  cbn [sort_by foldr map]. fold (sort_by (fun u v => c (f u) (f v)) l).
  fold (sort_by c (map f l)). rewrite insert_by_map, IH. reflexivity.
Qed.

(** *** Lists in a strict order *)

Variable R : A -> A -> Prop.

Lemma sorted_lookup l :
  StronglySorted R l ->
  forall p q a b, p < q -> l !! p = Some a -> l !! q = Some b -> R a b.
Proof.
  induction 1 as [|d l _ IH Hd]; intros p q a b Hpq Hp Hq; [discriminate|].
  destruct q as [|q]; [lia|]. cbn in Hq.
  destruct p as [|p].
  - injection Hp as <-. rewrite Forall_forall in Hd. apply Hd.
    eapply list_elem_of_lookup_2, Hq.
  - cbn in Hp. apply (IH p q); [lia|assumption..].
Qed.

Lemma lookup_sorted l :
  (forall p q a b, p < q -> l !! p = Some a -> l !! q = Some b -> R a b) ->
  StronglySorted R l.
Proof.
  induction l as [|d l IH]; intros H; constructor.
  - apply IH. intros p q a b Hpq Hp Hq. apply (H (S p) (S q)); [lia|assumption..].
  - apply Forall_forall. intros b Hb.
    apply list_elem_of_lookup_1 in Hb as [q Hq].
    apply (H 0 (S q)); [lia|reflexivity|exact Hq].
Qed.

(** A list has at most one arrangement in a strict order. *)
Lemma sorted_unique l1 :
  (forall a b, R a b -> R b a -> False) ->
  forall l2, StronglySorted R l1 -> StronglySorted R l2 -> Permutation l1 l2 -> l1 = l2.
Proof.
  intros Hasym. induction l1 as [|a l1 IH]; intros l2 H1 H2 Hp.
  - apply Permutation_nil in Hp. congruence.
  - destruct l2 as [|b l2]; [apply Permutation_sym, Permutation_nil in Hp; discriminate|].
    apply StronglySorted_inv in H1 as [H1 Ha]. apply StronglySorted_inv in H2 as [H2 Hb].
    rewrite Forall_forall in Ha, Hb.
    assert (a = b) as <-.
    { assert (a ∈ b :: l2) as Hin by (rewrite <- Hp; left).
      apply elem_of_cons in Hin as [->|Hin]; [reflexivity|].
      assert (b ∈ a :: l1) as Hin' by (rewrite Hp; left).
      apply elem_of_cons in Hin' as [->|Hin']; [reflexivity|].
      exfalso. apply (Hasym a b); [apply Ha|apply Hb]; assumption. }
    f_equal. apply IH; [assumption..|]. eapply Permutation_cons_inv, Hp.
Qed.

End InsertionFacts.

(** *** The order of the indices of an array *)

Section IndexOrder.

Import ArraySort.

Variable n : nat.
Variable c : nat -> nat -> comparison.

Hypothesis c_refl : forall j, j < n -> c j j = Eq.
Hypothesis c_sym : forall j k, j < n -> k < n -> c j k = Eq -> c k j = Eq.
Hypothesis c_eq : forall i j k, i < n -> j < n -> k < n ->
  c i j = Eq -> c j k = Eq -> c i k = Eq.
Hypothesis c_lt : forall i j k, i < n -> j < n -> k < n ->
  c i j = Lt -> c j k = Lt -> c i k = Lt.
Hypothesis c_gt : forall i j k, i < n -> j < n -> k < n ->
  c i j = Gt -> c j k = Gt -> c i k = Gt.

(** [j] comes before [k]: its element compares below that of [k], or
    equal to it with [j] the smaller index. *)
Definition index_before (j k : nat) : Prop :=
  j < n /\ k < n /\ (c j k = Lt \/ (c j k = Eq /\ j < k)).

Lemma c_lt_gt j k : j < n -> k < n -> c j k = Lt -> c k j = Gt.
Proof.
  intros Hj Hk H. destruct (c k j) eqn:E; [| |reflexivity].
  - rewrite (c_sym k j Hk Hj E) in H. discriminate.
  - pose proof (c_lt j k j Hj Hk Hj H E) as H'. rewrite (c_refl j Hj) in H'. discriminate.
Qed.

Lemma c_gt_lt j k : j < n -> k < n -> c j k = Gt -> c k j = Lt.
Proof.
  intros Hj Hk H. destruct (c k j) eqn:E; [|reflexivity|].
  - rewrite (c_sym k j Hk Hj E) in H. discriminate.
  - pose proof (c_gt j k j Hj Hk Hj H E) as H'. rewrite (c_refl j Hj) in H'. discriminate.
Qed.

Lemma c_lt_eq i j k : i < n -> j < n -> k < n ->
  c i j = Lt -> c j k = Eq -> c i k = Lt.
Proof.
  intros Hi Hj Hk H1 H2. destruct (c i k) eqn:E; [|reflexivity|].
  - pose proof (c_eq i k j Hi Hk Hj E (c_sym j k Hj Hk H2)) as H. congruence.
  - pose proof (c_lt k i j Hk Hi Hj (c_gt_lt i k Hi Hk E) H1) as H.
    pose proof (c_sym j k Hj Hk H2). congruence.
Qed.

Lemma c_eq_lt i j k : i < n -> j < n -> k < n ->
  c i j = Eq -> c j k = Lt -> c i k = Lt.
Proof.
  intros Hi Hj Hk H1 H2. destruct (c i k) eqn:E; [|reflexivity|].
  - pose proof (c_eq j i k Hj Hi Hk (c_sym i j Hi Hj H1) E) as H. congruence.
  - pose proof (c_lt j k i Hj Hk Hi H2 (c_gt_lt i k Hi Hk E)) as H.
    pose proof (c_sym i j Hi Hj H1). congruence.
Qed.

Lemma index_before_asym j k : index_before j k -> index_before k j -> False.
Proof.
  intros (Hj & Hk & [H1|[H1 L1]]) (_ & _ & [H2|[H2 L2]]).
  - pose proof (c_lt_gt j k Hj Hk H1). congruence.
  - pose proof (c_sym k j Hk Hj H2). congruence.
  - pose proof (c_sym j k Hj Hk H1). congruence.
  - lia.
Qed.

Lemma index_before_trans i j k :
  index_before i j -> index_before j k -> index_before i k.
Proof.
  intros (Hi & Hj & H1) (_ & Hk & H2). split; [exact Hi|]. split; [exact Hk|].
  destruct H1 as [H1|[H1 L1]], H2 as [H2|[H2 L2]].
  - left. exact (c_lt i j k Hi Hj Hk H1 H2).
  - left. exact (c_lt_eq i j k Hi Hj Hk H1 H2).
  - left. exact (c_eq_lt i j k Hi Hj Hk H1 H2).
  - right. split; [exact (c_eq i j k Hi Hj Hk H1 H2)|lia].
Qed.

Lemma index_before_total j k :
  j < n -> k < n -> j <> k -> index_before j k \/ index_before k j.
Proof.
  intros Hj Hk Hne. destruct (c j k) eqn:E.
  - destruct (Nat.lt_total j k) as [L|[L|L]]; [|contradiction|].
    + left. split; [exact Hj|]. split; [exact Hk|]. right. split; assumption.
    + right. split; [exact Hk|]. split; [exact Hj|]. right.
      split; [exact (c_sym j k Hj Hk E)|exact L].
  - left. split; [exact Hj|]. split; [exact Hk|]. left. exact E.
  - right. split; [exact Hk|]. split; [exact Hj|]. left. exact (c_gt_lt j k Hj Hk E).
Qed.

(** Insertion puts an index that is smaller than those of the list in
    its place. *)
Lemma insert_index_before j l :
  j < n -> Forall (fun k => j < k < n) l ->
  StronglySorted index_before l ->
  StronglySorted index_before (insert_by c j l).
Proof.
  intros Hj Hl Hs. induction Hs as [|b l Hs IH Hb]; [repeat constructor|].
  apply Forall_cons in Hl as [[Ljb Hbn] Hl]. cbn [insert_by].
  destruct (c j b) eqn:E.
  - constructor; [constructor; assumption|].
    assert (index_before j b) as Hjb
      by (split; [exact Hj|]; split; [exact Hbn|]; right; split; assumption).
    constructor; [exact Hjb|].
    eapply Forall_impl; [exact Hb|]. intros d Hd. exact (index_before_trans j b d Hjb Hd).
  - constructor; [constructor; assumption|].
    assert (index_before j b) as Hjb
      by (split; [exact Hj|]; split; [exact Hbn|]; left; exact E).
    constructor; [exact Hjb|].
    eapply Forall_impl; [exact Hb|]. intros d Hd. exact (index_before_trans j b d Hjb Hd).
  - constructor; [exact (IH Hl)|].
    apply Forall_forall. intros d Hd.
    rewrite insert_by_perm in Hd. apply elem_of_cons in Hd as [->|Hd].
    + split; [exact Hbn|]. split; [exact Hj|]. left. exact (c_gt_lt j b Hj Hbn E).
    + rewrite Forall_forall in Hb. apply Hb, Hd.
Qed.

Lemma sort_index_before l :
  StronglySorted lt l -> Forall (fun k => k < n) l ->
  StronglySorted index_before (sort_by c l).
Proof.
  induction 1 as [|j l Hs IH Hj]; intros Hn; [constructor|].
  apply Forall_cons in Hn as [Hjn Hn].
  cbn [sort_by foldr]. fold (sort_by c l).
  apply insert_index_before; [exact Hjn| |exact (IH Hn)].
  apply Forall_forall. intros k Hk. rewrite sort_by_perm in Hk.
  rewrite Forall_forall in Hj, Hn. split; [apply Hj, Hk|apply Hn, Hk].
Qed.

Lemma seq_sorted i m : StronglySorted lt (seq i m).
Proof.
  revert i. induction m as [|m IH]; intros i; constructor; [apply IH|].
  apply Forall_forall. intros k Hk. apply elem_of_seq in Hk. lia.
Qed.

Lemma order_lookup_lt order p j :
  Permutation order (seq 0 n) -> order !! p = Some j -> j < n.
Proof.
  intros Hp H. apply list_elem_of_lookup_2 in H. rewrite Hp in H.
  apply elem_of_seq in H. lia.
Qed.

(** The order the specification requires is the order of
    [index_before]. *)
Lemma specified_index_before order :
  Permutation order (seq 0 n) ->
  (forall p q j k, order !! p = Some j -> order !! q = Some k ->
     (c j k = Lt -> p < q) /\ (j < k -> c j k = Eq -> p < q)) ->
  StronglySorted index_before order.
Proof.
  intros Hp H. apply lookup_sorted. intros p q j k Hpq Hj Hk.
  pose proof (order_lookup_lt order p j Hp Hj) as Ljn.
  pose proof (order_lookup_lt order q k Hp Hk) as Lkn.
  assert (NoDup order) as Hnd by (rewrite Hp; apply NoDup_seq).
  assert (j <> k) as Hne.
  { intros ->. pose proof (NoDup_lookup order p q k Hnd Hj Hk). lia. }
  destruct (index_before_total j k Ljn Lkn Hne) as [Hb|(_ & _ & [Hb|[Hb L]])];
    [exact Hb|exfalso..].
  - pose proof (proj1 (H q p k j Hk Hj) Hb). lia.
  - pose proof (proj2 (H q p k j Hk Hj) L Hb). lia.
Qed.

Lemma index_before_specified order :
  Permutation order (seq 0 n) ->
  StronglySorted index_before order ->
  forall p q j k, order !! p = Some j -> order !! q = Some k ->
    (c j k = Lt -> p < q) /\ (j < k -> c j k = Eq -> p < q).
Proof.
  intros Hp Hs p q j k Hj Hk.
  pose proof (order_lookup_lt order p j Hp Hj) as Ljn.
  pose proof (order_lookup_lt order q k Hp Hk) as Lkn.
  assert (index_before j k -> p < q) as Hlt.
  { intros Hb. destruct (Nat.lt_total p q) as [L|[->|L]]; [exact L|exfalso..].
    - assert (j = k) as -> by congruence. exact (index_before_asym k k Hb Hb).
    - exact (index_before_asym j k Hb (sorted_lookup index_before order Hs q p k j L Hk Hj)). }
  split; [intros E|intros L E]; apply Hlt; (split; [exact Ljn|]); (split; [exact Lkn|]);
    [left; exact E|right; split; assumption].
Qed.

(** The order the specification requires is that of the stable
    insertion. *)
Lemma specified_order_unique order :
  Permutation order (seq 0 n) ->
  (forall p q j k, order !! p = Some j -> order !! q = Some k ->
     (c j k = Lt -> p < q) /\ (j < k -> c j k = Eq -> p < q)) ->
  order = sort_by c (seq 0 n).
Proof.
  intros Hp H. apply (sorted_unique index_before).
  - exact index_before_asym.
  - exact (specified_index_before order Hp H).
  - apply sort_index_before; [apply seq_sorted|].
    apply Forall_forall. intros k Hk. apply elem_of_seq in Hk. lia.
  - rewrite Hp, sort_by_perm. reflexivity.
Qed.

End IndexOrder.

(** *** The sorted array *)

Section SortedArray.

Import ArraySort.

Context {A : Type}.
Variable comparefn : A -> A -> float.

Lemma map_nth_seq (d : A) (old : list A) :
  map (fun j => nth j old d) (seq 0 (length old)) = old.
Proof.
  apply list_eq. intros i.
  change (map (fun j => nth j old d) (seq 0 (length old)))
    with ((fun j => nth j old d) <$> seq 0 (length old)).
  rewrite list_lookup_fmap.
  destruct (old !! i) as [a|] eqn:E.
  - rewrite (lookup_seq_lt 0 _ i) by (eapply lookup_lt_Some, E). cbn.
    rewrite (nth_lookup_Some old i d a E). reflexivity.
  - rewrite lookup_seq_ge; [reflexivity|]. apply lookup_ge_None_1, E.
Qed.

Lemma Forall2_picks (d : A) (old new : list A) (order : list nat) :
  Forall2 (fun j a => old !! j = Some a) order new ->
  new = map (fun j => nth j old d) order.
Proof.
  induction 1 as [|j a order new Hj _ IH]; [reflexivity|].
  cbn [map]. rewrite (nth_lookup_Some old j d a Hj), <- IH. reflexivity.
Qed.

Lemma picks_Forall2 (d : A) (old : list A) (order : list nat) :
  Forall (fun j => j < length old) order ->
  Forall2 (fun j a => old !! j = Some a) order (map (fun j => nth j old d) order).
Proof.
  induction 1 as [|j order Hj _ IH]; cbn [map]; constructor; [|exact IH].
  destruct (nth_lookup_or_length old j d) as [H|H]; [exact H|lia].
Qed.

Variable old : list A.
Variable d : A.

Local Abbreviation pick := (fun j => nth j old d).
Local Abbreviation index_order :=
  (fun j k => order_of comparefn (nth j old d) (nth k old d)).

Lemma pick_elem j : j < length old -> pick j ∈ old.
Proof.
  intros H. destruct (nth_lookup_or_length old j d) as [E|E]; [|lia].
  eapply list_elem_of_lookup_2, E.
Qed.

Hypothesis Hc : consistent comparefn old.

Lemma specified_order_stable order :
  Permutation order (seq 0 (length old)) ->
  specified_order comparefn old order ->
  order = sort_by index_order (seq 0 (length old)).
Proof.
  intros Hp Hs. destruct Hc as (_ & Hrefl & Hsym & Heq & Hlt & Hgt).
  apply (specified_order_unique (length old) index_order).
  - intros j Hj. apply Hrefl, pick_elem, Hj.
  - intros j k Hj Hk. apply Hsym; apply pick_elem; assumption.
  - intros i j k Hi Hj Hk. apply Heq; apply pick_elem; assumption.
  - intros i j k Hi Hj Hk. apply Hlt; apply pick_elem; assumption.
  - intros i j k Hi Hj Hk. apply Hgt; apply pick_elem; assumption.
  - exact Hp.
  - intros p q j k Hj Hk.
    pose proof (order_lookup_lt _ order p j Hp Hj) as Lj.
    pose proof (order_lookup_lt _ order q k Hp Hk) as Lk.
    destruct (nth_lookup_or_length old j d) as [Ej|]; [|lia].
    destruct (nth_lookup_or_length old k d) as [Ek|]; [|lia].
    exact (Hs p q j k _ _ Hj Hk Ej Ek).
Qed.

Lemma stable_specified_order :
  specified_order comparefn old (sort_by index_order (seq 0 (length old))).
Proof.
  destruct Hc as (_ & Hrefl & Hsym & Heq & Hlt & Hgt).
  intros p q j k a b Hj Hk Ha Hb.
  rewrite <- (nth_lookup_Some old j d a Ha), <- (nth_lookup_Some old k d b Hb).
  apply (index_before_specified (length old) index_order) with
    (order := sort_by index_order (seq 0 (length old))).
  - intros i Hi. apply Hrefl, pick_elem, Hi.
  - intros i i' Hi Hi'. apply Hsym; apply pick_elem; assumption.
  - intros i i' i'' Hi Hi' Hi''. apply Hlt; apply pick_elem; assumption.
  - apply sort_by_perm.
  - apply sort_index_before.
    + intros i Hi. apply Hrefl, pick_elem, Hi.
    + intros i i' Hi Hi'. apply Hsym; apply pick_elem; assumption.
    + intros i i' i'' Hi Hi' Hi''. apply Heq; apply pick_elem; assumption.
    + intros i i' i'' Hi Hi' Hi''. apply Hlt; apply pick_elem; assumption.
    + intros i i' i'' Hi Hi' Hi''. apply Hgt; apply pick_elem; assumption.
    + apply seq_sorted.
    + apply Forall_forall. intros i Hi. apply elem_of_seq in Hi. lia.
  - exact Hj.
  - exact Hk.
Qed.

End SortedArray.

Section EngineFacts.

Import ArraySort.

(** The stable sort picks the elements in the order in which it sorts
    their indices. *)
Lemma stable_sort_picks {A} (comparefn : A -> A -> float) (old : list A) (d : A) :
  stable_sort comparefn old
  = map (fun j => nth j old d)
      (sort_by (fun j k => order_of comparefn (nth j old d) (nth k old d))
         (seq 0 (length old))).
Proof.
  unfold stable_sort.
  rewrite (sort_by_map (fun j => nth j old d) (order_of comparefn)).
  rewrite map_nth_seq. reflexivity.
Qed.

(** Whatever the comparator, the sorted array holds the elements of the
    array. *)
Lemma array_sort_perm (engine : Engine) {A} (comparefn : A -> A -> float)
  (old : list A) :
  Permutation (array_sort engine comparefn old) old.
Proof.
  destruct (array_sort_spec engine A comparefn old) as (order & Hp & Hnew & _).
  destruct old as [|d old'].
  - cbn in Hp. apply Permutation_sym, Permutation_nil in Hp. subst order.
    inversion Hnew. reflexivity.
  - rewrite (Forall2_picks d _ _ _ Hnew), Hp. rewrite map_nth_seq. reflexivity.
Qed.

(** For a consistent comparator every engine returns the stable sort. *)
Lemma array_sort_consistent (engine : Engine) {A} (comparefn : A -> A -> float)
  (old : list A) :
  consistent comparefn old ->
  array_sort engine comparefn old = stable_sort comparefn old.
Proof.
  intros Hc.
  destruct (array_sort_spec engine A comparefn old) as (order & Hp & Hnew & Hs).
  destruct old as [|d old'].
  - cbn in Hp. apply Permutation_sym, Permutation_nil in Hp. subst order.
    inversion Hnew. reflexivity.
  - rewrite (Forall2_picks d _ _ _ Hnew), (stable_sort_picks comparefn _ d).
    f_equal. exact (specified_order_stable comparefn _ d Hc order Hp (Hs Hc)).
Qed.

Lemma stable_sort_spec (A : Type) (comparefn : A -> A -> float) (old : list A) :
  exists order : list nat,
    Permutation order (seq 0 (length old))
    /\ Forall2 (fun j a => old !! j = Some a) order (stable_sort comparefn old)
    /\ (consistent comparefn old -> specified_order comparefn old order).
Proof.
  destruct old as [|d old'].
  - exists []. split; [reflexivity|]. split; [constructor|].
    intros _ p q j k a b Hj. rewrite lookup_nil in Hj. discriminate.
  - set (old := d :: old').
    exists (sort_by (fun j k => order_of comparefn (nth j old d) (nth k old d))
              (seq 0 (length old))).
    split; [apply sort_by_perm|]. split.
    + rewrite (stable_sort_picks comparefn old d). apply picks_Forall2.
      apply Forall_forall. intros j Hj. rewrite sort_by_perm in Hj.
      apply elem_of_seq in Hj. lia.
    + intros Hc. exact (stable_specified_order comparefn old d Hc).
Qed.

End EngineFacts.

(** An engine: the one whose [sort] is the stable insertion, whatever
    the comparator. *)
Definition insertion_engine : ArraySort.Engine :=
  {| ArraySort.array_sort := @ArraySort.stable_sort;
     ArraySort.array_sort_spec := stable_sort_spec |}.
(** ** The glyph line assembler *)

Section ExtractorFacts.

Import Extractor.
Local Open Scope Q_scope.

Lemma Qgtb_true a b : Qgtb a b = true <-> b < a.
Proof.
  unfold Qgtb. rewrite negb_true_iff. split.
  - intros H. apply Qnot_le_lt. intros Hle. apply Qle_bool_iff in Hle. congruence.
  - intros H. destruct (Qle_bool a b) eqn:E; [|reflexivity].
    apply Qle_bool_iff in E. exfalso. exact (Qlt_not_le _ _ H E).
Qed.

Lemma Qgtb_false a b : Qgtb a b = false <-> a <= b.
Proof.
  unfold Qgtb. rewrite negb_false_iff. apply Qle_bool_iff.
Qed.


End ExtractorFacts.




(** The threshold is that of the doubles the code computes with.  The
    run [abc] of width 10 starts 0.8333333333333334 after the end of the
    run before it: more than a quarter of 10/3, yet equal to the quarter
    of the double nearest to 10/3, and no space is inserted. *)
Example rounded_quarter_gets_no_space :
  Extractor.assemble_lines
    [ {| Extractor.str := lit "A"; Extractor.x := 0; Extractor.y := 700;
         Extractor.width := 0.125; Extractor.height := 12 |};
      {| Extractor.str := lit "abc"; Extractor.x := 0.9583333333333334;
         Extractor.y := 700; Extractor.width := 10; Extractor.height := 12 |} ]
  = [lit "Aabc"]
  /\ (0.9583333333333334 - (0 + 0.125) =? 10 / 3 * 0.25)%float = true.
Proof. split; vm_compute; reflexivity. Qed.

(** ** Sorting by a key *)

Section KeySort.

Import ArraySort.

Context {A : Type}.
Variable key : A -> Z.

Local Open Scope Z_scope.

Lemma insert_by_key_cons a b l :
  insert_by (by_key key) a (b :: l)
  = if key b <? key a then b :: insert_by (by_key key) a l else a :: b :: l.
Proof.
  cbn [insert_by]. unfold by_key, Z.ltb. rewrite (Z.compare_antisym (key a) (key b)).
  destruct (key a ?= key b); reflexivity.
Qed.

Lemma insert_by_key_hdrel a b l :
  key b <= key a -> HdRel (fun u v => key u <= key v) b l ->
  HdRel (fun u v => key u <= key v) b (insert_by (by_key key) a l).
Proof.
  intros Hba Hl. destruct l as [|c l]; [constructor; exact Hba|].
  rewrite insert_by_key_cons. inversion Hl; subst.
  destruct (key c <? key a); constructor; assumption.
Qed.

Lemma insert_by_key_sorted a l :
  Sorted (fun u v => key u <= key v) l ->
  Sorted (fun u v => key u <= key v) (insert_by (by_key key) a l).
Proof.
  induction 1 as [|b l Hs IH Hb]; [repeat constructor|].
  rewrite insert_by_key_cons. destruct (key b <? key a) eqn:E.
  - constructor; [exact IH|]. apply Z.ltb_lt in E.
    apply insert_by_key_hdrel; [lia|exact Hb].
  - apply Z.ltb_ge in E. repeat constructor; assumption.
Qed.

Lemma sort_by_key_sorted l :
  Sorted (fun u v => key u <= key v) (sort_by (by_key key) l).
Proof.
  induction l as [|a l IH]; [constructor|].
  cbn [sort_by foldr]. apply insert_by_key_sorted. exact IH.
Qed.

(** The sort is stable: the elements of one key keep their order. *)
Lemma insert_by_key_filter v a l :
  List.filter (fun u => key u =? v) (insert_by (by_key key) a l)
  = List.filter (fun u => key u =? v) (a :: l).
Proof.
  induction l as [|b l IH]; [reflexivity|].
  rewrite insert_by_key_cons. destruct (key b <? key a) eqn:E; [|reflexivity].
  apply Z.ltb_lt in E. cbn [List.filter] in *. rewrite IH.
  destruct (key a =? v) eqn:Ea; [|reflexivity].
  apply Z.eqb_eq in Ea. replace (key b =? v) with false; [reflexivity|].
  symmetry. apply Z.eqb_neq. lia.
Qed.

Lemma sort_by_key_filter v l :
  List.filter (fun u => key u =? v) (sort_by (by_key key) l)
  = List.filter (fun u => key u =? v) l.
Proof.
  induction l as [|a l IH]; [reflexivity|].
  cbn [sort_by foldr]. fold (sort_by (by_key key) l).
  rewrite insert_by_key_filter. cbn [List.filter]. rewrite IH. reflexivity.
Qed.

(** Two insertions commute unless they insert different elements with
    the same key. *)
Lemma insert_by_key_comm a b l :
  (key a = key b -> a = b) ->
  insert_by (by_key key) a (insert_by (by_key key) b l)
  = insert_by (by_key key) b (insert_by (by_key key) a l).
Proof.
  intros Hab. induction l as [|c l IH].
  - change (insert_by (by_key key) b []) with [b].
    change (insert_by (by_key key) a []) with [a].
    rewrite !insert_by_key_cons. cbn [insert_by].
    destruct (key b <? key a) eqn:E1; destruct (key a <? key b) eqn:E2;
      try reflexivity.
    + apply Z.ltb_lt in E1, E2. lia.
    + apply Z.ltb_ge in E1, E2. rewrite (Hab ltac:(lia)). reflexivity.
  - rewrite !(insert_by_key_cons _ c).
    destruct (key c <? key b) eqn:Ebc; destruct (key c <? key a) eqn:Eac;
      cbv iota.
    + rewrite !insert_by_key_cons, Ebc, Eac, IH. reflexivity.
    + assert ((key a <? key b) = true) as Hba.
      { apply Z.ltb_lt in Ebc. apply Z.ltb_ge in Eac. apply Z.ltb_lt. lia. }
      rewrite !insert_by_key_cons, Hba, Eac, Ebc. reflexivity.
    + assert ((key b <? key a) = true) as Hab'.
      { apply Z.ltb_ge in Ebc. apply Z.ltb_lt in Eac. apply Z.ltb_lt. lia. }
      rewrite !insert_by_key_cons, Hab', Ebc, Eac. reflexivity.
    + rewrite !insert_by_key_cons.
      destruct (key b <? key a) eqn:E1; destruct (key a <? key b) eqn:E2;
        rewrite ?insert_by_key_cons, ?Ebc, ?Eac; try reflexivity.
      * apply Z.ltb_lt in E1, E2. lia.
      * apply Z.ltb_ge in E1, E2. rewrite (Hab ltac:(lia)). reflexivity.
Qed.

(** With distinct keys the sorted array does not depend on the order of
    the input. *)
Lemma sort_by_key_permutation l l' :
  Permutation l l' ->
  (forall a b, a ∈ l -> b ∈ l -> key a = key b -> a = b) ->
  sort_by (by_key key) l = sort_by (by_key key) l'.
Proof.
  induction 1 as [|a l l' Hp IH|a b l|l l' l'' Hp1 IH1 Hp2 IH2]; intros Hd.
  - reflexivity.
  - cbn [sort_by foldr]. f_equal. apply IH.
    intros u v Hu Hv. apply Hd; right; assumption.
  - cbn [sort_by foldr]. apply insert_by_key_comm.
    apply Hd; [left|right; left].
  - rewrite IH1 by exact Hd. apply IH2.
    intros u v Hu Hv. apply Hd; rewrite Hp1; assumption.
Qed.

(** A comparator that returns no NaN and reads its arguments by their
    keys is consistent, and every engine sorts by the keys with it. *)
Lemma consistent_by_key (comparefn : A -> A -> float) (S : list A) :
  (forall a b, a ∈ S -> b ∈ S -> PrimFloat.is_nan (comparefn a b) = false) ->
  (forall a b, a ∈ S -> b ∈ S -> order_of comparefn a b = by_key key a b) ->
  consistent comparefn S.
Proof.
  intros Hnan H. split; [exact Hnan|]. unfold by_key in H.
  split; [|split; [|split; [|split]]].
  - intros a Ha. rewrite H by assumption. apply Z.compare_refl.
  - intros a b Ha Hb. rewrite !H by assumption.
    rewrite !Z.compare_eq_iff. congruence.
  - intros a b c Ha Hb Hc. rewrite !H by assumption.
    rewrite !Z.compare_eq_iff. congruence.
  - intros a b c Ha Hb Hc. rewrite !H by assumption.
    rewrite !Z.compare_lt_iff. lia.
  - intros a b c Ha Hb Hc. rewrite !H by assumption.
    rewrite !Z.compare_gt_iff. lia.
Qed.

Lemma array_sort_by_key (engine : Engine) (comparefn : A -> A -> float) (l : list A) :
  (forall a b, a ∈ l -> b ∈ l -> PrimFloat.is_nan (comparefn a b) = false) ->
  (forall a b, a ∈ l -> b ∈ l -> order_of comparefn a b = by_key key a b) ->
  array_sort engine comparefn l = sort_by (by_key key) l.
Proof.
  intros Hnan H.
  rewrite (array_sort_consistent engine comparefn l (consistent_by_key _ _ Hnan H)).
  unfold stable_sort. apply sort_by_ext. exact H.
Qed.

End KeySort.

Section LineFacts.

Import Extractor.

Lemma forallb_elem {A} (f : A -> bool) l a : forallb f l = true -> a ∈ l -> f a = true.
Proof.
  intros H Ha. rewrite forallb_forall in H. apply H, list_elem_of_In, Ha.
Qed.

Lemma one_line_spec items a b :
  one_line items = true -> a ∈ items -> b ∈ items ->
  same_sort_line a b = true /\ breaks_line a b = false.
Proof.
  unfold one_line. intros H Ha Hb.
  pose proof (forallb_elem _ _ b (forallb_elem _ _ a H Ha) Hb) as Hab.
  apply andb_prop in Hab as [H1 H2]. apply negb_true_iff in H2. auto.
Qed.

Lemma finite_x_spec items a : finite_x items = true -> a ∈ items ->
  PrimFloat.is_finite (x a) = true.
Proof. exact (forallb_elem (fun i => PrimFloat.is_finite (x i)) items a). Qed.

Lemma finite_y_spec items a : finite_y items = true -> a ∈ items ->
  PrimFloat.is_finite (y a) = true.
Proof. exact (forallb_elem (fun i => PrimFloat.is_finite (y i)) items a). Qed.

Lemma distinct_x_spec items a b :
  distinct_x items = true -> a ∈ items -> b ∈ items ->
  (x a =? x b)%float = true -> a = b.
Proof.
  induction items as [|c items IH]; intros Hd Ha Hb Hx; [inversion Ha|].
  cbn [distinct_x] in Hd. apply andb_prop in Hd as [Hc Hd].
  assert (Hno : forall u, u ∈ items -> (x c =? x u)%float = false).
  { intros u Hu. apply negb_true_iff. exact (forallb_elem _ _ u Hc Hu). }
  assert (Hsym : forall u v : TextItem, (x u =? x v)%float = (x v =? x u)%float).
  { intros u v. rewrite !FloatAxioms.eqb_spec. unfold SFeqb.
    rewrite (SFcompare_antisym (Prim2SF (x u)) (Prim2SF (x v))).
    destruct (SFcompare _ _) as [[]|]; reflexivity. }
  apply elem_of_cons in Ha as [->|Ha]; apply elem_of_cons in Hb as [->|Hb].
  - reflexivity.
  - rewrite (Hno b Hb) in Hx. discriminate.
  - rewrite Hsym, (Hno a Ha) in Hx. discriminate.
  - exact (IH Hd Ha Hb Hx).
Qed.

(** Where the sort takes every two runs for runs of one line and the
    runs start at finite numbers, the comparator reads the runs by
    their [x], and every engine sorts them by it. *)
Lemma compare_items_same_line a b :
  same_sort_line a b = true -> compare_items a b = (x a - x b)%float.
Proof.
  unfold same_sort_line, compare_items. cbv zeta. intros H.
  apply negb_true_iff in H. rewrite H. reflexivity.
Qed.

Lemma sortedItems_by_x engine items :
  (forall a b, a ∈ items -> b ∈ items -> same_sort_line a b = true) ->
  finite_x items = true ->
  sortedItems engine items
  = ArraySort.sort_by (ArraySort.by_key (fun i => units (x i))) items.
Proof.
  intros Hline Hfin. unfold sortedItems. apply array_sort_by_key.
  - intros a b Ha Hb. rewrite (compare_items_same_line a b (Hline a b Ha Hb)).
    apply sub_not_nan; eapply finite_x_spec; eassumption.
  - intros a b Ha Hb. unfold ArraySort.order_of, ArraySort.by_key.
    rewrite (compare_items_same_line a b (Hline a b Ha Hb)).
    apply sort_compare_sub; eapply finite_x_spec; eassumption.
Qed.

(** An iteration that stays on the line. *)
Lemma step_same_line L cur prev b :
  breaks_line prev b = false ->
  step {| lines := L; currentLine := cur;
          lastY := y prev; lastX_end := (x prev + width prev)%float |} b
  = {| lines := L;
       currentLine := cur ++ (if spaced prev b then SP :: str b else str b);
       lastY := y b; lastX_end := (x b + width b)%float |}.
Proof.
  intros H. unfold breaks_line in H. unfold step, spaced, xGap.
  cbn [lastY lastX_end lines currentLine]. rewrite H.
  destruct (Number.gt (x b - (x prev + width prev)) (charWidth b * 0.25)); reflexivity.
Qed.

(** The loop over runs that are all within the line-break tolerance of
    their predecessor never starts a new line. *)
Lemma walk_one_line rest :
  forall prev L cur,
    (forall a b, a ∈ prev :: rest -> b ∈ rest -> breaks_line a b = false) ->
    lines (fold_left step rest
             {| lines := L; currentLine := cur;
                lastY := y prev; lastX_end := (x prev + width prev)%float |}) = L
    /\ currentLine (fold_left step rest
             {| lines := L; currentLine := cur;
                lastY := y prev; lastX_end := (x prev + width prev)%float |})
       = cur ++ glue prev rest.
Proof.
  induction rest as [|b rest IH]; intros prev L cur H.
  - cbn [fold_left lines currentLine glue]. rewrite app_nil_r. split; reflexivity.
  - cbn [fold_left]. rewrite step_same_line by (apply H; left).
    destruct (IH b L (cur ++ (if spaced prev b then SP :: str b else str b)))
      as [H1 H2].
    { intros u v Hu Hv. apply H; [right; exact Hu|right; exact Hv]. }
    split; [exact H1|]. rewrite H2. cbn [glue]. rewrite <- app_assoc. reflexivity.
Qed.

Lemma assemble_one_line runs :
  runs <> [] ->
  (forall a b, a ∈ runs -> b ∈ runs -> breaks_line a b = false) ->
  assemble_lines runs = [glued_line runs].
Proof.
  destruct runs as [|first rest]; [congruence|]. intros _ H.
  unfold assemble_lines, glued_line.
  destruct (walk_one_line rest first [] (str first)) as [H1 H2].
  { intros a b Ha Hb. apply H; [exact Ha|right; exact Hb]. }
  rewrite H1, H2. reflexivity.
Qed.

Lemma Sorted_weaken {A} (R R' : A -> A -> Prop) l :
  (forall a b, a ∈ l -> b ∈ l -> R a b -> R' a b) -> Sorted R l -> Sorted R' l.
Proof.
  intros H Hs. induction Hs as [|a l Hs IH Ha]; constructor.
  - apply IH. intros u v Hu Hv. apply H; right; assumption.
  - destruct Ha as [|b l Hab]; constructor. apply H; [left|right; left|exact Hab].
Qed.

End LineFacts.

(** C5, as the code has it.  For a non-empty set of runs of one page
    that start at finite numbers and that the code takes pairwise for
    runs of one line (within 4 units in [y] for the sort and within 0.7
    of each other's height for the walk, in the arithmetic of doubles),
    the page text is one line whatever the order of the input array and
    whatever the engine: the strings of the runs in ascending order of
    [x], runs with the same [x] in the order of the input, a space between
    two neighbours whose gap exceeds a quarter of the character width,
    runs of white space collapsed and the ends trimmed.  When the runs
    start at pairwise different [x], the text is the same for every
    order of the input. *)
Theorem line_reconstruction_ordering
  (engine : ArraySort.Engine) (items items' : list Extractor.TextItem) :
  items <> [] ->
  Extractor.one_line items = true ->
  Extractor.finite_x items = true ->
  Permutation items items' ->
  (exists runs : list Extractor.TextItem,
     Permutation runs items
     /\ Sorted (fun a b => (Extractor.x a <=? Extractor.x b)%float = true) runs
     /\ (forall r, r ∈ items ->
           List.filter (fun u => (Extractor.x u =? Extractor.x r)%float) runs
           = List.filter (fun u => (Extractor.x u =? Extractor.x r)%float) items')
     /\ Extractor.page_text engine items'
        = Extractor.clean_line (Extractor.glued_line runs))
  /\ (Extractor.distinct_x items = true ->
      Extractor.page_text engine items' = Extractor.page_text engine items).
Proof.
  intros Hne Hline Hfin Hperm.
  set (key := fun i => units (Extractor.x i)).
  assert (Hsorted : forall l, Permutation items l ->
            Extractor.sortedItems engine l
            = ArraySort.sort_by (ArraySort.by_key key) l).
  { intros l Hl. apply sortedItems_by_x.
    - intros a b Ha Hb. rewrite <- Hl in Ha, Hb.
      exact (proj1 (one_line_spec items a b Hline Ha Hb)).
    - unfold Extractor.finite_x. apply forallb_forall. intros a Ha.
      apply list_elem_of_In in Ha. rewrite <- Hl in Ha.
      exact (finite_x_spec items a Hfin Ha). }
  assert (Hpage : forall l, Permutation items l ->
            Extractor.page_text engine l
            = Extractor.clean_line
                (Extractor.glued_line (ArraySort.sort_by (ArraySort.by_key key) l))).
  { intros l Hl. unfold Extractor.page_text.
    destruct l as [|i l]; [apply Permutation_sym, Permutation_nil in Hl; congruence|].
    rewrite (Hsorted _ Hl). rewrite assemble_one_line; [reflexivity| |].
    - intros E. pose proof (sort_by_perm (ArraySort.by_key key) (i :: l)) as Hp.
      rewrite E in Hp. apply Permutation_nil in Hp. discriminate.
    - intros a b Ha Hb. rewrite sort_by_perm in Ha, Hb. rewrite <- Hl in Ha, Hb.
      exact (proj2 (one_line_spec items a b Hline Ha Hb)). }
  split.
  - exists (ArraySort.sort_by (ArraySort.by_key key) items').
    assert (Hruns : Permutation (ArraySort.sort_by (ArraySort.by_key key) items') items)
      by (rewrite sort_by_perm; symmetry; exact Hperm).
    split; [exact Hruns|]. split; [|split; [|apply Hpage, Hperm]].
    + eapply Sorted_weaken; [|apply sort_by_key_sorted].
      intros a b Ha Hb H. rewrite Hruns in Ha, Hb. unfold key in H.
      rewrite leb_units by (eapply finite_x_spec; eassumption).
      apply Z.leb_le, H.
    + intros r Hr.
      assert (Hext : forall l, Permutation l items ->
                List.filter (fun u => (Extractor.x u =? Extractor.x r)%float) l
                = List.filter (fun u => (key u =? key r)%Z) l).
      { intros l Hl. apply filter_ext_in. intros u Hu. apply list_elem_of_In in Hu.
        rewrite Hl in Hu. unfold key.
        apply eqb_units; eapply finite_x_spec; eassumption. }
      rewrite (Hext _ Hruns), (Hext items' (Permutation_sym Hperm)).
      apply sort_by_key_filter.
  - intros Hdist.
    rewrite (Hpage items' Hperm), (Hpage items (Permutation_refl _)).
    rewrite (sort_by_key_permutation key items items' Hperm); [reflexivity|].
    intros a b Ha Hb Hk. apply (distinct_x_spec items a b Hdist Ha Hb).
    rewrite eqb_units by (eapply finite_x_spec; eassumption).
    apply Z.eqb_eq, Hk.
Qed.

Lemma line_reconstruction_ordering_witness :
  (exists runs : list Extractor.TextItem,
     Permutation runs
       [Extractor.run_world; Extractor.run_bang; Extractor.run_hello]
     /\ Sorted (fun a b => (Extractor.x a <=? Extractor.x b)%float = true) runs
     /\ (forall r, r ∈ [Extractor.run_world; Extractor.run_bang; Extractor.run_hello] ->
           List.filter (fun u => (Extractor.x u =? Extractor.x r)%float) runs
           = List.filter (fun u => (Extractor.x u =? Extractor.x r)%float)
               [Extractor.run_hello; Extractor.run_bang; Extractor.run_world])
     /\ Extractor.page_text insertion_engine
          [Extractor.run_hello; Extractor.run_bang; Extractor.run_world]
        = Extractor.clean_line (Extractor.glued_line runs))
  /\ (Extractor.distinct_x
        [Extractor.run_world; Extractor.run_bang; Extractor.run_hello] = true ->
      Extractor.page_text insertion_engine
        [Extractor.run_hello; Extractor.run_bang; Extractor.run_world]
      = Extractor.page_text insertion_engine
          [Extractor.run_world; Extractor.run_bang; Extractor.run_hello]).
Proof.
  apply (line_reconstruction_ordering insertion_engine
           [Extractor.run_world; Extractor.run_bang; Extractor.run_hello]
           [Extractor.run_hello; Extractor.run_bang; Extractor.run_world]).
  - discriminate.
  - vm_compute. reflexivity.
  - vm_compute. reflexivity.
  - apply (Permutation_rev
             [Extractor.run_world; Extractor.run_bang; Extractor.run_hello]).
Defined.

Section LineExamples.

Import Extractor.

(** Every engine sorts runs that the comparator takes for runs of one
    line, and that start at finite numbers, as the stable sort does. *)
Lemma sortedItems_same_line engine items :
  forallb (fun a => forallb (same_sort_line a) items) items = true ->
  finite_x items = true ->
  sortedItems engine items = ArraySort.stable_sort compare_items items.
Proof.
  intros Hline Hfin.
  assert (Hl : forall a b, a ∈ items -> b ∈ items -> same_sort_line a b = true).
  { intros a b Ha Hb. exact (forallb_elem _ _ b (forallb_elem _ _ a Hline Ha) Hb). }
  unfold sortedItems. apply array_sort_consistent.
  apply (consistent_by_key (fun i => units (x i))).
  - intros a b Ha Hb. rewrite (compare_items_same_line a b (Hl a b Ha Hb)).
    apply sub_not_nan; eapply finite_x_spec; eassumption.
  - intros a b Ha Hb. unfold ArraySort.order_of, ArraySort.by_key.
    rewrite (compare_items_same_line a b (Hl a b Ha Hb)).
    apply sort_compare_sub; eapply finite_x_spec; eassumption.
Qed.

(** The page text of such runs, with any engine. *)
Lemma page_text_same_line engine items :
  forallb (fun a => forallb (same_sort_line a) items) items = true ->
  finite_x items = true ->
  page_text engine items = page_text insertion_engine items.
Proof.
  intros Hline Hfin. unfold page_text.
  rewrite (sortedItems_same_line engine items Hline Hfin).
  rewrite (sortedItems_same_line insertion_engine items Hline Hfin). reflexivity.
Qed.

End LineExamples.

(** The line of the three example runs. *)
Example example_runs_line (engine : ArraySort.Engine) :
  Extractor.page_text engine
    [Extractor.run_world; Extractor.run_bang; Extractor.run_hello]
  = lit "Hello World!".
Proof.
  rewrite page_text_same_line by (vm_compute; reflexivity).
  vm_compute. reflexivity.
Qed.

(** C5, as the specification states it, fails: the two runs below are
    within 4 units in [y], so the sort orders them by [x]; yet they are 3
    units apart, more than 0.7 of the height 4 of the second, which
    therefore starts a new line, and no line of the page holds both. *)
Lemma same_baseline_runs_split_in_two_lines :
  Extractor.same_sort_line
    {| Extractor.str := lit "A"; Extractor.x := 72; Extractor.y := 700;
       Extractor.width := 3; Extractor.height := 4 |}
    {| Extractor.str := lit "B"; Extractor.x := 75; Extractor.y := 703;
       Extractor.width := 3; Extractor.height := 4 |} = true
  /\ (forall engine : ArraySort.Engine,
        Extractor.page_text engine
          [ {| Extractor.str := lit "A"; Extractor.x := 72; Extractor.y := 700;
               Extractor.width := 3; Extractor.height := 4 |};
            {| Extractor.str := lit "B"; Extractor.x := 75; Extractor.y := 703;
               Extractor.width := 3; Extractor.height := 4 |} ]
        = lit "A" ++ LF :: lit "B")
  /\ (forall engine : ArraySort.Engine,
        Extractor.page_text engine
          [ {| Extractor.str := lit "A"; Extractor.x := 72; Extractor.y := 700;
               Extractor.width := 3; Extractor.height := 4 |};
            {| Extractor.str := lit "B"; Extractor.x := 75; Extractor.y := 703;
               Extractor.width := 3; Extractor.height := 4 |} ]
        <> lit "AB").
Proof.
  split; [vm_compute; reflexivity|].
  split; intros engine; rewrite page_text_same_line by (vm_compute; reflexivity);
    vm_compute; [reflexivity|discriminate].
Qed.

(** Two different runs that start at the same [x] come out in the order
    of the input array: the sort is stable. *)
Example equal_x_runs_keep_input_order (engine : ArraySort.Engine) :
  Extractor.page_text engine
    [ {| Extractor.str := lit "A"; Extractor.x := 72; Extractor.y := 700;
         Extractor.width := 6; Extractor.height := 12 |};
      {| Extractor.str := lit "B"; Extractor.x := 72; Extractor.y := 700;
         Extractor.width := 6; Extractor.height := 12 |} ]
  = lit "AB"
  /\ Extractor.page_text engine
       [ {| Extractor.str := lit "B"; Extractor.x := 72; Extractor.y := 700;
            Extractor.width := 6; Extractor.height := 12 |};
         {| Extractor.str := lit "A"; Extractor.x := 72; Extractor.y := 700;
            Extractor.width := 6; Extractor.height := 12 |} ]
     = lit "BA".
Proof.
  split; rewrite page_text_same_line by (vm_compute; reflexivity);
    vm_compute; reflexivity.
Qed.

(** The tolerances are those of the doubles the code computes with.  The
    second run below is 3.9375 under the first and 5.625 high: 0.7 of
    5.625 is 3.9375, but the product of the doubles is
    3.9374999999999996, and the run starts a new line. *)
Example rounded_tolerance_breaks_line (engine : ArraySort.Engine) :
  Extractor.page_text engine
    [ {| Extractor.str := lit "A"; Extractor.x := 0; Extractor.y := 3.9375;
         Extractor.width := 6; Extractor.height := 5.625 |};
      {| Extractor.str := lit "B"; Extractor.x := 10; Extractor.y := 0;
         Extractor.width := 6; Extractor.height := 5.625 |} ]
  = lit "A" ++ LF :: lit "B"
  /\ (5.625 * 0.7 <? 3.9375)%float = true.
Proof.
  split; [|vm_compute; reflexivity].
  rewrite page_text_same_line by (vm_compute; reflexivity).
  vm_compute. reflexivity.
Qed.

(** A run that starts at infinity has no specified place: the comparator
    returns NaN for it and itself, so it is not consistent, and the order
    of the sort is left to the engine. *)
Example infinite_x_has_no_specified_order :
  ~ ArraySort.consistent Extractor.compare_items
      [ {| Extractor.str := lit "A"; Extractor.x := infinity; Extractor.y := 700;
           Extractor.width := 6; Extractor.height := 12 |} ].
Proof.
  intros (Hnan & _).
  specialize (Hnan _ _ (list_elem_of_here _ _) (list_elem_of_here _ _)).
  vm_compute in Hnan. discriminate Hnan.
Qed.

(** ** The renderer *)

Section RenderFacts.

Import Generator.
Local Open Scope render_scope.

Lemma current_document_app calls new :
  current_document (calls ++ new)
  = fold_left (fun made c =>
                 match c with
                 | NewDocument => [NewDocument]
                 | _ => made ++ [c]
                 end) new (current_document calls).
Proof. unfold current_document. apply fold_left_app. Qed.

Lemma current_document_same calls1 calls2 new :
  current_document calls1 = current_document calls2 ->
  current_document (calls1 ++ new) = current_document (calls2 ++ new).
Proof. intros H. rewrite !current_document_app, H. reflexivity. Qed.

(** Results that end alike leave states with the same document at hand. *)
Lemma same_result_renderer {A} st1 st2 (r1 r2 : RenderState * Outcome A) :
  same_renderer st1 st2 -> same_result st1 st2 r1 r2 ->
  same_renderer (fst r1) (fst r2).
Proof.
  intros (Hd & _ & _) (_ & Hy & Hp & calls & H1 & H2).
  split; [|split; assumption]. rewrite H1, H2. apply current_document_same, Hd.
Qed.

(** A step that makes no call. *)
Lemma same_result_silent {A} st1 st2 (r1 r2 : RenderState * Outcome A) :
  snd r1 = snd r2 -> cursorY (fst r1) = cursorY (fst r2) ->
  pageNumber (fst r1) = pageNumber (fst r2) ->
  doc (fst r1) = doc st1 -> doc (fst r2) = doc st2 ->
  same_result st1 st2 r1 r2.
Proof.
  intros Ho Hy Hp H1 H2. split; [exact Ho|]. split; [exact Hy|]. split; [exact Hp|].
  exists []. rewrite !app_nil_r. split; assumption.
Qed.

Lemma in_step_ret {A} (a : A) : in_step (ret a) (ret a).
Proof.
  intros st1 st2 (Hd & Hy & Hp). apply same_result_silent; auto.
Qed.

Lemma in_step_throw {A} : in_step (@throw A) (@throw A).
Proof.
  intros st1 st2 (Hd & Hy & Hp). apply same_result_silent; auto.
Qed.

Lemma in_step_bind {A B} (m1 m2 : Render A) (k1 k2 : A -> Render B) :
  in_step m1 m2 -> (forall a, in_step (k1 a) (k2 a)) ->
  in_step (bind m1 k1) (bind m2 k2).
Proof.
  intros Hm Hk st1 st2 Hst. unfold bind.
  pose proof (Hm st1 st2 Hst) as Hr.
  pose proof (same_result_renderer st1 st2 _ _ Hst Hr) as Hst'.
  destruct Hr as (Ho & Hy & Hp & calls & H1 & H2).
  destruct (m1 st1) as [st1' o1], (m2 st2) as [st2' o2]. cbn [fst snd] in *.
  subst o2. destruct o1 as [a|].
  - destruct (Hk a st1' st2' Hst') as (Ho' & Hy' & Hp' & calls' & H1' & H2').
    split; [exact Ho'|]. split; [exact Hy'|]. split; [exact Hp'|].
    exists (calls ++ calls'). rewrite H1', H2', H1, H2, <- !app_assoc.
    split; reflexivity.
  - split; [reflexivity|]. split; [exact Hy|]. split; [exact Hp|].
    exists calls. split; assumption.
Qed.

Lemma in_step_forEach {A} (l : list A) (f1 f2 : A -> Render unit) :
  (forall a, in_step (f1 a) (f2 a)) -> in_step (forEach l f1) (forEach l f2).
Proof.
  intros H. induction l as [|a l IH]; [apply in_step_ret|].
  cbn [forEach]. apply in_step_bind; [apply H|intros _; exact IH].
Qed.

(** The operations on the cursor and the page number. *)
Lemma in_step_getCursorY : in_step getCursorY getCursorY.
Proof.
  intros st1 st2 (Hd & Hy & Hp). apply same_result_silent; auto.
  cbn [getCursorY fst snd]. unfold getCursorY. cbn [snd]. rewrite Hy. reflexivity.
Qed.

Lemma in_step_setCursorY v : in_step (setCursorY v) (setCursorY v).
Proof.
  intros st1 st2 (Hd & Hy & Hp). apply same_result_silent; auto.
Qed.

Lemma in_step_addCursorY v : in_step (addCursorY v) (addCursorY v).
Proof.
  intros st1 st2 (Hd & Hy & Hp). apply same_result_silent; auto.
  unfold addCursorY. cbn [fst cursorY]. rewrite Hy. reflexivity.
Qed.

Lemma in_step_nextPageNumber : in_step nextPageNumber nextPageNumber.
Proof.
  intros st1 st2 (Hd & Hy & Hp). apply same_result_silent; auto.
  unfold nextPageNumber. cbn [fst pageNumber]. rewrite Hp. reflexivity.
Qed.

Lemma in_step_newRenderer : in_step newRenderer newRenderer.
Proof.
  intros st1 st2 (Hd & Hy & Hp). apply same_result_silent; auto.
Qed.

Lemma in_step_flatten inlineTokens : in_step (flatten inlineTokens) (flatten inlineTokens).
Proof.
  unfold flatten. destruct inlineTokens as [l|]; [|apply in_step_throw].
  destruct (flatten_tokens normal l); [apply in_step_ret|apply in_step_throw].
Qed.

(** Induction on a token and the tokens nested in it. *)
Lemma Token_induction (P : Token -> Prop) :
  (forall ty tx tk it, all_tokens P tk -> all_tokens P it ->
     P {| type := ty; text := tx; tokens := tk; items := it |}) ->
  forall t, P t.
Proof.
  intros H. fix IH 1. intros [ty tx tk it]. apply H.
  - destruct tk as [l|]; [|exact I]. cbn [all_tokens].
    induction l as [|a l IHl]; constructor; [apply IH|exact IHl].
  - destruct it as [l|]; [|exact I]. cbn [all_tokens].
    induction l as [|a l IHl]; constructor; [apply IH|exact IHl].
Qed.

Section AnswerAlike.

Variables lib1 lib2 : Libraries.
Hypothesis Hlib : answer_alike lib1 lib2.

Lemma in_step_call c : c <> NewDocument -> in_step (call lib1 c) (call lib2 c).
Proof.
  intros Hc st1 st2 (Hd & Hy & Hp). unfold call.
  destruct Hlib as (_ & Ht & _ & _). rewrite (Ht (doc st1) (doc st2) c Hc Hd).
  destruct (throws lib2 (doc st2) c).
  - apply same_result_silent; auto.
  - split; [reflexivity|]. split; [exact Hy|]. split; [exact Hp|].
    exists [c]. split; reflexivity.
Qed.

Lemma in_step_textWidth s : in_step (textWidth lib1 s) (textWidth lib2 s).
Proof.
  intros st1 st2 (Hd & Hy & Hp). apply same_result_silent; auto.
  unfold textWidth. cbn [snd].
  destruct Hlib as (Hw & _ & _ & _). rewrite (Hw (doc st1) (doc st2) s Hd).
  reflexivity.
Qed.

(** One step through a computation of the renderer. *)
Ltac in_step_prim :=
  first
    [ apply in_step_ret
    | apply in_step_throw
    | apply in_step_getCursorY
    | apply in_step_setCursorY
    | apply in_step_addCursorY
    | apply in_step_nextPageNumber
    | apply in_step_newRenderer
    | apply in_step_flatten
    | apply in_step_textWidth
    | apply in_step_call; discriminate ].

Lemma in_step_ensurePage : in_step (ensurePage lib1) (ensurePage lib2).
Proof.
  unfold ensurePage. apply in_step_bind; [in_step_prim|intros y].
  destruct (Extractor.Qgtb y (PAGE_HEIGHT - PAGE_MARGIN)); [|in_step_prim].
  apply in_step_bind; [in_step_prim|intros _].
  apply in_step_bind; [in_step_prim|intros _]. in_step_prim.
Qed.

Lemma in_step_renderWords x maxWidth words :
  forall cursorX,
    in_step (renderWords lib1 x maxWidth cursorX words)
            (renderWords lib2 x maxWidth cursorX words).
Proof.
  induction words as [|w words IH]; intros cursorX; [in_step_prim|].
  cbn [renderWords].
  apply in_step_bind; [apply in_step_ensurePage|intros _].
  apply in_step_bind; [in_step_prim|intros _].
  apply in_step_bind; [in_step_prim|intros wordWidth]. cbv zeta.
  apply in_step_bind; [destruct (Extractor.Qgtb _ _); in_step_prim|intros _].
  apply in_step_bind; [in_step_prim|intros y].
  apply in_step_bind; [in_step_prim|intros _].
  apply IH.
Qed.

Lemma in_step_renderInlineTokens inlineTokens x y maxWidth :
  in_step (renderInlineTokens lib1 inlineTokens x y maxWidth)
          (renderInlineTokens lib2 inlineTokens x y maxWidth).
Proof.
  unfold renderInlineTokens.
  repeat first [ in_step_prim
               | apply in_step_renderWords
               | apply in_step_bind; [|intros ?] ].
Qed.

Lemma in_step_renderItemContent indent width itemContent :
  in_step (renderItemContent lib1 indent width itemContent)
          (renderItemContent lib2 indent width itemContent).
Proof.
  unfold renderItemContent.
  destruct (jseq (type itemContent) (lit "paragraph")
            && bool_decide (is_Some (tokens itemContent))).
  - apply in_step_bind; [in_step_prim|intros y].
    apply in_step_bind; [apply in_step_renderInlineTokens|intros y'].
    in_step_prim.
  - destruct (jseq (type itemContent) (lit "text")); [|in_step_prim].
    destruct (text itemContent); [|in_step_prim].
    apply in_step_bind; [in_step_prim|intros y].
    apply in_step_bind; [apply in_step_renderInlineTokens|intros y'].
    in_step_prim.
Qed.

Lemma in_step_renderToken token :
  forall x maxWidth listLevel,
    in_step (renderToken lib1 x maxWidth listLevel token)
            (renderToken lib2 x maxWidth listLevel token).
Proof.
  induction token as [ty tx tk it _ IHit] using Token_induction.
  intros x maxWidth listLevel. cbn [renderToken type text tokens items].
  apply in_step_bind; [apply in_step_ensurePage|intros _]. cbv zeta.
  destruct (jseq ty (lit "heading")); [in_step_prim|].
  destruct (jseq ty (lit "paragraph")).
  { repeat (apply in_step_bind; [in_step_prim|intros ?]).
    apply in_step_bind; [apply in_step_renderInlineTokens|intros y'].
    apply in_step_bind; [in_step_prim|intros _]. in_step_prim. }
  destruct (jseq ty (lit "list")).
  { apply in_step_bind; [|intros _; destruct (listLevel =? 0)%nat; in_step_prim].
    destruct it as [its|]; [|in_step_prim]. cbn [all_tokens] in IHit.
    induction IHit as [|t its Ht _ IH]; [in_step_prim|].
    apply in_step_bind; [apply Ht|intros _; exact IH]. }
  destruct (jseq ty (lit "list_item")).
  { repeat (apply in_step_bind; [in_step_prim|intros ?]).
    apply in_step_bind; [|intros _; in_step_prim].
    destruct tk as [content|]; [|in_step_prim].
    apply in_step_forEach. intros c. apply in_step_renderItemContent. }
  destruct (jseq ty (lit "space")); [in_step_prim|].
  destruct tx as [[|c s]|]; try in_step_prim.
  repeat (apply in_step_bind; [in_step_prim|intros ?]).
  apply in_step_bind; [apply in_step_renderInlineTokens|intros y'].
  in_step_prim.
Qed.

Lemma in_step_renderMarkdown markdown x maxWidth startY :
  in_step (renderMarkdown lib1 markdown x maxWidth startY)
          (renderMarkdown lib2 markdown x maxWidth startY).
Proof.
  unfold renderMarkdown.
  apply in_step_bind.
  { destruct startY as [v|]; [destruct (Qeq_bool v 0)|]; in_step_prim. }
  intros _. destruct Hlib as (_ & _ & _ & Hlex). rewrite Hlex.
  destruct (lexer lib2 markdown) as [toks|]; [|in_step_prim].
  apply in_step_bind; [|intros _; in_step_prim].
  apply in_step_forEach. intros t. apply in_step_renderToken.
Qed.

Lemma in_step_renderBody content :
  in_step (renderBody lib1 content) (renderBody lib2 content).
Proof.
  unfold renderBody.
  apply in_step_bind; [apply in_step_renderMarkdown|intros _; in_step_prim].
Qed.

Lemma in_step_textAtCursor s x centered :
  in_step (textAtCursor lib1 s x centered) (textAtCursor lib2 s x centered).
Proof.
  unfold textAtCursor.
  apply in_step_bind; [in_step_prim|intros y; in_step_prim].
Qed.

Lemma in_step_lineAtCursor x1 d1 x2 d2 :
  in_step (lineAtCursor lib1 x1 d1 x2 d2) (lineAtCursor lib2 x1 d1 x2 d2).
Proof.
  unfold lineAtCursor.
  apply in_step_bind; [in_step_prim|intros y; in_step_prim].
Qed.

Lemma in_step_whenSection data key (body1 body2 : jsstring -> Render unit) :
  (forall content, in_step (body1 content) (body2 content)) ->
  in_step (whenSection data key body1) (whenSection data key body2).
Proof.
  intros H. unfold whenSection.
  destruct (Parse.sections data !! key) as [[|c s]|]; try in_step_prim.
  apply H.
Qed.

(** One step for the templates. *)
Ltac template_step :=
  first
    [ in_step_prim
    | apply in_step_textAtCursor
    | apply in_step_lineAtCursor
    | apply in_step_renderBody
    | apply in_step_bind; [|intros ?]
    | apply in_step_forEach; intros ?
    | apply in_step_whenSection; intros ?; cbv zeta ].

Lemma in_step_renderTemplate templateId data :
  in_step (renderTemplate lib1 templateId data)
          (renderTemplate lib2 templateId data).
Proof.
  destruct templateId; cbn [renderTemplate];
    unfold renderClassicTemplate, renderProfessionalTemplate,
           renderTechnicalTemplate, renderModernTemplate;
    repeat template_step.
Qed.

(** Every template starts with a renderer of its own: it runs in step
    from any two states with the same document at hand, wherever the
    cursor and the page number of an earlier renderer were left. *)
Lemma renderTemplate_fresh templateId data st1 st2 :
  current_document (doc st1) = current_document (doc st2) ->
  same_result st1 st2 (renderTemplate lib1 templateId data st1)
                      (renderTemplate lib2 templateId data st2).
Proof.
  intros Hd.
  assert (Hre : forall lib st,
            renderTemplate lib templateId data st
            = renderTemplate lib templateId data
                {| doc := doc st; cursorY := PAGE_MARGIN; pageNumber := 1 |}).
  { intros lib st. destruct templateId; reflexivity. }
  rewrite (Hre lib1 st1), (Hre lib2 st2).
  destruct (in_step_renderTemplate templateId data
              {| doc := doc st1; cursorY := PAGE_MARGIN; pageNumber := 1 |}
              {| doc := doc st2; cursorY := PAGE_MARGIN; pageNumber := 1 |})
    as (Ho & Hy & Hp & calls & H1 & H2).
  { split; [exact Hd|]. split; reflexivity. }
  split; [exact Ho|]. split; [exact Hy|]. split; [exact Hp|].
  exists calls. split; assumption.
Qed.

(** The generation, step by step. *)
Lemma generation_steps lib resumeText templateId filename st :
  generation lib resumeText templateId filename st
  = match call lib NewDocument st with
    | (n, Returned _) =>
        match call lib (SetFont helvetica (lit "normal")) n with
        | (f, Returned _) =>
            match renderTemplate lib templateId
                    (Parse.parseResumeStructure (Sanitize.sanitize resumeText)) f with
            | (t, Returned _) => call lib (Save filename) t
            | (t, Thrown) => (t, Thrown)
            end
        | (f, Thrown) => (f, Thrown)
        end
    | (n, Thrown) => (n, Thrown)
    end.
Proof.
  unfold generation, layout, bind.
  destruct (call lib NewDocument st) as [n [[]|]]; [|reflexivity].
  destruct (call lib (SetFont helvetica (lit "normal")) n) as [f [[]|]]; reflexivity.
Qed.

(** The generation makes the same calls and ends the same way from any
    two states. *)
Lemma generation_any_state resumeText templateId filename st1 st2 :
  snd (generation lib1 resumeText templateId filename st1)
  = snd (generation lib2 resumeText templateId filename st2)
  /\ exists calls,
       doc (fst (generation lib1 resumeText templateId filename st1))
       = doc st1 ++ calls
       /\ doc (fst (generation lib2 resumeText templateId filename st2))
          = doc st2 ++ calls.
Proof.
  rewrite !generation_steps.
  set (data := Parse.parseResumeStructure (Sanitize.sanitize resumeText)).
  set (font := SetFont helvetica (lit "normal")).
  destruct Hlib as (_ & Ht & Hnew & _).
  set (n1 := {| doc := doc st1 ++ [NewDocument]; cursorY := cursorY st1;
                pageNumber := pageNumber st1 |}).
  set (n2 := {| doc := doc st2 ++ [NewDocument]; cursorY := cursorY st2;
                pageNumber := pageNumber st2 |}).
  assert (Hc1 : call lib1 NewDocument st1
                = if throws lib2 (doc st2) NewDocument then (st1, Thrown)
                  else (n1, Returned tt)).
  { unfold call. rewrite (Hnew (doc st1) (doc st2)). reflexivity. }
  assert (Hc2 : call lib2 NewDocument st2
                = if throws lib2 (doc st2) NewDocument then (st2, Thrown)
                  else (n2, Returned tt)) by reflexivity.
  rewrite Hc1, Hc2. clear Hc1 Hc2.
  destruct (throws lib2 (doc st2) NewDocument).
  { split; [reflexivity|]. exists []. rewrite !app_nil_r. split; reflexivity. }
  assert (Hn : current_document (doc n1) = current_document (doc n2)).
  { unfold n1, n2. cbn [doc]. rewrite !current_document_app. reflexivity. }
  assert (Hfont : font <> NewDocument) by discriminate.
  set (f1 := {| doc := doc n1 ++ [font];
                cursorY := cursorY n1; pageNumber := pageNumber n1 |}).
  set (f2 := {| doc := doc n2 ++ [font];
                cursorY := cursorY n2; pageNumber := pageNumber n2 |}).
  assert (Hc1 : call lib1 font n1
                = if throws lib2 (doc n2) font then (n1, Thrown)
                  else (f1, Returned tt)).
  { unfold call. rewrite (Ht (doc n1) (doc n2) font Hfont Hn). reflexivity. }
  assert (Hc2 : call lib2 font n2
                = if throws lib2 (doc n2) font then (n2, Thrown)
                  else (f2, Returned tt)) by reflexivity.
  rewrite Hc1, Hc2. clear Hc1 Hc2.
  destruct (throws lib2 (doc n2) font).
  { split; [reflexivity|]. exists [NewDocument]. split; reflexivity. }
  assert (Hf : current_document (doc f1) = current_document (doc f2)).
  { unfold f1, f2. cbn [doc]. apply current_document_same, Hn. }
  assert (Hpre1 : doc f1 = doc st1 ++ [NewDocument; font]).
  { unfold f1, n1. cbn [doc]. rewrite <- app_assoc. reflexivity. }
  assert (Hpre2 : doc f2 = doc st2 ++ [NewDocument; font]).
  { unfold f2, n2. cbn [doc]. rewrite <- app_assoc. reflexivity. }
  destruct (renderTemplate_fresh templateId data f1 f2 Hf)
    as (Ho & Hy & Hp & calls & H1 & H2).
  assert (Hst : same_renderer (fst (renderTemplate lib1 templateId data f1))
                              (fst (renderTemplate lib2 templateId data f2))).
  { split; [|split; assumption]. rewrite H1, H2. apply current_document_same, Hf. }
  destruct (renderTemplate lib1 templateId data f1) as [t1 o1].
  destruct (renderTemplate lib2 templateId data f2) as [t2 o2].
  cbn [fst snd] in *. subst o2.
  destruct o1 as [[]|].
  - assert (Hsave : Save filename <> NewDocument) by discriminate.
    destruct (in_step_call (Save filename) Hsave t1 t2 Hst)
      as (Ho' & _ & _ & calls' & H1' & H2').
    split; [exact Ho'|].
    exists ([NewDocument; font] ++ calls ++ calls').
    rewrite H1', H2', H1, H2, Hpre1, Hpre2, <- !app_assoc. split; reflexivity.
  - split; [reflexivity|].
    exists ([NewDocument; font] ++ calls). cbn [fst].
    rewrite H1, H2, Hpre1, Hpre2, <- !app_assoc. split; reflexivity.
Qed.

End AnswerAlike.

End RenderFacts.

Section TemplateFacts.

Import Generator.

Lemma whenSection_lookup data1 data2 key (body : jsstring -> Render unit) :
  Parse.sections data1 !! key = Parse.sections data2 !! key ->
  whenSection data1 key body = whenSection data2 key body.
Proof. intros H. unfold whenSection. rewrite H. reflexivity. Qed.

(** A template reads the header and the sections of its section order,
    and nothing else of the parsed document. *)
Lemma renderTemplate_listed lib templateId data1 data2 :
  Parse.header data1 = Parse.header data2 ->
  (forall key, key ∈ sectionOrder templateId ->
     Parse.sections data1 !! key = Parse.sections data2 !! key) ->
  renderTemplate lib templateId data1 = renderTemplate lib templateId data2.
Proof.
  intros Hh Hs.
  assert (Hw : forall key body, key ∈ sectionOrder templateId ->
            whenSection data1 key body = whenSection data2 key body).
  { intros key body Hkey. apply whenSection_lookup, Hs, Hkey. }
  destruct templateId; cbn [renderTemplate];
    unfold renderClassicTemplate, renderProfessionalTemplate,
           renderTechnicalTemplate, renderModernTemplate;
    rewrite Hh; cbn [forEach sectionOrder] in *;
    rewrite !Hw by (repeat first [left | right]);
    reflexivity.
Qed.

Lemma example_libraries_answer_alike :
  answer_alike example_libraries example_libraries'.
Proof.
  split; [|split; [|split]].
  - intros calls1 calls2 s _. cbn [getTextWidth example_libraries example_libraries'].
    unfold Qmult, Qplus, inject_Z. cbn [Qnum Qden]. f_equal. lia.
  - intros calls1 calls2 c _ _. destruct c; try reflexivity. destruct s; reflexivity.
  - reflexivity.
  - reflexivity.
Qed.

End TemplateFacts.

(** C7.  A section of the parsed document whose key is not in the section
    order of the template leaves no trace in the rendering: with any of
    the four templates, the calls made on the document are the same as
    for the document without that section, and the same whatever its
    content is, so no title or body text of it is drawn. *)
Theorem unlisted_section_not_rendered
  (lib : Generator.Libraries) (templateId : Generator.TemplateId)
  (header : list jsstring) (sections : gmap jsstring jsstring)
  (key content : jsstring) :
  key ∉ Generator.sectionOrder templateId ->
  Generator.renderTemplate lib templateId
    {| Parse.header := header; Parse.sections := <[key := content]> sections |}
  = Generator.renderTemplate lib templateId
      {| Parse.header := header; Parse.sections := delete key sections |}
  /\ forall content' : jsstring,
       Generator.renderTemplate lib templateId
         {| Parse.header := header; Parse.sections := <[key := content]> sections |}
       = Generator.renderTemplate lib templateId
           {| Parse.header := header; Parse.sections := <[key := content']> sections |}.
Proof.
  intros Hkey.
  assert (Hne : forall k, k ∈ Generator.sectionOrder templateId -> key <> k)
    by (intros k Hk ->; contradiction).
  split; [|intros content'];
    (apply renderTemplate_listed; [reflexivity|]);
    intros k Hk; cbn [Parse.sections];
    rewrite ?lookup_insert_ne, ?lookup_delete_ne by (apply Hne, Hk); reflexivity.
Qed.

Lemma unlisted_section_not_rendered_witness :
  Generator.renderTemplate Generator.example_libraries Generator.technical
    {| Parse.header := [lit "Jane Doe"; lit "jane@example.com"];
       Parse.sections :=
         <[lit "references" := lit "Available on request."]>
           {[ lit "summary" := lit "Senior engineer." ]} |}
  = Generator.renderTemplate Generator.example_libraries Generator.technical
      {| Parse.header := [lit "Jane Doe"; lit "jane@example.com"];
         Parse.sections :=
           delete (lit "references") {[ lit "summary" := lit "Senior engineer." ]} |}.
Proof.
  refine (proj1 (unlisted_section_not_rendered
                   Generator.example_libraries Generator.technical
                   [lit "Jane Doe"; lit "jane@example.com"]
                   {[ lit "summary" := lit "Senior engineer." ]}
                   (lit "references") (lit "Available on request.") _)).
  compute_done.
Defined.

(** C8.  When the layout (creating the document, parsing, rendering the
    template) throws, [generatePdfResume] catches the exception: it
    reports to the console and shows the alert, and saves no file; the
    document [st] drawn so far is dropped. *)
Theorem layout_exception_is_caught
  (lib : Generator.Libraries) (resumeText : jsstring)
  (templateId : Generator.TemplateId) (filename : jsstring)
  (st : Generator.RenderState) :
  Generator.layout lib resumeText templateId Generator.no_document
  = (st, Generator.Thrown) ->
  Generator.generatePdfResume lib resumeText templateId filename
  = [Generator.ConsoleError (lit "Failed to generate PDF:");
     Generator.Alert
       (lit "Sorry, there was an error generating the PDF. Please try again.")]
  /\ Generator.saved_documents
       (Generator.generatePdfResume lib resumeText templateId filename) = [].
Proof.
  intros H. unfold Generator.generatePdfResume, Generator.bind.
  rewrite H. split; reflexivity.
Qed.

Lemma layout_exception_is_caught_witness :
  Generator.generatePdfResume Generator.example_libraries (lit "Jane Doe")
    Generator.classic (lit "Jane-Doe-Resume.pdf")
  = [Generator.ConsoleError (lit "Failed to generate PDF:");
     Generator.Alert
       (lit "Sorry, there was an error generating the PDF. Please try again.")]
  /\ Generator.saved_documents
       (Generator.generatePdfResume Generator.example_libraries (lit "Jane Doe")
          Generator.classic (lit "Jane-Doe-Resume.pdf")) = [].
Proof.
  eapply (layout_exception_is_caught Generator.example_libraries (lit "Jane Doe")
            Generator.classic (lit "Jane-Doe-Resume.pdf")).
  vm_compute. reflexivity.
Defined.

(** Without an exception the run ends with the save, and the file holds
    every call made on the document. *)
Lemma generatePdfResume_saves
  (lib : Generator.Libraries) (resumeText : jsstring)
  (templateId : Generator.TemplateId) (filename : jsstring)
  (st : Generator.RenderState) :
  Generator.layout lib resumeText templateId Generator.no_document
  = (st, Generator.Returned tt) ->
  Generator.throws lib (Generator.doc st) (Generator.Save filename) = false ->
  Generator.generatePdfResume lib resumeText templateId filename
  = [Generator.FileSaved filename
       (Generator.doc st ++ [Generator.Save filename])].
Proof.
  intros H Hsave. unfold Generator.generatePdfResume, Generator.bind.
  rewrite H. unfold Generator.call. rewrite Hsave. reflexivity.
Qed.

(** C9.  Two runs of the generation on the same resume text, template
    and file name make the same calls on their documents and end the
    same way, saved or caught, whatever ran before each of them:
    whatever documents were created and drawn on earlier, and wherever the
    cursor and the page number of an earlier renderer were left.  Each
    run has its own instances of jsPDF and marked, which answer alike
    about the document at hand.  So two runs of [generatePdfResume] have
    the same effect; in particular the documents they save have the same
    number of pages and the same sequence of text positions. *)
Theorem rendering_deterministic
  (lib1 lib2 : Generator.Libraries) (resumeText : jsstring)
  (templateId : Generator.TemplateId) (filename : jsstring)
  (before1 before2 : Generator.RenderState) :
  Generator.answer_alike lib1 lib2 ->
  (exists calls : list Generator.DocCall,
     Generator.doc
       (fst (Generator.generation lib1 resumeText templateId filename before1))
     = Generator.doc before1 ++ calls
     /\ Generator.doc
          (fst (Generator.generation lib2 resumeText templateId filename before2))
        = Generator.doc before2 ++ calls)
  /\ snd (Generator.generation lib1 resumeText templateId filename before1)
     = snd (Generator.generation lib2 resumeText templateId filename before2)
  /\ Generator.generatePdfResume lib1 resumeText templateId filename
     = Generator.generatePdfResume lib2 resumeText templateId filename
  /\ map Generator.page_count
       (Generator.saved_documents
          (Generator.generatePdfResume lib1 resumeText templateId filename))
     = map Generator.page_count
         (Generator.saved_documents
            (Generator.generatePdfResume lib2 resumeText templateId filename))
  /\ map Generator.text_positions
       (Generator.saved_documents
          (Generator.generatePdfResume lib1 resumeText templateId filename))
     = map Generator.text_positions
         (Generator.saved_documents
            (Generator.generatePdfResume lib2 resumeText templateId filename)).
Proof.
  intros H.
  destruct (generation_any_state lib1 lib2 H resumeText templateId filename
              before1 before2) as (Ho & calls & H1 & H2).
  split; [exists calls; split; assumption|]. split; [exact Ho|].
  assert (Generator.generatePdfResume lib1 resumeText templateId filename
          = Generator.generatePdfResume lib2 resumeText templateId filename) as ->.
  { destruct (generation_any_state lib1 lib2 H resumeText templateId filename
                Generator.no_document Generator.no_document)
      as (Ho' & calls' & H1' & H2').
    unfold Generator.generatePdfResume.
    change (Generator.bind (Generator.layout lib1 resumeText templateId)
              (fun _ => Generator.call lib1 (Generator.Save filename)))
      with (Generator.generation lib1 resumeText templateId filename).
    change (Generator.bind (Generator.layout lib2 resumeText templateId)
              (fun _ => Generator.call lib2 (Generator.Save filename)))
      with (Generator.generation lib2 resumeText templateId filename).
    destruct (Generator.generation lib1 resumeText templateId filename
                Generator.no_document) as [s1 o1].
    destruct (Generator.generation lib2 resumeText templateId filename
                Generator.no_document) as [s2 o2].
    cbn [fst snd] in *. subst o2. destruct o1; [|reflexivity].
    rewrite H1', H2'. reflexivity. }
  repeat split; reflexivity.
Qed.

(** The states that earlier runs have left: none for the first run; for
    the second a saved document of two pages, with the cursor low on its
    second page. *)
Lemma rendering_deterministic_witness :
  (exists calls : list Generator.DocCall,
     Generator.doc
       (fst (Generator.generation Generator.example_libraries
               Generator.example_resume Generator.modern (lit "Jane-Doe-Resume.pdf")
               Generator.no_document))
     = Generator.doc Generator.no_document ++ calls
     /\ Generator.doc
          (fst (Generator.generation Generator.example_libraries'
                  Generator.example_resume Generator.modern (lit "Jane-Doe-Resume.pdf")
                  Generator.after_a_run))
        = Generator.doc Generator.after_a_run ++ calls)
  /\ snd (Generator.generation Generator.example_libraries
            Generator.example_resume Generator.modern (lit "Jane-Doe-Resume.pdf")
            Generator.no_document)
     = snd (Generator.generation Generator.example_libraries'
              Generator.example_resume Generator.modern (lit "Jane-Doe-Resume.pdf")
              Generator.after_a_run)
  /\ Generator.generatePdfResume Generator.example_libraries
       Generator.example_resume Generator.modern (lit "Jane-Doe-Resume.pdf")
     = Generator.generatePdfResume Generator.example_libraries'
         Generator.example_resume Generator.modern (lit "Jane-Doe-Resume.pdf")
  /\ map Generator.page_count
       (Generator.saved_documents
          (Generator.generatePdfResume Generator.example_libraries
             Generator.example_resume Generator.modern (lit "Jane-Doe-Resume.pdf")))
     = map Generator.page_count
         (Generator.saved_documents
            (Generator.generatePdfResume Generator.example_libraries'
               Generator.example_resume Generator.modern (lit "Jane-Doe-Resume.pdf")))
  /\ map Generator.text_positions
       (Generator.saved_documents
          (Generator.generatePdfResume Generator.example_libraries
             Generator.example_resume Generator.modern (lit "Jane-Doe-Resume.pdf")))
     = map Generator.text_positions
         (Generator.saved_documents
            (Generator.generatePdfResume Generator.example_libraries'
               Generator.example_resume Generator.modern (lit "Jane-Doe-Resume.pdf"))).
Proof.
  apply (rendering_deterministic
           Generator.example_libraries Generator.example_libraries'
           Generator.example_resume Generator.modern (lit "Jane-Doe-Resume.pdf")
           Generator.no_document Generator.after_a_run).
  exact example_libraries_answer_alike.
Defined.

(** The two runs are alike because each starts with a renderer of its
    own: a section body alone is drawn at the cursor, 250 where the
    earlier run has left it and 0 where nothing has run. *)
Example body_is_drawn_at_the_cursor :
  Generator.text_positions
    (Generator.doc
       (fst (Generator.renderBody Generator.example_libraries (lit "Engineer.")
               Generator.after_a_run)))
  = [(20%Q, 250%Q)]
  /\ Generator.text_positions
       (Generator.doc
          (fst (Generator.renderBody Generator.example_libraries (lit "Engineer.")
                  Generator.no_document)))
     = [(20%Q, 0%Q)].
Proof. split; vm_compute; reflexivity. Qed.

(** * Further properties of the code *)

(** ** The sanitization pass on arbitrary text *)

Section SanitizeMore.

Import Sanitize Notions.

(** A match is white space, a star and one white space character. *)
Lemma bullet_match_shape s n :
  bullet_match s = Some n ->
  exists w d rest,
    s = w ++ STAR :: d :: rest /\ forallb is_space w = true
    /\ is_space d = true /\ n = length w + 2.
Proof.
  revert n. induction s as [|c s IH]; intros n; simpl; [discriminate|].
  destruct (is_space c) eqn:Ec.
  - destruct (bullet_match s) as [m|]; simpl; [|discriminate].
    intros [= <-]. destruct (IH m eq_refl) as (w & d & rest & -> & Hw & Hd & ->).
    exists (c :: w), d, rest. simpl. rewrite Ec, Hw. auto.
  - destruct (Ascii.eqb c STAR) eqn:Es; [|discriminate].
    apply Ascii.eqb_eq in Es. subst c.
    destruct s as [|d s']; [discriminate|].
    destruct (is_space d) eqn:Ed; [|discriminate]. intros [= <-].
    exists [], d, s'. auto.
Qed.

(** The scan from a position in either state: a bullet prefix becomes
    [- ], any other character is copied. *)
Lemma replace_bullets_cases b s :
  (exists w d rest,
     s = w ++ STAR :: d :: rest /\ forallb is_space w = true /\ is_space d = true
     /\ replace_bullets 0 b s
        = "-"%char :: SP :: replace_bullets 0 (is_line_terminator d) rest)
  \/ (match s with
      | [] => True
      | c :: s' =>
          replace_bullets 0 b s = c :: replace_bullets 0 (is_line_terminator c) s'
      end).
Proof.
  destruct s as [|c s']; [right; exact I|].
  destruct b; [|right; apply replace_bullets_mid].
  destruct (bullet_match (c :: s')) as [n|] eqn:E.
  - left. destruct (bullet_match_shape _ _ E) as (w & d & rest & Hs & Hw & Hd & _).
    exists w, d, rest. rewrite Hs at 2. rewrite replace_bullets_indent by assumption.
    auto.
  - right. apply replace_bullets_no_match, E.
Qed.

Lemma visible_app s t : visible (s ++ t) = visible s ++ visible t.
Proof. unfold visible. apply List.filter_app. Qed.

Lemma visible_spaces w : forallb is_space w = true -> visible w = [].
Proof.
  induction w as [|c w IH]; [reflexivity|]. simpl.
  destruct (is_space c) eqn:E; [|discriminate]. exact IH.
Qed.

(** Where no star can start a bullet, nothing matches at a line start. *)
Lemma no_bullet_star_no_match s :
  no_bullet_star false s = true -> bullet_match s = None.
Proof.
  induction s as [|c s IH]; [reflexivity|]. cbn [no_bullet_star bullet_match].
  intros H. apply andb_true_iff in H. destruct H as [Hc Hs].
  destruct (is_space c) eqn:Ec.
  - replace (if is_line_terminator c then false else false || negb true)
      with false in Hs by (destruct (is_line_terminator c); reflexivity).
    rewrite (IH Hs). reflexivity.
  - destruct (Ascii.eqb c STAR); [|reflexivity].
    destruct s as [|d s']; [reflexivity|]. simpl in Hc.
    destruct (is_space d); [discriminate|reflexivity].
Qed.

Lemma replace_bullets_no_bullet_star s :
  forall seen b, (b = true -> seen = false) ->
    no_bullet_star seen s = true -> replace_bullets 0 b s = s.
Proof.
  induction s as [|c s IH]; [reflexivity|]. intros seen b Hb H.
  assert (replace_bullets 0 b (c :: s)
          = c :: replace_bullets 0 (is_line_terminator c) s) as ->.
  { destruct b; [|apply replace_bullets_mid].
    apply replace_bullets_no_match, no_bullet_star_no_match.
    rewrite <- (Hb eq_refl). exact H. }
  cbn [no_bullet_star] in H. apply andb_true_iff in H. destruct H as [_ Hs].
  f_equal. eapply IH; [|exact Hs].
  intros ->. reflexivity.
Qed.

End SanitizeMore.

(** X1.  The sanitization pass never makes the text longer: every match
    it replaces has at least two characters, and [- ] has two. *)
Theorem sanitize_never_lengthens (resumeText : jsstring) :
  length (Sanitize.sanitize resumeText) <= length resumeText.
Proof.
  unfold Sanitize.sanitize. generalize true. revert resumeText.
  induction resumeText as [s IH] using (induction_ltof1 _ (@length ascii)).
  unfold ltof in IH. intros b.
  destruct (replace_bullets_cases b s) as [(w & d & rest & -> & _ & _ & ->)|H].
  - cbn [length]. rewrite length_app. cbn [length].
    specialize (IH rest). rewrite length_app in IH. cbn [length] in IH.
    specialize (IH ltac:(lia) (is_line_terminator d)). lia.
  - destruct s as [|c s']; [simpl; lia|]. rewrite H. cbn [length].
    specialize (IH s' ltac:(simpl; lia) (is_line_terminator c)). lia.
Qed.

(** X2.  A text none of whose stars can start a bullet comes out of the
    sanitization pass as it went in: a star is left alone when the
    character after it is not white space (the [**] that opens bold text)
    or when its line has a character that is not white space before it
    (the [**] that closes bold text, a product [2 * 3]). *)
Theorem sanitize_keeps_text_without_bullets (resumeText : jsstring) :
  Notions.no_bullet_star false resumeText = true ->
  Sanitize.sanitize resumeText = resumeText.
Proof.
  intros H. apply (replace_bullets_no_bullet_star resumeText false true); auto.
Qed.

Lemma sanitize_keeps_text_without_bullets_witness :
  Sanitize.sanitize (lit "**Technologies:** React, 2 * 3" ++ LF :: lit "- Go")
  = lit "**Technologies:** React, 2 * 3" ++ LF :: lit "- Go".
Proof.
  apply (sanitize_keeps_text_without_bullets
           (lit "**Technologies:** React, 2 * 3" ++ LF :: lit "- Go")).
  reflexivity.
Defined.

(** X3.  The sanitization pass touches white space and stars only: the
    characters of the result that are not white space are those of the
    input, in order, but for the stars it has turned into hyphens. *)
Theorem sanitize_keeps_visible_characters (resumeText : jsstring) :
  Forall2 Notions.kept_or_dash
    (Notions.visible resumeText)
    (Notions.visible (Sanitize.sanitize resumeText)).
Proof.
  unfold Sanitize.sanitize. generalize true. revert resumeText.
  induction resumeText as [s IH] using (induction_ltof1 _ (@length ascii)).
  unfold ltof in IH. intros b.
  destruct (replace_bullets_cases b s) as [(w & d & rest & -> & Hw & Hd & ->)|H].
  - rewrite visible_app, (visible_spaces w Hw).
    cbn [app Notions.visible List.filter].
    change (is_space STAR) with false. change (is_space "-"%char) with false.
    change (is_space SP) with true. rewrite Hd. cbn [negb].
    constructor; [right; auto|].
    apply IH. rewrite length_app. cbn [length]. lia.
  - destruct s as [|c s']; [constructor|]. rewrite H.
    cbn [Notions.visible List.filter].
    destruct (is_space c); cbn [negb].
    + apply IH. simpl. lia.
    + constructor; [left; reflexivity|]. apply IH. simpl. lia.
Qed.

(** ** The structural parse on arbitrary documents *)

Section TrimFacts.

Lemma trimEnd_idem s : trimEnd (trimEnd s) = trimEnd s.
Proof.
  induction s as [|c s IH]; [reflexivity|]. cbn [trimEnd].
  destruct (trimEnd s) as [|d t] eqn:E.
  - destruct (is_space c) eqn:Ec; [reflexivity|]. cbn [trimEnd]. rewrite Ec. reflexivity.
  - change (trimEnd (c :: d :: t))
      with (match trimEnd (d :: t) with
            | [] => if is_space c then [] else [c]
            | u => c :: u
            end).
    rewrite IH. reflexivity.
Qed.

(** What [trimEnd] removes is a suffix. *)
Lemma trimEnd_prefix s : exists t, s = trimEnd s ++ t.
Proof.
  induction s as [|c s [t IH]]; [exists []; reflexivity|]. cbn [trimEnd].
  destruct (trimEnd s) as [|d u] eqn:E.
  - destruct (is_space c).
    + exists (c :: s). reflexivity.
    + exists s. reflexivity.
  - exists t. cbn [app]. f_equal. exact IH.
Qed.

(** A text that [trimEnd] leaves alone has no removable suffix. *)
Lemma trimEnd_fixed_suffix a b : trimEnd (a ++ b) = a ++ b -> trimEnd b = b.
Proof.
  induction a as [|c a IH]; [auto|]. cbn [app trimEnd].
  destruct (trimEnd (a ++ b)) as [|d u] eqn:E.
  - intros H. assert (length (a ++ b) = 0) as Hl.
    { apply (f_equal (@length ascii)) in H. destruct (is_space c); simpl in H; lia. }
    destruct a; [|discriminate]. destruct b; [reflexivity|discriminate].
  - intros [= H]. apply IH. exact H.
Qed.

Lemma trimStart_shape s :
  trimStart s = [] \/ exists c t, trimStart s = c :: t /\ is_space c = false.
Proof.
  induction s as [|c s IH]; [left; reflexivity|]. cbn [trimStart].
  destruct (is_space c) eqn:E; [exact IH|]. right. exists c, s. auto.
Qed.

Lemma trim_shape s :
  trim s = [] \/ exists c t, trim s = c :: t /\ is_space c = false.
Proof.
  unfold trim. destruct (trimStart_shape s) as [->|(c & t & -> & Hc)];
    [left; reflexivity|].
  right. rewrite trimEnd_cons_visible by exact Hc. exists c, (trimEnd t). auto.
Qed.

Lemma trim_idem s : trim (trim s) = trim s.
Proof.
  destruct (trim_shape s) as [->|(c & t & E & Hc)]; [reflexivity|].
  unfold trim at 1. rewrite E, trimStart_visible by exact Hc. rewrite <- E.
  unfold trim. apply trimEnd_idem.
Qed.

Lemma trimEnd_trim s : trimEnd (trim s) = trim s.
Proof. unfold trim. apply trimEnd_idem. Qed.

(** [trim] commutes with a change of characters that keeps white space
    white space and other characters other. *)
Lemma trimStart_map (f : ascii -> ascii) s :
  (forall c, is_space (f c) = is_space c) ->
  trimStart (map f s) = map f (trimStart s).
Proof.
  intros Hf. induction s as [|c s IH]; [reflexivity|]. cbn [map trimStart].
  rewrite Hf. destruct (is_space c); [exact IH|reflexivity].
Qed.

Lemma trimEnd_map (f : ascii -> ascii) s :
  (forall c, is_space (f c) = is_space c) ->
  trimEnd (map f s) = map f (trimEnd s).
Proof.
  intros Hf. induction s as [|c s IH]; [reflexivity|]. cbn [map trimEnd].
  rewrite IH, Hf. destruct (trimEnd s); [destruct (is_space c)|]; reflexivity.
Qed.

Lemma lower_char_space c : is_space (lower_char c) = is_space c.
Proof. destruct c as [[] [] [] [] [] [] [] []]; reflexivity. Qed.

Lemma lower_char_idem c : lower_char (lower_char c) = lower_char c.
Proof. destruct c as [[] [] [] [] [] [] [] []]; reflexivity. Qed.

Lemma toLowerCase_idem s : toLowerCase (toLowerCase s) = toLowerCase s.
Proof.
  unfold toLowerCase. rewrite map_map. apply map_ext. exact lower_char_idem.
Qed.

Lemma trim_toLowerCase s : trim (toLowerCase s) = toLowerCase (trim s).
Proof.
  unfold trim, toLowerCase.
  rewrite trimStart_map, trimEnd_map by exact lower_char_space. reflexivity.
Qed.

End TrimFacts.

Section HeadingFreeFacts.

Lemma heading_ahead_prefix s t :
  heading_ahead s = true -> heading_ahead (s ++ t) = true.
Proof. destruct s as [|a [|b [|c s]]]; try discriminate. auto. Qed.

Lemma heading_free_weaken b s :
  heading_free b s = true -> heading_free false s = true.
Proof.
  destruct s as [|c s]; [reflexivity|]. cbn [heading_free].
  intros H. apply andb_true_iff in H. apply H.
Qed.

Lemma heading_free_prefix s t :
  forall b, heading_free b (s ++ t) = true -> heading_free b s = true.
Proof.
  induction s as [|c s IH]; intros b; [reflexivity|].
  change ((c :: s) ++ t) with (c :: s ++ t). cbn [heading_free].
  intros H. apply andb_true_iff in H. destruct H as [Hc Hs].
  apply andb_true_iff. split; [|eapply IH, Hs].
  destruct b; [|reflexivity]. cbn [andb] in *.
  destruct (heading_ahead (c :: s)) eqn:E; [|reflexivity].
  change (c :: s ++ t) with ((c :: s) ++ t) in Hc.
  rewrite (heading_ahead_prefix _ t E) in Hc. discriminate.
Qed.

Lemma heading_free_trimStart s :
  heading_free false s = true -> heading_free false (trimStart s) = true.
Proof.
  induction s as [|c s IH]; [reflexivity|]. intros H. cbn [trimStart].
  destruct (is_space c); [|exact H].
  apply IH. cbn [heading_free] in H. eapply heading_free_weaken, H.
Qed.

Lemma heading_free_trim s :
  heading_free false s = true -> heading_free false (trim s) = true.
Proof.
  intros H. apply heading_free_trimStart in H. unfold trim.
  destruct (trimEnd_prefix (trimStart s)) as [t E]. rewrite E in H.
  eapply heading_free_prefix, H.
Qed.

(** What follows a line terminator inside a text without an inner heading
    has no heading at any line start, its own start included. *)
Lemma heading_free_after_line a t s :
  is_line_terminator t = true ->
  forall b, heading_free b (a ++ t :: s) = true -> heading_free true s = true.
Proof.
  intros Ht. induction a as [|c a IH]; intros b H.
  - cbn [app heading_free] in H. rewrite Ht in H.
    apply andb_true_iff in H. apply H.
  - change ((c :: a) ++ t :: s) with (c :: a ++ t :: s) in H.
    cbn [heading_free] in H. apply andb_true_iff in H. eapply IH, H.
Qed.

Lemma split_headings_from_concat s :
  forall b, concat (split_headings_from b s) = s.
Proof.
  induction s as [|c s IH]; intros b; [reflexivity|].
  cbn [split_headings_from].
  specialize (IH (is_line_terminator c)).
  destruct (split_headings_from (is_line_terminator c) s) as [|p ps].
  - cbn [concat] in IH. subst s. destruct (b && heading_ahead [c]); reflexivity.
  - cbn [concat] in IH.
    destruct (b && heading_ahead (c :: s)); cbn [concat app]; rewrite IH; reflexivity.
Qed.

(** No piece of the split has a heading at a line start inside it; the
    first has none at its start either, in the state the split is entered. *)
Lemma split_headings_from_free s :
  forall b,
    Forall (fun p => heading_free false p = true) (split_headings_from b s)
    /\ heading_free b (hd [] (split_headings_from b s)) = true.
Proof.
  induction s as [|c s IH]; intros b.
  - cbn. split; [repeat constructor|reflexivity].
  - cbn [split_headings_from].
    destruct (IH (is_line_terminator c)) as [Hall Hhd].
    pose proof (split_headings_from_concat s (is_line_terminator c)) as Hcat.
    pose proof (split_headings_from_nonempty (is_line_terminator c) s) as Hne.
    destruct (split_headings_from (is_line_terminator c) s) as [|p ps]; [congruence|].
    cbn [hd concat] in *. apply Forall_cons in Hall as [_ Hps].
    assert (heading_free false (c :: p) = true) as Hcp by exact Hhd.
    destruct (b && heading_ahead (c :: s)) eqn:Ecut.
    + split; [|reflexivity]. repeat constructor; assumption.
    + split; [constructor; assumption|]. cbn [hd heading_free].
      rewrite Hhd, andb_true_r. apply negb_true_iff.
      destruct b; [|reflexivity]. cbn [andb] in *.
      destruct (heading_ahead (c :: p)) eqn:E; [|reflexivity].
      rewrite <- Hcat in Ecut.
      change (c :: p ++ concat ps) with ((c :: p) ++ concat ps) in Ecut.
      rewrite (heading_ahead_prefix _ _ E) in Ecut. discriminate.
Qed.

End HeadingFreeFacts.

Section ParseInvariants.

Import Parse.

(** A property of every title and content the pieces give is a property
    of every entry of the dictionary. *)
Lemma fold_add_part_invariant (P : jsstring -> jsstring -> Prop) parts :
  Forall (fun p => forall k v, section_of_part p = Some (k, v) -> P k v) parts ->
  forall o, (forall k v, o !! k = Some v -> P k v) ->
  forall k v, fold_left add_part parts o !! k = Some v -> P k v.
Proof.
  induction 1 as [|p parts Hp _ IH]; intros o Ho; [exact Ho|].
  cbn [fold_left]. apply IH. intros k v. unfold add_part.
  destruct (section_of_part p) as [[t c]|]; [|apply Ho].
  unfold obj_set. destruct (decide (t = proto_key)); [apply Ho|].
  destruct (decide (t = k)) as [->|Hne].
  - rewrite lookup_insert_eq. intros [= <-]. apply Hp. reflexivity.
  - rewrite lookup_insert_ne by exact Hne. apply Ho.
Qed.

Lemma section_of_part_inv part k v :
  section_of_part part = Some (k, v) ->
  exists l0 ls,
    split LF (trim part) = l0 :: ls
    /\ k = toLowerCase (trim (substring_from 3 l0))
    /\ v = join [LF] ls.
Proof.
  unfold section_of_part. destruct (trim part) as [|c t] eqn:E; [discriminate|].
  pose proof (split_nonempty LF (c :: t)) as Hne.
  destruct (split LF (c :: t)) as [|l0 ls]; [congruence|].
  intros [= <- <-]. exists l0, ls. split; [reflexivity|split; reflexivity].
Qed.

Lemma section_key_normalised part k v :
  section_of_part part = Some (k, v) -> toLowerCase k = k /\ trim k = k.
Proof.
  intros H. destruct (section_of_part_inv _ _ _ H) as (l0 & ls & _ & -> & _).
  split; [apply toLowerCase_idem|].
  rewrite trim_toLowerCase, trim_idem. reflexivity.
Qed.

Lemma section_content_clean part k v :
  heading_free false part = true ->
  section_of_part part = Some (k, v) ->
  trimEnd v = v /\ heading_free true v = true.
Proof.
  intros Hfree H. destruct (section_of_part_inv _ _ _ H) as (l0 & ls & Hs & _ & ->).
  destruct ls as [|l1 ls]; [split; reflexivity|].
  pose proof (join_split LF (trim part)) as Hj. rewrite Hs in Hj.
  rewrite join_cons in Hj by discriminate.
  split.
  - apply (trimEnd_fixed_suffix (l0 ++ [LF])). rewrite <- app_assoc, Hj.
    apply trimEnd_trim.
  - apply heading_free_trim in Hfree. rewrite <- Hj in Hfree.
    eapply (heading_free_after_line l0 LF); [reflexivity|exact Hfree].
Qed.

Lemma splits_of_free markdown :
  Forall (fun p => heading_free false p = true) (splits_of markdown).
Proof. unfold splits_of, split_headings. apply split_headings_from_free. Qed.

(** The two parses walk the same pieces. *)
Lemma fold_add_part_dictionary parts :
  forall acc,
    fold_left add_part parts (Notions.dictionary_of acc)
    = Notions.dictionary_of (fold_left Preview.add_part parts acc).
Proof.
  induction parts as [|p parts IH]; intros acc; [reflexivity|].
  cbn [fold_left]. rewrite <- IH. f_equal.
  unfold add_part, section_of_part, Preview.add_part.
  destruct (trim p); [reflexivity|].
  unfold Notions.dictionary_of. rewrite fold_left_app. reflexivity.
Qed.

End ParseInvariants.

(** X4.  Every key of the dictionary of sections is in lower case and has
    no white space at either end, whatever the document: a lookup under
    such a key, as the templates make, is the only one that can find a
    section.  The name [__proto__] is never a key. *)
Theorem section_keys_normalised (markdown key content : jsstring) :
  Parse.sections (Parse.parseResumeStructure markdown) !! key = Some content ->
  toLowerCase key = key /\ trim key = key /\ key <> Parse.proto_key.
Proof.
  intros H. split; [|split].
  - revert key content H. apply fold_add_part_invariant.
    + apply Forall_forall. intros p _ k v Hp. eapply section_key_normalised, Hp.
    + intros k v. rewrite lookup_empty. discriminate.
  - revert key content H. apply fold_add_part_invariant.
    + apply Forall_forall. intros p _ k v Hp. eapply section_key_normalised, Hp.
    + intros k v. rewrite lookup_empty. discriminate.
  - intros ->. cbn [Parse.parseResumeStructure Parse.sections] in H.
    rewrite fold_add_part_proto in H by apply lookup_empty. discriminate.
Qed.

Lemma section_keys_normalised_witness :
  toLowerCase (lit "work experience") = lit "work experience"
  /\ trim (lit "work experience") = lit "work experience"
  /\ lit "work experience" <> Parse.proto_key.
Proof.
  apply (section_keys_normalised
           (lit "Jane Doe" ++ LF :: lit "jane@example.com" ++ LF
            :: lit "##   Work EXPERIENCE  " ++ LF :: lit "- Acme")
           (lit "work experience") (lit "- Acme")).
  vm_compute. reflexivity.
Defined.

(** X5.  Every content of the dictionary of sections ends without white
    space and has no line that starts with [##] and a white space
    character: a section never holds the heading of another one. *)
Theorem section_content_has_no_heading (markdown key content : jsstring) :
  Parse.sections (Parse.parseResumeStructure markdown) !! key = Some content ->
  trimEnd content = content /\ heading_free true content = true.
Proof.
  revert key content. apply fold_add_part_invariant.
  - eapply Forall_impl; [apply splits_of_free|].
    intros p Hp k v Hs. exact (section_content_clean p k v Hp Hs).
  - intros k v. rewrite lookup_empty. discriminate.
Qed.

Lemma section_content_has_no_heading_witness :
  trimEnd (lit "Engineer." ++ LF :: lit "##Not a heading")
  = lit "Engineer." ++ LF :: lit "##Not a heading"
  /\ heading_free true (lit "Engineer." ++ LF :: lit "##Not a heading") = true.
Proof.
  apply (section_content_has_no_heading
           (lit "Jane Doe" ++ LF :: lit "jane@example.com" ++ LF
            :: lit "## Summary" ++ LF :: lit "Engineer." ++ LF
            :: lit "##Not a heading" ++ LF :: LF :: lit "## Skills" ++ LF :: lit "- Go")
           (lit "summary")).
  vm_compute. reflexivity.
Defined.

(** X6.  The parse of the generator and the parse of the preview agree on
    every document: the name and the contact line of the preview are the
    two header lines of the generator, the empty string standing for a
    line that is not there, and the dictionary of the generator holds the
    sections of the preview, in their order, under their lower-cased
    titles. *)
Theorem preview_and_generator_parse_agree (markdown : jsstring) :
  Preview.name (Preview.headerInfo (Preview.parseMarkdownForPreview markdown))
  = default [] (Parse.header (Parse.parseResumeStructure markdown) !! 0)
  /\ Preview.contact (Preview.headerInfo (Preview.parseMarkdownForPreview markdown))
     = default [] (Parse.header (Parse.parseResumeStructure markdown) !! 1)
  /\ Parse.sections (Parse.parseResumeStructure markdown)
     = Notions.dictionary_of
         (Preview.sections (Preview.parseMarkdownForPreview markdown)).
Proof.
  destruct (preview_header_total markdown) as [Hn Hc].
  rewrite !header_lookup by lia. split; [exact Hn|split; [exact Hc|]].
  destruct markdown as [|c s]; [reflexivity|].
  cbn [Parse.parseResumeStructure Parse.sections Preview.parseMarkdownForPreview
       Preview.sections].
  apply (fold_add_part_dictionary _ []).
Qed.

(** X7.  A document of at most two lines has no sections: all its lines
    are the header. *)
Theorem short_document_has_no_sections (markdown : jsstring) :
  length (split LF markdown) <= 2 ->
  Parse.header (Parse.parseResumeStructure markdown) = split LF markdown
  /\ Parse.sections (Parse.parseResumeStructure markdown) = ∅.
Proof.
  intros H. unfold Parse.parseResumeStructure, Parse.splits_of, slice_to, slice_from.
  cbn [Parse.header Parse.sections].
  rewrite take_ge, drop_ge by exact H. split; reflexivity.
Qed.

Lemma short_document_has_no_sections_witness :
  Parse.header
    (Parse.parseResumeStructure (lit "Jane Doe" ++ LF :: lit "## Summary"))
  = split LF (lit "Jane Doe" ++ LF :: lit "## Summary")
  /\ Parse.sections
       (Parse.parseResumeStructure (lit "Jane Doe" ++ LF :: lit "## Summary"))
     = ∅.
Proof.
  apply (short_document_has_no_sections (lit "Jane Doe" ++ LF :: lit "## Summary")).
  vm_compute. lia.
Defined.

(** X8.  The first two lines of a document are its header and nothing
    else: they are returned as they are, and the sections are those of
    the text after them, whatever the two lines hold (a heading on one of
    them is no section). *)
Theorem sections_ignore_header_lines (h0 h1 h0' h1' rest : jsstring) :
  LF ∉ h0 -> LF ∉ h1 -> LF ∉ h0' -> LF ∉ h1' ->
  Parse.header (Parse.parseResumeStructure (h0 ++ LF :: h1 ++ LF :: rest)) = [h0; h1]
  /\ Parse.sections (Parse.parseResumeStructure (h0 ++ LF :: h1 ++ LF :: rest))
     = Parse.sections (Parse.parseResumeStructure (h0' ++ LF :: h1' ++ LF :: rest)).
Proof.
  intros H0 H1 H0' H1'. split; [apply header_two_lines; assumption|].
  unfold Parse.parseResumeStructure. cbn [Parse.sections].
  rewrite !splits_of_after_header by assumption. reflexivity.
Qed.

Lemma sections_ignore_header_lines_witness :
  Parse.header
    (Parse.parseResumeStructure
       (lit "Jane Doe" ++ LF :: lit "## Summary" ++ LF :: lit "## Skills" ++ LF :: lit "- Go"))
  = [lit "Jane Doe"; lit "## Summary"]
  /\ Parse.sections
       (Parse.parseResumeStructure
          (lit "Jane Doe" ++ LF :: lit "## Summary" ++ LF :: lit "## Skills" ++ LF :: lit "- Go"))
     = Parse.sections
         (Parse.parseResumeStructure
            (lit "John Roe" ++ LF :: lit "john@example.com" ++ LF
             :: lit "## Skills" ++ LF :: lit "- Go")).
Proof.
  apply (sections_ignore_header_lines
           (lit "Jane Doe") (lit "## Summary") (lit "John Roe") (lit "john@example.com")
           (lit "## Skills" ++ LF :: lit "- Go")); compute_done.
Defined.

Section PreviewInvariants.

Import Parse.

(** The preview adds the section the generator stores, its title not yet
    in lower case. *)
Lemma preview_add_part_section acc part :
  match section_of_part part with
  | None => Preview.add_part acc part = acc
  | Some (k, v) =>
      exists t, trim t = t /\ k = toLowerCase t
                /\ Preview.add_part acc part = acc ++ [(t, v)]
  end.
Proof.
  unfold section_of_part, Preview.add_part. destruct (trim part); [reflexivity|].
  eexists. split; [apply trim_idem|split; reflexivity].
Qed.

Lemma fold_preview_add_part (P : jsstring * jsstring -> Prop) parts :
  Forall (fun p => forall k v t,
            section_of_part p = Some (k, v) -> trim t = t -> P (t, v)) parts ->
  forall acc, Forall P acc -> Forall P (fold_left Preview.add_part parts acc).
Proof.
  induction 1 as [|p parts Hp _ IH]; intros acc Hacc; [exact Hacc|].
  cbn [fold_left]. apply IH.
  pose proof (preview_add_part_section acc p) as H.
  destruct (section_of_part p) as [[k v]|].
  - destruct H as (t & Ht & _ & ->). apply Forall_app. split; [exact Hacc|].
    repeat constructor. eapply Hp; [reflexivity|exact Ht].
  - rewrite H. exact Hacc.
Qed.

End PreviewInvariants.

(** X9.  Every section of the preview has a title without white space
    at either end and a content that ends without white space and has no
    line starting with [##] and a white space character, whatever the
    document. *)
Theorem preview_sections_are_clean (markdown : jsstring) :
  Forall (fun tc =>
            trim (fst tc) = fst tc
            /\ trimEnd (snd tc) = snd tc
            /\ heading_free true (snd tc) = true)
    (Preview.sections (Preview.parseMarkdownForPreview markdown)).
Proof.
  destruct markdown as [|c s]; [constructor|].
  cbn [Preview.parseMarkdownForPreview Preview.sections].
  apply fold_preview_add_part; [|constructor].
  eapply Forall_impl; [apply (splits_of_free (c :: s))|].
  intros p Hp k v t Hs Ht. cbn [fst snd]. split; [exact Ht|].
  exact (section_content_clean p k v Hp Hs).
Qed.

(** ** The download dialog *)

Section DownloadFacts.

Import Download.

Lemma endsWith_app s suffix : endsWith (s ++ suffix) suffix = true.
Proof.
  unfold endsWith. rewrite length_app.
  apply andb_true_iff. split; [apply Nat.leb_le; lia|].
  apply bool_decide_eq_true.
  replace (length s + length suffix - length suffix) with (length s) by lia.
  apply drop_app_length.
Qed.

(** Whether a text ends with a suffix is decided by its end. *)
Lemma endsWith_app_long s t suffix :
  length suffix <= length t -> endsWith (s ++ t) suffix = endsWith t suffix.
Proof.
  intros H. unfold endsWith. rewrite length_app.
  replace (length suffix <=? length s + length t) with true
    by (symmetry; apply Nat.leb_le; lia).
  replace (length suffix <=? length t) with true
    by (symmetry; apply Nat.leb_le; lia).
  cbn [andb].
  replace (length s + length t - length suffix)
    with (length s + (length t - length suffix)) by lia.
  rewrite drop_app_add. reflexivity.
Qed.

Lemma toLowerCase_app s t : toLowerCase (s ++ t) = toLowerCase s ++ toLowerCase t.
Proof. apply map_app. Qed.

Lemma hyphenate_no_space s :
  forall in_run, Forall (fun c => is_space c = false) (hyphenate in_run s).
Proof.
  induction s as [|c s IH]; intros in_run; [constructor|]. cbn [hyphenate].
  destruct (is_space c) eqn:E.
  - destruct in_run; [apply IH|]. constructor; [reflexivity|apply IH].
  - constructor; [exact E|apply IH].
Qed.

Lemma suggestedName_cases name :
  suggestedName name = lit "AI-Generated-Resume"
  \/ suggestedName name = hyphenate false (trim name) ++ lit "-Resume".
Proof. destruct name; [left|right]; reflexivity. Qed.

Lemma trim_no_space s : Forall (fun c => is_space c = false) s -> trim s = s.
Proof.
  intros H. unfold trim.
  assert (trimStart s = s) as ->
    by (destruct H as [|c s Hc _]; [reflexivity|apply trimStart_visible, Hc]).
  induction H as [|c s Hc _ IH]; [reflexivity|].
  rewrite trimEnd_cons_visible by exact Hc. rewrite IH. reflexivity.
Qed.

Lemma finalFilename_ends_in_pdf filename :
  endsWith (toLowerCase (finalFilename filename)) (lit ".pdf") = true.
Proof.
  unfold finalFilename.
  destruct (endsWith (toLowerCase filename) (lit ".pdf")) eqn:E; [exact E|].
  rewrite toLowerCase_app. apply endsWith_app.
Qed.

End DownloadFacts.

(** X10.  The name a download is saved under always ends in [.pdf], in
    any case of the letters: a name that ends so is kept as it is, any
    other gets [.pdf] appended; doing it twice changes nothing more. *)
Theorem download_name_ends_in_pdf (filename : jsstring) :
  Download.endsWith (toLowerCase (Download.finalFilename filename)) (lit ".pdf") = true
  /\ Download.finalFilename (Download.finalFilename filename)
     = Download.finalFilename filename.
Proof.
  pose proof (finalFilename_ends_in_pdf filename) as H.
  split; [exact H|].
  unfold Download.finalFilename at 1. rewrite H. reflexivity.
Qed.

(** X11.  A download with a blank file name does nothing and leaves the
    dialog open.  Any other download closes the dialog, and if it saves a
    file, the name of the file ends in [.pdf]. *)
Theorem download_saves_pdf_or_nothing
  (lib : Generator.Libraries) (filename resumeText : jsstring)
  (downloadTemplate : Generator.TemplateId) :
  (trim filename = [] ->
   Download.handleDownload lib filename resumeText downloadTemplate
   = {| Download.effects := []; Download.isModalOpen := true |})
  /\ (trim filename <> [] ->
      Download.isModalOpen
        (Download.handleDownload lib filename resumeText downloadTemplate) = false)
  /\ (forall name calls,
        Generator.FileSaved name calls
          ∈ Download.effects
              (Download.handleDownload lib filename resumeText downloadTemplate) ->
        name = Download.finalFilename filename
        /\ Download.endsWith (toLowerCase name) (lit ".pdf") = true).
Proof.
  unfold Download.handleDownload. destruct (trim filename) as [|c t] eqn:E.
  - split; [reflexivity|]. split; [congruence|].
    cbn [Download.effects]. intros name calls H. apply elem_of_nil in H as [].
  - split; [discriminate|]. split; [reflexivity|].
    cbn [Download.effects]. unfold Generator.generatePdfResume.
    intros name calls H.
    destruct (Generator.bind _ _ _) as [st [[]|]].
    + apply list_elem_of_singleton in H. injection H as -> _.
      split; [reflexivity|apply finalFilename_ends_in_pdf].
    + apply elem_of_cons in H as [H|H]; [discriminate|].
      apply list_elem_of_singleton in H. discriminate.
Qed.

Lemma download_saves_pdf_or_nothing_witness :
  Download.handleDownload Generator.example_libraries (lit "   ")
    Generator.example_resume Generator.classic
  = {| Download.effects := []; Download.isModalOpen := true |}.
Proof.
  apply (download_saves_pdf_or_nothing Generator.example_libraries (lit "   ")
           Generator.example_resume Generator.classic).
  reflexivity.
Defined.

(** X12.  The file name the dialog suggests has no white space and is not
    blank, whatever the name line of the resume; it never ends in [.pdf],
    so a download under the suggested name saves that name with [.pdf]
    appended. *)
Theorem suggested_name_is_a_file_name (name : jsstring) :
  Forall (fun c => is_space c = false) (Download.suggestedName name)
  /\ trim (Download.suggestedName name) <> []
  /\ Download.finalFilename (Download.suggestedName name)
     = Download.suggestedName name ++ lit ".pdf".
Proof.
  assert (Forall (fun c => is_space c = false) (Download.suggestedName name)) as Hv.
  { destruct (suggestedName_cases name) as [->| ->]; [compute_done|].
    apply Forall_app. split; [apply hyphenate_no_space|compute_done]. }
  split; [exact Hv|]. split.
  - rewrite trim_no_space by exact Hv.
    destruct (suggestedName_cases name) as [->| ->]; [discriminate|].
    intros H. apply app_eq_nil in H as [_ H]. discriminate.
  - unfold Download.finalFilename.
    destruct (suggestedName_cases name) as [->| ->]; [reflexivity|].
    rewrite toLowerCase_app, endsWith_app_long by (cbn; lia). reflexivity.
Qed.

(** ** The extracted text *)

Section CleanFacts.

Import Notions Extractor.

Lemma visible_not_SP c : is_space c = false -> Ascii.eqb c SP = false.
Proof. intros H. apply Ascii.eqb_neq. intros ->. discriminate. Qed.

Lemma visible_not_LF c : is_space c = false -> Ascii.eqb c LF = false.
Proof. intros H. apply Ascii.eqb_neq. intros ->. discriminate. Qed.

Lemma well_spaced_SP r s :
  well_spaced r (SP :: s) = r && starts_visible s && well_spaced false s.
Proof. reflexivity. Qed.

Lemma well_spaced_LF r s : well_spaced r (LF :: s) = well_spaced false s.
Proof. reflexivity. Qed.

Lemma well_spaced_visible r c s :
  is_space c = false -> well_spaced r (c :: s) = well_spaced true s.
Proof.
  intros E. cbn [well_spaced].
  rewrite (visible_not_SP c E), (visible_not_LF c E), E. reflexivity.
Qed.

(** After a white space character the collapsed text goes on with a
    character that is not one, if it goes on. *)
Lemma collapse_true_head l :
  collapse_spaces true l = [] \/ starts_visible (collapse_spaces true l) = true.
Proof.
  induction l as [|c l IH]; [left; reflexivity|]. cbn [collapse_spaces].
  destruct (is_space c) eqn:E; [exact IH|]. right. cbn. rewrite E. reflexivity.
Qed.

Lemma trimEnd_starts_visible s :
  starts_visible s = true -> starts_visible (trimEnd s) = true.
Proof.
  destruct s as [|c s]; [discriminate|]. cbn [starts_visible]. intros H.
  apply negb_true_iff in H. rewrite trimEnd_cons_visible by exact H.
  cbn. rewrite H. reflexivity.
Qed.

Lemma trimStart_collapse l :
  forall r, trimStart (collapse_spaces r l) = collapse_spaces true l.
Proof.
  induction l as [|c l IH]; intros r; [reflexivity|]. cbn [collapse_spaces].
  destruct (is_space c) eqn:E.
  - destruct r; [apply IH|]. cbn [trimStart]. change (is_space SP) with true.
    cbv iota. apply IH.
  - cbn [trimStart]. rewrite E. reflexivity.
Qed.

Lemma clean_line_collapse line : clean_line line = trimEnd (collapse_spaces true line).
Proof. unfold clean_line, trim. rewrite trimStart_collapse. reflexivity. Qed.

Lemma clean_core l :
  forall r, well_spaced r (trimEnd (collapse_spaces (negb r) l)) = true.
Proof.
  induction l as [|c l IH]; intros r; [reflexivity|]. cbn [collapse_spaces].
  destruct (is_space c) eqn:E.
  - destruct r; cbn [negb]; [|apply (IH false)].
    rewrite trimEnd_cons_space by reflexivity.
    pose proof (IH false) as Hw. cbn [negb] in Hw.
    destruct (collapse_true_head l) as [Hn|Hv].
    + rewrite Hn. reflexivity.
    + apply trimEnd_starts_visible in Hv.
      destruct (trimEnd (collapse_spaces true l)) as [|d u]; [reflexivity|].
      rewrite well_spaced_SP, Hv, Hw. reflexivity.
  - rewrite trimEnd_cons_visible by exact E.
    rewrite well_spaced_visible by exact E. apply (IH true).
Qed.

Lemma clean_line_well_spaced line : well_spaced false (clean_line line) = true.
Proof. rewrite clean_line_collapse. apply (clean_core line false). Qed.

Lemma starts_visible_app s t :
  starts_visible s = true -> starts_visible (s ++ t) = true.
Proof. destruct s; [discriminate|auto]. Qed.

Lemma well_spaced_app_line a b :
  well_spaced false b = true ->
  forall r, well_spaced r a = true -> well_spaced r (a ++ LF :: b) = true.
Proof.
  intros Hb. induction a as [|c a IH]; intros r Ha; [exact Hb|].
  change ((c :: a) ++ LF :: b) with (c :: a ++ LF :: b).
  cbn [well_spaced] in *.
  destruct (Ascii.eqb c SP).
  - apply andb_true_iff in Ha as [Ha Hw]. apply andb_true_iff in Ha as [Hr Hv].
    rewrite Hr, (starts_visible_app _ _ Hv), (IH _ Hw). reflexivity.
  - destruct (Ascii.eqb c LF); [apply IH, Ha|].
    apply andb_true_iff in Ha as [Hc Hw]. rewrite Hc, (IH _ Hw). reflexivity.
Qed.

Lemma well_spaced_join_lines ls :
  Forall (fun l => well_spaced false l = true) ls ->
  well_spaced false (join [LF] ls) = true.
Proof.
  induction 1 as [|l ls Hl Hls IH]; [reflexivity|].
  destruct ls as [|l' ls]; [exact Hl|].
  rewrite join_cons by discriminate. cbn [app].
  apply well_spaced_app_line; assumption.
Qed.

Lemma well_spaced_join_pages ps :
  Forall (fun p => well_spaced false p = true) ps ->
  well_spaced false (join [LF; LF] ps) = true.
Proof.
  induction 1 as [|p ps Hp Hps IH]; [reflexivity|].
  destruct ps as [|p' ps]; [exact Hp|].
  rewrite join_cons by discriminate. cbn [app].
  apply well_spaced_app_line; assumption.
Qed.

Lemma well_spaced_trimStart s :
  well_spaced false s = true -> well_spaced false (trimStart s) = true.
Proof.
  induction s as [|c s IH]; [reflexivity|]. intros H. cbn [trimStart].
  destruct (is_space c) eqn:E; [|exact H].
  apply IH. cbn [well_spaced] in H.
  destruct (Ascii.eqb c SP); [discriminate|].
  destruct (Ascii.eqb c LF); [exact H|]. rewrite E in H. discriminate.
Qed.

Lemma well_spaced_trimEnd s :
  forall r, well_spaced r s = true -> well_spaced r (trimEnd s) = true.
Proof.
  induction s as [|c s IH]; intros r H; [reflexivity|].
  cbn [well_spaced] in H.
  destruct (Ascii.eqb c SP) eqn:Es.
  - apply Ascii.eqb_eq in Es. subst c.
    apply andb_true_iff in H as [H Hw]. apply andb_true_iff in H as [Hr Hv].
    rewrite trimEnd_cons_space by reflexivity.
    pose proof (IH false Hw) as Hw'. apply trimEnd_starts_visible in Hv.
    destruct (trimEnd s) as [|d u]; [reflexivity|].
    rewrite well_spaced_SP, Hr, Hv, Hw'. reflexivity.
  - destruct (Ascii.eqb c LF) eqn:El.
    + apply Ascii.eqb_eq in El. subst c.
      rewrite trimEnd_cons_space by reflexivity.
      pose proof (IH false H) as Hw'.
      destruct (trimEnd s) as [|d u]; [reflexivity|].
      rewrite well_spaced_LF. exact Hw'.
    + apply andb_true_iff in H as [Hc Hw]. apply negb_true_iff in Hc.
      rewrite trimEnd_cons_visible by exact Hc.
      rewrite well_spaced_visible by exact Hc. apply IH, Hw.
Qed.

Lemma page_text_well_spaced engine items :
  well_spaced false (page_text engine items) = true.
Proof.
  unfold page_text. destruct items as [|i items]; [reflexivity|].
  apply well_spaced_join_lines, Forall_map, Forall_forall.
  intros l _. apply clean_line_well_spaced.
Qed.

(** *** What is not white space goes through *)

Lemma visible_trimStart s : visible (trimStart s) = visible s.
Proof.
  induction s as [|c s IH]; [reflexivity|]. cbn [trimStart].
  destruct (is_space c) eqn:E; [|reflexivity].
  rewrite IH. cbn [visible List.filter]. rewrite E. reflexivity.
Qed.

Lemma visible_trimEnd s : visible (trimEnd s) = visible s.
Proof.
  induction s as [|c s IH]; [reflexivity|]. cbn [trimEnd].
  cbn [visible List.filter]. fold (visible s). rewrite <- IH.
  destruct (trimEnd s) as [|d u].
  - destruct (is_space c) eqn:E; cbn [visible List.filter]; rewrite ?E; reflexivity.
  - reflexivity.
Qed.

Lemma visible_trim s : visible (trim s) = visible s.
Proof. unfold trim. rewrite visible_trimEnd. apply visible_trimStart. Qed.

Lemma visible_collapse s : forall r, visible (collapse_spaces r s) = visible s.
Proof.
  induction s as [|c s IH]; intros r; [reflexivity|]. cbn [collapse_spaces].
  cbn [visible List.filter]. fold (visible s).
  destruct (is_space c) eqn:E; cbn [negb].
  - destruct r; [apply IH|]. cbn [visible List.filter]. apply IH.
  - cbn [visible List.filter]. rewrite E. cbn [negb]. f_equal. apply IH.
Qed.

Lemma visible_clean_line line : visible (clean_line line) = visible line.
Proof. unfold clean_line. rewrite visible_trim. apply visible_collapse. Qed.

Lemma visible_join sep ls :
  visible sep = [] -> visible (join sep ls) = concat (map visible ls).
Proof.
  intros Hsep. induction ls as [|l ls IH]; [reflexivity|].
  destruct ls as [|l' ls].
  - cbn. rewrite app_nil_r. reflexivity.
  - rewrite join_cons by discriminate. rewrite !visible_app, Hsep, IH. reflexivity.
Qed.

Lemma visible_concat ls : visible (concat ls) = concat (map visible ls).
Proof.
  induction ls as [|l ls IH]; [reflexivity|].
  cbn [concat map]. rewrite visible_app, IH. reflexivity.
Qed.

(** The text walked so far. *)
Lemma visible_step st item :
  visible (concat (lines (step st item)) ++ currentLine (step st item))
  = visible (concat (lines st) ++ currentLine st) ++ visible (str item).
Proof.
  unfold step.
  destruct (Number.gt (PrimFloat.abs (y item - lastY st)) (height item * 0.7));
    cbn [lines currentLine].
  - rewrite concat_app. cbn [concat]. rewrite app_nil_r. apply visible_app.
  - destruct (Number.gt (x item - lastX_end st) (charWidth item * 0.25));
      rewrite !visible_app; [|rewrite app_assoc; reflexivity].
    change (visible (SP :: str item)) with (visible (str item)).
    rewrite app_assoc. reflexivity.
Qed.

Lemma visible_walk rest :
  forall st,
    visible (concat (lines (fold_left step rest st))
             ++ currentLine (fold_left step rest st))
    = visible (concat (lines st) ++ currentLine st)
      ++ visible (concat (map str rest)).
Proof.
  induction rest as [|item rest IH]; intros st.
  - cbn. rewrite app_nil_r. reflexivity.
  - cbn [fold_left map concat]. rewrite IH, visible_step.
    rewrite (visible_app (str item)), <- app_assoc. reflexivity.
Qed.

Lemma visible_assemble_lines sortedItems :
  visible (concat (assemble_lines sortedItems))
  = visible (concat (map str sortedItems)).
Proof.
  destruct sortedItems as [|first rest]; [reflexivity|].
  unfold assemble_lines. rewrite concat_app. cbn [concat]. rewrite app_nil_r.
  rewrite visible_walk. cbn [lines currentLine concat app map].
  rewrite visible_app. reflexivity.
Qed.

Lemma visible_page_text engine items :
  visible (page_text engine items)
  = visible (concat (map str (sortedItems engine items))).
Proof.
  unfold page_text. destruct items as [|i items].
  { pose proof (array_sort_perm engine compare_items []) as Hp.
    apply Permutation_sym, Permutation_nil in Hp.
    unfold sortedItems. rewrite Hp. reflexivity. }
  rewrite visible_join by reflexivity. rewrite map_map.
  rewrite (map_ext _ visible) by (intros; apply visible_clean_line).
  rewrite <- visible_concat. apply visible_assemble_lines.
Qed.

Lemma visible_permutation s t : Permutation s t -> Permutation (visible s) (visible t).
Proof.
  unfold visible.
  induction 1 as [|c s t _ IH|c d s|s t u _ IH1 _ IH2]; cbn [List.filter].
  - constructor.
  - destruct (negb (is_space c)); [constructor|]; exact IH.
  - destruct (negb (is_space c)), (negb (is_space d));
      first [apply perm_swap | reflexivity].
  - etransitivity; eassumption.
Qed.

Lemma concat_permutation {A} (ls ls' : list (list A)) :
  Permutation ls ls' -> Permutation (concat ls) (concat ls').
Proof.
  induction 1 as [|l ls ls' _ IH|l l' ls|ls ls' ls'' _ IH1 _ IH2]; cbn [concat].
  - constructor.
  - apply Permutation_app_head, IH.
  - rewrite !app_assoc. apply Permutation_app_tail, Permutation_app_comm.
  - etransitivity; eassumption.
Qed.

(** *** Lines *)

Lemma Forall_trimStart (P : ascii -> Prop) s : Forall P s -> Forall P (trimStart s).
Proof.
  induction 1 as [|c s Hc Hs IH]; [constructor|]. cbn [trimStart].
  destruct (is_space c); [exact IH|constructor; assumption].
Qed.

Lemma Forall_trimEnd (P : ascii -> Prop) s : Forall P s -> Forall P (trimEnd s).
Proof.
  induction 1 as [|c s Hc Hs IH]; [constructor|]. cbn [trimEnd].
  destruct (trimEnd s) as [|d u].
  - destruct (is_space c); [constructor|repeat constructor; exact Hc].
  - constructor; assumption.
Qed.

Lemma collapse_no_line_feed s :
  forall r, Forall (fun c => c <> LF) (collapse_spaces r s).
Proof.
  induction s as [|c s IH]; intros r; [constructor|]. cbn [collapse_spaces].
  destruct (is_space c) eqn:E.
  - destruct r; [apply IH|]. constructor; [discriminate|apply IH].
  - constructor; [|apply IH]. intros ->. discriminate.
Qed.

Lemma clean_line_no_line_feed line : LF ∉ clean_line line.
Proof.
  intros H. unfold clean_line, trim in H.
  pose proof (Forall_trimEnd _ _ (Forall_trimStart _ _ (collapse_no_line_feed line false)))
    as HF.
  rewrite Forall_forall in HF. exact (HF LF H eq_refl).
Qed.

(** Joining lines without a line feed and splitting again gives back the
    lines. *)
Lemma split_join ls :
  ls <> [] -> Forall (fun l => LF ∉ l) ls -> split LF (join [LF] ls) = ls.
Proof.
  intros Hne H. induction H as [|l ls Hl Hls IH]; [congruence|].
  destruct ls as [|l' ls].
  - cbn [join]. apply split_no_sep, Hl.
  - rewrite join_cons by discriminate. cbn [app].
    rewrite split_app_sep by exact Hl. rewrite IH by discriminate. reflexivity.
Qed.

Lemma walk_lines_length rest :
  forall st,
    length (lines (fold_left step rest st)) <= length (lines st) + length rest.
Proof.
  induction rest as [|item rest IH]; intros st; [simpl; lia|].
  cbn [fold_left length]. specialize (IH (step st item)).
  assert (length (lines (step st item)) <= S (length (lines st))).
  { unfold step.
    destruct (Number.gt (PrimFloat.abs (y item - lastY st)) (height item * 0.7));
      cbn [lines]; [rewrite length_app; simpl|]; lia. }
  lia.
Qed.

Lemma assemble_lines_length sortedItems :
  sortedItems <> [] ->
  1 <= length (assemble_lines sortedItems) <= length sortedItems.
Proof.
  destruct sortedItems as [|first rest]; [congruence|]. intros _.
  unfold assemble_lines. rewrite length_app. cbn [length].
  pose proof (walk_lines_length rest
                {| lines := []; currentLine := str first; lastY := y first;
                   lastX_end := (x first + width first)%float |}) as H.
  cbn [lines length] in H. lia.
Qed.

(** *** Blank pages *)

Lemma trimEnd_app_spaces s w : forallb is_space w = true -> trimEnd (s ++ w) = trimEnd s.
Proof.
  intros Hw.
  assert (trimEnd w = []) as Hn.
  { induction w as [|c w IH]; [reflexivity|]. cbn [forallb] in Hw.
    apply andb_true_iff in Hw as [Hc Hw]. cbn [trimEnd]. rewrite (IH Hw), Hc.
    reflexivity. }
  induction s as [|c s IH]; [exact Hn|].
  change ((c :: s) ++ w) with (c :: s ++ w). cbn [trimEnd]. rewrite IH. reflexivity.
Qed.

Lemma trimStart_spaces w s : forallb is_space w = true -> trimStart (w ++ s) = trimStart s.
Proof.
  induction w as [|c w IH]; [reflexivity|]. cbn [forallb app trimStart].
  intros H. apply andb_true_iff in H as [Hc Hw]. rewrite Hc. apply IH, Hw.
Qed.

Lemma trimStart_app_visible s w :
  trimStart s <> [] -> trimStart (s ++ w) = trimStart s ++ w.
Proof.
  induction s as [|c s IH]; [intros H; contradiction H; reflexivity|].
  cbn [app trimStart]. destruct (is_space c); [exact IH|reflexivity].
Qed.

Lemma trim_app_spaces s w : forallb is_space w = true -> trim (s ++ w) = trim s.
Proof.
  intros Hw. unfold trim. destruct (trimStart s) as [|c t] eqn:E.
  - assert (forallb is_space s = true) as Hs.
    { clear Hw. induction s as [|d s IH]; [reflexivity|]. cbn [trimStart] in E.
      cbn [forallb]. destruct (is_space d); [apply IH, E|discriminate]. }
    rewrite trimStart_spaces by exact Hs.
    replace (trimStart w) with (trimStart (w ++ [])) by (rewrite app_nil_r; reflexivity).
    rewrite trimStart_spaces by exact Hw. reflexivity.
  - rewrite trimStart_app_visible by congruence. rewrite E.
    apply trimEnd_app_spaces, Hw.
Qed.

Lemma join_snoc sep ls l :
  ls <> [] -> join sep (ls ++ [l]) = join sep ls ++ sep ++ l.
Proof.
  intros Hne. induction ls as [|a ls IH]; [congruence|].
  destruct ls as [|b ls].
  - reflexivity.
  - change ((a :: b :: ls) ++ [l]) with (a :: (b :: ls) ++ [l]).
    rewrite join_cons by discriminate. rewrite IH by discriminate.
    rewrite (join_cons sep a (b :: ls)) by discriminate.
    rewrite <- !app_assoc. reflexivity.
Qed.

End CleanFacts.

(** X13.  In the extracted text the only white space is the space and the
    line feed, every space stands between two characters that are not
    white space, and the text neither starts nor ends with white space:
    whatever the runs hold (tabs, line feeds, no-break spaces, runs of
    spaces), lines come out single-spaced and trimmed. *)
Theorem extracted_text_is_well_spaced
  (engine : ArraySort.Engine) (pages : list (list Extractor.TextItem)) :
  Notions.well_spaced false (Extractor.extract_text engine pages) = true
  /\ trim (Extractor.extract_text engine pages) = Extractor.extract_text engine pages.
Proof.
  split; [|apply trim_idem].
  unfold Extractor.extract_text, trim.
  apply well_spaced_trimEnd, well_spaced_trimStart, well_spaced_join_pages.
  apply Forall_map, Forall_forall. intros items _. apply page_text_well_spaced.
Qed.

(** X14.  The line feeds of a page's text are those between the lines the
    walk has formed and no others: whatever order the engine sorts the
    runs in, the lines of the text of a page with runs are the cleaned
    lines of the walk over the sorted runs, a run whose text holds a line
    feed adds none, and a page of [n] runs has between one and [n]
    lines. *)
Theorem page_text_lines
  (engine : ArraySort.Engine) (items : list Extractor.TextItem) :
  items <> [] ->
  split LF (Extractor.page_text engine items)
  = map Extractor.clean_line
      (Extractor.assemble_lines (Extractor.sortedItems engine items))
  /\ 1 <= length (split LF (Extractor.page_text engine items)) <= length items.
Proof.
  intros Hne.
  pose proof (array_sort_perm engine Extractor.compare_items items) as Hp.
  fold (Extractor.sortedItems engine items) in Hp.
  assert (Extractor.sortedItems engine items <> []) as Hs.
  { intros E. rewrite E in Hp. apply Permutation_nil in Hp. congruence. }
  pose proof (assemble_lines_length _ Hs) as Hlen.
  rewrite (Permutation_length Hp) in Hlen.
  assert (split LF (Extractor.page_text engine items)
          = map Extractor.clean_line
              (Extractor.assemble_lines (Extractor.sortedItems engine items))) as ->.
  { unfold Extractor.page_text. destruct items as [|i items]; [congruence|].
    apply split_join.
    - intros E. apply map_eq_nil in E. rewrite E in Hlen. simpl in Hlen. lia.
    - apply Forall_map, Forall_forall. intros l _. apply clean_line_no_line_feed. }
  split; [reflexivity|]. rewrite length_map. exact Hlen.
Qed.

Lemma page_text_lines_witness :
  split LF
    (Extractor.page_text insertion_engine
       [ {| Extractor.str := lit "Skills" ++ LF :: lit " Go"; Extractor.x := 72;
            Extractor.y := 700; Extractor.width := 60; Extractor.height := 12 |};
         {| Extractor.str := lit "Jane Doe"; Extractor.x := 72;
            Extractor.y := 720; Extractor.width := 60; Extractor.height := 12 |} ])
  = [lit "Jane Doe"; lit "Skills Go"].
Proof.
  refine (eq_trans (proj1 (page_text_lines insertion_engine
     [ {| Extractor.str := lit "Skills" ++ LF :: lit " Go"; Extractor.x := 72;
          Extractor.y := 700; Extractor.width := 60; Extractor.height := 12 |};
       {| Extractor.str := lit "Jane Doe"; Extractor.x := 72;
          Extractor.y := 720; Extractor.width := 60; Extractor.height := 12 |} ] _)) _).
  - discriminate.
  - vm_compute. reflexivity.
Defined.

(** X15.  The extraction loses, repeats and invents no character that is
    not white space: those of the extracted text are those of the runs,
    page after page, the runs of a page in the order in which the engine
    has sorted them; so they are a rearrangement of those of all the runs
    given, whatever the engine and the comparator make of the order. *)
Theorem extraction_keeps_visible_characters
  (engine : ArraySort.Engine) (pages : list (list Extractor.TextItem)) :
  Notions.visible (Extractor.extract_text engine pages)
  = concat
      (map (fun items =>
              Notions.visible
                (concat (map Extractor.str (Extractor.sortedItems engine items))))
           pages)
  /\ Permutation
       (Notions.visible (Extractor.extract_text engine pages))
       (Notions.visible (concat (map Extractor.str (concat pages)))).
Proof.
  assert (Notions.visible (Extractor.extract_text engine pages)
          = concat
              (map (fun items =>
                      Notions.visible
                        (concat (map Extractor.str
                                   (Extractor.sortedItems engine items))))
                   pages)) as H.
  { unfold Extractor.extract_text. rewrite visible_trim.
    rewrite visible_join by reflexivity. rewrite map_map. f_equal.
    apply map_ext. intros items. apply visible_page_text. }
  split; [exact H|]. rewrite H. clear H.
  induction pages as [|items pages IH]; [reflexivity|].
  cbn [map concat]. rewrite map_app, concat_app, visible_app.
  apply Permutation_app; [|exact IH].
  apply visible_permutation, concat_permutation, Permutation_map.
  apply (array_sort_perm engine Extractor.compare_items items).
Qed.

(** X16.  A blank page at the start or at the end of the document leaves
    no trace in the extracted text, and a document of blank pages only
    gives the empty text. *)
Theorem blank_pages_at_the_ends_vanish
  (engine : ArraySort.Engine) (pages : list (list Extractor.TextItem)) :
  Extractor.extract_text engine ([] :: pages) = Extractor.extract_text engine pages
  /\ Extractor.extract_text engine (pages ++ [[]]) = Extractor.extract_text engine pages
  /\ forall n, Extractor.extract_text engine (replicate n []) = [].
Proof.
  assert (forall ps, Extractor.extract_text engine ([] :: ps)
                     = Extractor.extract_text engine ps) as H.
  { intros ps. unfold Extractor.extract_text. destruct ps as [|p ps]; [reflexivity|].
    cbn [map]. rewrite join_cons by discriminate. reflexivity. }
  split; [apply H|]. split.
  - unfold Extractor.extract_text. destruct pages as [|p ps]; [reflexivity|].
    rewrite map_app. cbn [map Extractor.page_text].
    rewrite join_snoc by discriminate. rewrite app_nil_r.
    apply trim_app_spaces. reflexivity.
  - induction n as [|n IH]; [reflexivity|]. cbn [replicate]. rewrite H. exact IH.
Qed.

Section SeparateLines.

Import Notions Extractor.

Lemma apart_sym a b : apart a b = apart b a.
Proof. unfold apart. apply andb_comm. Qed.

Lemma apart_spec a b :
  apart a b = true ->
  Number.gt (PrimFloat.abs (y a - y b)) 4 = true /\ breaks_line a b = true.
Proof.
  unfold apart, far_from. intros H.
  apply andb_true_iff in H as [H1 H2].
  apply andb_true_iff in H1 as [H1 _]. apply andb_true_iff in H2 as [_ H2]. auto.
Qed.

(** Runs that are apart have different [y]. *)
Lemma apart_units a b :
  PrimFloat.is_finite (y a) = true -> PrimFloat.is_finite (y b) = true ->
  apart a b = true -> units (y a) <> units (y b).
Proof.
  intros Ha Hb H Hu. apply apart_spec in H as [H _].
  rewrite (same_units_not_far (y a) (y b) Ha Hb Hu) in H. discriminate.
Qed.

Lemma separate_lines_spec items a b :
  separate_lines items = true -> a ∈ items -> b ∈ items ->
  a = b \/ apart a b = true.
Proof.
  induction items as [|c items IH]; intros Hs Ha Hb; [inversion Ha|].
  cbn [separate_lines] in Hs. apply andb_prop in Hs as [Hc Hs].
  apply elem_of_cons in Ha as [->|Ha]; apply elem_of_cons in Hb as [->|Hb].
  - left. reflexivity.
  - right. exact (forallb_elem _ _ b Hc Hb).
  - right. rewrite apart_sym. exact (forallb_elem _ _ a Hc Ha).
  - exact (IH Hs Ha Hb).
Qed.

Lemma separate_lines_NoDup items :
  finite_y items = true -> separate_lines items = true -> NoDup items.
Proof.
  induction items as [|c items IH]; intros Hf Hs; [constructor|].
  cbn [separate_lines] in Hs. apply andb_prop in Hs as [Hc Hs].
  cbn [finite_y forallb] in Hf. apply andb_prop in Hf as [Hfc Hf].
  constructor; [|exact (IH Hf Hs)].
  intros Hin. pose proof (forallb_elem _ _ c Hc Hin) as H.
  exact (apart_units c c Hfc Hfc H eq_refl).
Qed.

(** An iteration that starts a new line. *)
Lemma step_new_line L cur prev b :
  breaks_line prev b = true ->
  step {| lines := L; currentLine := cur;
          lastY := y prev; lastX_end := (x prev + width prev)%float |} b
  = {| lines := L ++ [cur]; currentLine := str b;
       lastY := y b; lastX_end := (x b + width b)%float |}.
Proof.
  intros H. unfold breaks_line in H. unfold step.
  cbn [lastY lastX_end lines currentLine]. rewrite H. reflexivity.
Qed.

(** The walk over runs that are each on a line of their own makes a line
    of each. *)
Lemma walk_separate_lines rest :
  forall prev L cur,
    NoDup (prev :: rest) ->
    (forall a b, a ∈ prev :: rest -> b ∈ prev :: rest -> a = b \/ apart a b = true) ->
    lines (fold_left step rest
             {| lines := L; currentLine := cur;
                lastY := y prev; lastX_end := (x prev + width prev)%float |})
    ++ [currentLine (fold_left step rest
             {| lines := L; currentLine := cur;
                lastY := y prev; lastX_end := (x prev + width prev)%float |})]
    = L ++ cur :: map str rest.
Proof.
  induction rest as [|b rest IH]; intros prev L cur Hnd Hap; [reflexivity|].
  cbn [fold_left map].
  assert (apart prev b = true) as Hpb.
  { destruct (Hap prev b) as [->|H]; [left|right; left| |exact H].
    apply NoDup_cons in Hnd as [Hnd _]. exfalso. apply Hnd. left. }
  rewrite (step_new_line L cur prev b (proj2 (apart_spec prev b Hpb))).
  rewrite IH.
  - rewrite <- app_assoc. reflexivity.
  - apply NoDup_cons in Hnd as [_ Hnd]. exact Hnd.
  - intros u v Hu Hv. apply Hap; right; assumption.
Qed.

Lemma assemble_separate_lines runs :
  NoDup runs ->
  (forall a b, a ∈ runs -> b ∈ runs -> a = b \/ apart a b = true) ->
  assemble_lines runs = map str runs.
Proof.
  destruct runs as [|first rest]; [reflexivity|]. intros Hnd Hap.
  unfold assemble_lines. rewrite walk_separate_lines by assumption. reflexivity.
Qed.

(** On such runs the comparator of the sort reads the runs by their
    [y], the greater first, and every engine sorts them by it. *)
Lemma compare_items_self a :
  PrimFloat.is_finite (y a) = true -> compare_items a a = (x a - x a)%float.
Proof.
  intros Ha. unfold compare_items. cbv zeta.
  rewrite (same_units_not_far (y a) (y a) Ha Ha eq_refl). reflexivity.
Qed.

Lemma compare_items_apart a b :
  apart a b = true -> compare_items a b = (y b - y a)%float.
Proof.
  intros H. apply apart_spec in H as [H _].
  unfold compare_items. cbv zeta. rewrite H. reflexivity.
Qed.

Lemma sortedItems_by_y engine items :
  (forall a b, a ∈ items -> b ∈ items -> a = b \/ apart a b = true) ->
  finite_x items = true -> finite_y items = true ->
  sortedItems engine items
  = ArraySort.sort_by (ArraySort.by_key (fun i => (- units (y i))%Z)) items.
Proof.
  intros Hpair Hfx Hfy. unfold sortedItems. apply array_sort_by_key.
  - intros a b Ha Hb. destruct (Hpair a b Ha Hb) as [->|H].
    + rewrite compare_items_self by (eapply finite_y_spec; eassumption).
      apply sub_not_nan; eapply finite_x_spec; eassumption.
    + rewrite (compare_items_apart a b H).
      apply sub_not_nan; eapply finite_y_spec; eassumption.
  - intros a b Ha Hb. unfold ArraySort.order_of, ArraySort.by_key.
    destruct (Hpair a b Ha Hb) as [->|H].
    + rewrite compare_items_self by (eapply finite_y_spec; eassumption).
      rewrite sort_compare_sub by (eapply finite_x_spec; eassumption).
      rewrite !Z.compare_refl. reflexivity.
    + rewrite (compare_items_apart a b H).
      rewrite sort_compare_sub by (eapply finite_y_spec; eassumption).
      symmetry. apply Z.compare_opp.
Qed.

End SeparateLines.

(** X17.  Runs that are each on a line of their own come out one per
    line, top to bottom, whatever the order pdf.js gives them in and
    whatever the engine: when the runs of a page stand at finite numbers
    and every two of them are, as the code computes it, more than 4 units
    and more than 0.7 of either's height apart in [y], the text of the
    page is the cleaned texts of the runs by descending [y], a line feed
    between them. *)
Theorem separate_lines_top_to_bottom
  (engine : ArraySort.Engine) (items items' : list Extractor.TextItem) :
  Notions.separate_lines items = true ->
  Extractor.finite_x items = true ->
  Extractor.finite_y items = true ->
  Permutation items items' ->
  exists runs : list Extractor.TextItem,
    Permutation runs items
    /\ Sorted (fun a b => (Extractor.y b <=? Extractor.y a)%float = true) runs
    /\ Extractor.page_text engine items'
       = join [LF] (map (fun r => Extractor.clean_line (Extractor.str r)) runs)
    /\ Extractor.page_text engine items' = Extractor.page_text engine items.
Proof.
  intros Hsep Hfx Hfy Hperm.
  pose (key := fun i : Extractor.TextItem => (- units (Extractor.y i))%Z).
  assert (Hpair : forall a b, a ∈ items -> b ∈ items ->
            a = b \/ Notions.apart a b = true)
    by (intros a b; apply separate_lines_spec; exact Hsep).
  assert (Hfin : forall (f : Extractor.TextItem -> bool) l,
            Permutation items l -> forallb f items = true -> forallb f l = true).
  { intros f l Hl H. apply forallb_forall. intros a Ha. apply list_elem_of_In in Ha.
    rewrite <- Hl in Ha. exact (forallb_elem f items a H Ha). }
  assert (Hpage : forall l, Permutation items l ->
            Extractor.page_text engine l
            = join [LF] (map (fun r => Extractor.clean_line (Extractor.str r))
                           (ArraySort.sort_by (ArraySort.by_key key) l))).
  { intros l Hl. unfold Extractor.page_text.
    destruct l as [|i l]; [reflexivity|].
    rewrite (sortedItems_by_y engine (i :: l)).
    - rewrite assemble_separate_lines, map_map; [reflexivity| |].
      + rewrite sort_by_perm, <- Hl. apply separate_lines_NoDup; assumption.
      + intros a b Ha Hb. rewrite sort_by_perm in Ha, Hb. rewrite <- Hl in Ha, Hb.
        apply Hpair; assumption.
    - intros a b Ha Hb. rewrite <- Hl in Ha, Hb. apply Hpair; assumption.
    - exact (Hfin _ _ Hl Hfx).
    - exact (Hfin _ _ Hl Hfy). }
  assert (Hsame : ArraySort.sort_by (ArraySort.by_key key) items
                  = ArraySort.sort_by (ArraySort.by_key key) items').
  { apply sort_by_key_permutation; [exact Hperm|].
    intros a b Ha Hb Hk. destruct (Hpair a b Ha Hb) as [E|E]; [exact E|].
    exfalso. apply (apart_units a b); [eapply finite_y_spec; eassumption..|exact E|].
    unfold key in Hk. lia. }
  assert (Hruns : Permutation (ArraySort.sort_by (ArraySort.by_key key) items') items)
    by (rewrite sort_by_perm; symmetry; exact Hperm).
  exists (ArraySort.sort_by (ArraySort.by_key key) items').
  split; [exact Hruns|]. split.
  - eapply Sorted_weaken; [|apply sort_by_key_sorted].
    intros a b Ha Hb H. rewrite Hruns in Ha, Hb. unfold key in H.
    rewrite leb_units by (eapply finite_y_spec; eassumption).
    apply Z.leb_le. lia.
  - split; [apply Hpage, Hperm|].
    rewrite (Hpage items' Hperm), (Hpage items (Permutation_refl _)), Hsame.
    reflexivity.
Qed.

Lemma separate_lines_top_to_bottom_witness :
  exists runs : list Extractor.TextItem,
    Permutation runs
      [ {| Extractor.str := lit "Skills"; Extractor.x := 72; Extractor.y := 680;
           Extractor.width := 30; Extractor.height := 12 |};
        {| Extractor.str := lit "Jane  Doe "; Extractor.x := 72; Extractor.y := 720;
           Extractor.width := 60; Extractor.height := 16 |};
        {| Extractor.str := lit "jane@example.com"; Extractor.x := 72;
           Extractor.y := 700; Extractor.width := 90; Extractor.height := 10 |} ]
    /\ Sorted (fun a b => (Extractor.y b <=? Extractor.y a)%float = true) runs
    /\ Extractor.page_text insertion_engine
         [ {| Extractor.str := lit "jane@example.com"; Extractor.x := 72;
              Extractor.y := 700; Extractor.width := 90; Extractor.height := 10 |};
           {| Extractor.str := lit "Skills"; Extractor.x := 72; Extractor.y := 680;
              Extractor.width := 30; Extractor.height := 12 |};
           {| Extractor.str := lit "Jane  Doe "; Extractor.x := 72; Extractor.y := 720;
              Extractor.width := 60; Extractor.height := 16 |} ]
       = join [LF] (map (fun r => Extractor.clean_line (Extractor.str r)) runs)
    /\ Extractor.page_text insertion_engine
         [ {| Extractor.str := lit "jane@example.com"; Extractor.x := 72;
              Extractor.y := 700; Extractor.width := 90; Extractor.height := 10 |};
           {| Extractor.str := lit "Skills"; Extractor.x := 72; Extractor.y := 680;
              Extractor.width := 30; Extractor.height := 12 |};
           {| Extractor.str := lit "Jane  Doe "; Extractor.x := 72; Extractor.y := 720;
              Extractor.width := 60; Extractor.height := 16 |} ]
       = Extractor.page_text insertion_engine
           [ {| Extractor.str := lit "Skills"; Extractor.x := 72; Extractor.y := 680;
                Extractor.width := 30; Extractor.height := 12 |};
             {| Extractor.str := lit "Jane  Doe "; Extractor.x := 72; Extractor.y := 720;
                Extractor.width := 60; Extractor.height := 16 |};
             {| Extractor.str := lit "jane@example.com"; Extractor.x := 72;
                Extractor.y := 700; Extractor.width := 90; Extractor.height := 10 |} ].
Proof.
  refine (separate_lines_top_to_bottom insertion_engine
    [ {| Extractor.str := lit "Skills"; Extractor.x := 72; Extractor.y := 680;
         Extractor.width := 30; Extractor.height := 12 |};
      {| Extractor.str := lit "Jane  Doe "; Extractor.x := 72; Extractor.y := 720;
         Extractor.width := 60; Extractor.height := 16 |};
      {| Extractor.str := lit "jane@example.com"; Extractor.x := 72;
         Extractor.y := 700; Extractor.width := 90; Extractor.height := 10 |} ]
    [ {| Extractor.str := lit "jane@example.com"; Extractor.x := 72;
         Extractor.y := 700; Extractor.width := 90; Extractor.height := 10 |};
      {| Extractor.str := lit "Skills"; Extractor.x := 72; Extractor.y := 680;
         Extractor.width := 30; Extractor.height := 12 |};
      {| Extractor.str := lit "Jane  Doe "; Extractor.x := 72; Extractor.y := 720;
         Extractor.width := 60; Extractor.height := 16 |} ] _ _ _ _).
  - vm_compute. reflexivity.
  - vm_compute. reflexivity.
  - vm_compute. reflexivity.
  - apply perm_trans with
      [ {| Extractor.str := lit "Skills"; Extractor.x := 72; Extractor.y := 680;
           Extractor.width := 30; Extractor.height := 12 |};
        {| Extractor.str := lit "jane@example.com"; Extractor.x := 72;
           Extractor.y := 700; Extractor.width := 90; Extractor.height := 10 |};
        {| Extractor.str := lit "Jane  Doe "; Extractor.x := 72; Extractor.y := 720;
           Extractor.width := 60; Extractor.height := 16 |} ].
    + apply perm_skip, perm_swap.
    + apply perm_swap.
Defined.

(** Two runs more than 4 units apart in [y] by less than a double can
    tell: the difference of their baselines rounds to 4, the comparator
    takes them for runs of one line and sorts them by [x], and the walk
    puts them on two lines, the lower one first. *)
Example rounded_difference_sorts_by_x (engine : ArraySort.Engine) :
  Extractor.page_text engine Extractor.rounded_apart_runs = lit "b" ++ LF :: lit "a"
  /\ Notions.separate_lines Extractor.rounded_apart_runs = false.
Proof.
  split; [|vm_compute; reflexivity].
  rewrite page_text_same_line by (vm_compute; reflexivity).
  vm_compute. reflexivity.
Qed.

(** On the three runs of the slope the comparator is not consistent: it
    puts [C] before [B] and [B] before [A], both by [x], and [A] before
    [C] by [y].  The order in which [sort] returns them is left to the
    engine. *)
Example slope_runs_have_no_specified_order :
  ~ ArraySort.consistent Extractor.compare_items Extractor.slope_runs.
Proof.
  intros (_ & _ & _ & _ & Hlt & _).
  specialize (Hlt
    {| Extractor.str := lit "C"; Extractor.x := 0; Extractor.y := 0;
       Extractor.width := 1; Extractor.height := 1 |}
    {| Extractor.str := lit "B"; Extractor.x := 1; Extractor.y := 3;
       Extractor.width := 1; Extractor.height := 1 |}
    {| Extractor.str := lit "A"; Extractor.x := 2; Extractor.y := 6;
       Extractor.width := 1; Extractor.height := 1 |}).
  unfold Extractor.slope_runs in Hlt.
  assert (H : ArraySort.order_of Extractor.compare_items
                {| Extractor.str := lit "C"; Extractor.x := 0; Extractor.y := 0;
                   Extractor.width := 1; Extractor.height := 1 |}
                {| Extractor.str := lit "A"; Extractor.x := 2; Extractor.y := 6;
                   Extractor.width := 1; Extractor.height := 1 |} = Lt).
  { apply Hlt.
    - apply list_elem_of_further, list_elem_of_further, list_elem_of_here.
    - apply list_elem_of_further, list_elem_of_here.
    - apply list_elem_of_here.
    - vm_compute. reflexivity.
    - vm_compute. reflexivity. }
  vm_compute in H. discriminate H.
Qed.

(** ** The technology tags *)

Section TechTagsFacts.

Import TechTags Notions.

Lemma split_commas_nonempty sk s : split_commas sk s <> [].
Proof.
  revert sk. induction s as [|c s IH]; intros sk; cbn [split_commas]; [discriminate|].
  destruct (sk && is_space c); [apply IH|].
  destruct (Ascii.eqb c COMMA); [discriminate|].
  destruct (split_commas false s); discriminate.
Qed.

Lemma split_commas_no_comma s :
  forall sk, Forall (fun t => COMMA ∉ t) (split_commas sk s).
Proof.
  induction s as [|c s IH]; intros sk; cbn [split_commas].
  - repeat constructor. apply not_elem_of_nil.
  - destruct (sk && is_space c); [apply IH|].
    destruct (Ascii.eqb c COMMA) eqn:E.
    + constructor; [apply not_elem_of_nil|apply IH].
    + apply Ascii.eqb_neq in E. specialize (IH false).
      destruct (split_commas false s) as [|l ls].
      * repeat constructor. intros H. apply list_elem_of_singleton in H. congruence.
      * apply Forall_cons in IH as [Hl Hls]. constructor; [|exact Hls].
        intros H. apply elem_of_cons in H as [H|H]; [congruence|exact (Hl H)].
Qed.

(** A piece after a comma does not start with white space. *)
Lemma split_commas_starts s :
  Forall (fun t => t = [] \/ starts_visible t = true) (split_commas true s)
  /\ Forall (fun t => t = [] \/ starts_visible t = true) (tail (split_commas false s)).
Proof.
  induction s as [|c s [IHt IHf]]; cbn [split_commas].
  - split; repeat constructor.
  - cbn [andb]. destruct (Ascii.eqb c COMMA) eqn:E.
    + assert (is_space c = false) as ->
        by (apply Ascii.eqb_eq in E; subst c; reflexivity).
      split; [constructor; [left; reflexivity|exact IHt]|exact IHt].
    + pose proof (split_commas_nonempty false s) as Hne.
      destruct (split_commas false s) as [|l ls]; [congruence|]. cbn [tail] in *.
      split; [|exact IHf].
      destruct (is_space c) eqn:Ec; [exact IHt|].
      constructor; [|exact IHf]. right. cbn. rewrite Ec. reflexivity.
Qed.

Lemma technologies_starts text :
  Forall (fun t => t = [] \/ starts_visible t = true) (technologies text).
Proof.
  unfold technologies.
  destruct (trim_shape (drop (length PREFIX) text)) as [->|(c & t & -> & Hc)].
  - repeat constructor.
  - pose proof (proj2 (split_commas_starts (c :: t))) as Ht.
    cbn [split_commas andb] in *.
    destruct (Ascii.eqb c COMMA); [constructor; [left; reflexivity|exact Ht]|].
    pose proof (split_commas_nonempty false t) as Hne.
    destruct (split_commas false t) as [|l ls]; [congruence|]. cbn [tail] in Ht.
    constructor; [|exact Ht]. right. cbn. rewrite Hc. reflexivity.
Qed.

(** Up to the first comma. *)
Lemma split_commas_name n s :
  COMMA ∉ n -> split_commas false (n ++ COMMA :: s) = n :: split_commas true s.
Proof.
  induction n as [|c n IH]; intros Hn; [reflexivity|].
  change ((c :: n) ++ COMMA :: s) with (c :: n ++ COMMA :: s).
  cbn [split_commas andb].
  assert (Ascii.eqb c COMMA = false) as ->.
  { apply Ascii.eqb_neq. intros ->. apply Hn. left. }
  rewrite IH; [reflexivity|]. intros H. apply Hn. right. exact H.
Qed.

Lemma split_commas_last n : COMMA ∉ n -> split_commas false n = [n].
Proof.
  induction n as [|c n IH]; intros Hn; [reflexivity|].
  cbn [split_commas andb].
  assert (Ascii.eqb c COMMA = false) as ->.
  { apply Ascii.eqb_neq. intros ->. apply Hn. left. }
  rewrite IH; [reflexivity|]. intros H. apply Hn. right. exact H.
Qed.

Lemma split_commas_skipped s :
  starts_visible s = true -> split_commas true s = split_commas false s.
Proof.
  destruct s as [|c s]; [discriminate|]. cbn [starts_visible split_commas andb].
  intros H. apply negb_true_iff in H. rewrite H. reflexivity.
Qed.

(** A name as the tags give it back: not empty, without a comma, trimmed. *)
Local Abbreviation name_ok :=
  (fun n : jsstring => n <> [] /\ (COMMA ∉ n) /\ trim n = n).

Lemma name_starts_visible n : name_ok n -> starts_visible n = true.
Proof.
  intros (Hne & _ & Ht). destruct (trim_shape n) as [E|(c & t & E & Hc)].
  - congruence.
  - rewrite Ht in E. subst n. cbn. rewrite Hc. reflexivity.
Qed.

Lemma trimEnd_app_kept a b : trimEnd b <> [] -> trimEnd (a ++ b) = a ++ trimEnd b.
Proof.
  intros Hb. induction a as [|c a IH]; [reflexivity|].
  change ((c :: a) ++ b) with (c :: a ++ b). cbn [trimEnd]. rewrite IH.
  destruct (a ++ trimEnd b) eqn:E; [|rewrite <- E; reflexivity].
  apply app_eq_nil in E as [_ E]. congruence.
Qed.

Lemma join_names_shape names :
  Forall name_ok names -> names <> [] ->
  starts_visible (join (lit ", ") names) = true
  /\ trimEnd (join (lit ", ") names) = join (lit ", ") names
  /\ join (lit ", ") names <> [].
Proof.
  induction 1 as [|n names Hn Hnames IH]; [congruence|]. intros _.
  pose proof (name_starts_visible n Hn) as Hv.
  destruct Hn as (Hne & _ & Ht).
  assert (trimEnd n = n) as He by (rewrite <- Ht; apply trimEnd_trim).
  destruct names as [|n' names]; [cbn [join]; auto|].
  rewrite join_cons by discriminate.
  destruct (IH ltac:(discriminate)) as (_ & IHe & IHn).
  split; [apply starts_visible_app, Hv|]. split.
  - rewrite app_assoc, trimEnd_app_kept by (rewrite IHe; exact IHn).
    rewrite IHe. reflexivity.
  - destruct n; [congruence|discriminate].
Qed.

Lemma split_commas_join names :
  Forall name_ok names -> names <> [] ->
  split_commas false (join (lit ", ") names) = names.
Proof.
  induction 1 as [|n names Hn Hnames IH]; [congruence|]. intros _.
  destruct names as [|n' names].
  - cbn [join]. apply split_commas_last, Hn.
  - rewrite join_cons by discriminate.
    change (lit ", " ++ join (lit ", ") (n' :: names))
      with (COMMA :: SP :: join (lit ", ") (n' :: names)).
    rewrite split_commas_name by apply Hn. f_equal.
    change (split_commas true (SP :: join (lit ", ") (n' :: names)))
      with (split_commas true (join (lit ", ") (n' :: names))).
    rewrite split_commas_skipped
      by (apply join_names_shape; [exact Hnames|discriminate]).
    apply IH. discriminate.
Qed.

End TechTagsFacts.

(** X18.  The technology tags of a paragraph are never empty, hold no
    comma and do not start with white space, whatever the paragraph. *)
Theorem technology_tags_are_clean (text : jsstring) :
  Forall (fun tech =>
            tech <> [] /\ (TechTags.COMMA ∉ tech) /\ Notions.starts_visible tech = true)
    (TechTags.techTags text).
Proof.
  unfold TechTags.techTags.
  pose proof (technologies_starts text) as Hs.
  pose proof (split_commas_no_comma
                (trim (drop (length TechTags.PREFIX) text)) false) as Hc.
  fold (TechTags.technologies text) in Hc.
  induction (TechTags.technologies text) as [|t ts IH]; [constructor|].
  apply Forall_cons in Hs as [Hs Hss]. apply Forall_cons in Hc as [Hc Hcs].
  cbn [List.filter]. destruct (decide (t = [])) as [E|E].
  - rewrite (bool_decide_eq_true_2 _ E). apply IH; assumption.
  - rewrite (bool_decide_eq_false_2 _ E). constructor; [|apply IH; assumption].
    destruct Hs as [Hs|Hs]; [congruence|]. auto.
Qed.

(** X19.  The tags give back the names of a list of technologies: for
    names that are not empty, hold no comma and have no white space at
    either end, the tags of the paragraph made of the prefix, a space and
    the names joined by a comma and a space are these names. *)
Theorem technology_tags_round_trip (names : list jsstring) :
  Forall (fun n => n <> [] /\ (TechTags.COMMA ∉ n) /\ trim n = n) names ->
  TechTags.techTags (TechTags.PREFIX ++ SP :: join (lit ", ") names) = names.
Proof.
  intros H. unfold TechTags.techTags, TechTags.technologies.
  rewrite drop_app_length.
  assert (trim (SP :: join (lit ", ") names) = join (lit ", ") names) as ->.
  { destruct names as [|n names]; [reflexivity|].
    destruct (join_names_shape _ H ltac:(discriminate)) as (Hv & He & _).
    unfold trim. cbn [trimStart]. change (is_space SP) with true. cbv iota.
    destruct (join (lit ", ") (n :: names)) as [|c s]; [discriminate|].
    cbn [Notions.starts_visible] in Hv. apply negb_true_iff in Hv.
    rewrite trimStart_visible by exact Hv. exact He. }
  assert (TechTags.split_commas false (join (lit ", ") names)
          = match names with [] => [[]] | _ => names end) as ->.
  { destruct names as [|n names]; [reflexivity|].
    apply split_commas_join; [exact H|discriminate]. }
  destruct names as [|n names]; [reflexivity|].
  induction H as [|m ms Hm _ IH]; [reflexivity|]. cbn [List.filter].
  rewrite (bool_decide_eq_false_2 _ (proj1 Hm)). cbn [negb]. f_equal. exact IH.
Qed.

Lemma technology_tags_round_trip_witness :
  TechTags.techTags
    (TechTags.PREFIX ++ SP :: join (lit ", ") [lit "React"; lit "Node.js"; lit "C++"])
  = [lit "React"; lit "Node.js"; lit "C++"].
Proof.
  apply (technology_tags_round_trip [lit "React"; lit "Node.js"; lit "C++"]).
  repeat constructor; compute_done.
Defined.

(** ** The renderer: what it adds to the document *)

Section RenderRules.

Import Generator RenderLogic.
Local Open Scope render_scope.

Context {ok : DocCall -> Prop}.

Lemma sound_ret {A} (P : RenderState -> Prop) (a : A) (Q : A -> RenderState -> Prop) :
  (forall st, P st -> Q a st) -> sound ok P (ret a) Q.
Proof.
  intros H st HP. exists []. cbn. rewrite app_nil_r.
  split; [reflexivity|]. split; [constructor|]. intros a' [= <-]. apply H, HP.
Qed.

Lemma sound_throw {A} (P : RenderState -> Prop) (Q : A -> RenderState -> Prop) :
  sound ok P throw Q.
Proof.
  intros st HP. exists []. cbn. rewrite app_nil_r.
  split; [reflexivity|]. split; [constructor|]. discriminate.
Qed.

Lemma sound_bind {A B} (P : RenderState -> Prop) (m : Render A)
  (Q : A -> RenderState -> Prop) (k : A -> Render B) (R : B -> RenderState -> Prop) :
  sound ok P m Q -> (forall a, sound ok (Q a) (k a) R) -> sound ok P (bind m k) R.
Proof.
  intros Hm Hk st HP. destruct (Hm st HP) as (new1 & Hd1 & Hok1 & HQ).
  unfold bind. destruct (m st) as [st1 [a|]]; cbn [fst snd] in *.
  - destruct (Hk a st1 (HQ a eq_refl)) as (new2 & Hd2 & Hok2 & HR).
    exists (new1 ++ new2). rewrite Hd2, Hd1, app_assoc.
    split; [reflexivity|]. split; [apply Forall_app; auto|exact HR].
  - exists new1. split; [exact Hd1|]. split; [exact Hok1|]. discriminate.
Qed.

(** A step that leaves the document alone and does not throw. *)
Lemma sound_state {A} (P : RenderState -> Prop) (m : Render A)
  (Q : A -> RenderState -> Prop) :
  (forall st, P st ->
     doc (fst (m st)) = doc st
     /\ forall a, snd (m st) = Returned a -> Q a (fst (m st))) ->
  sound ok P m Q.
Proof.
  intros H st HP. destruct (H st HP) as [Hd HQ]. exists [].
  rewrite app_nil_r. split; [exact Hd|]. split; [constructor|exact HQ].
Qed.

Lemma sound_call lib c (P : RenderState -> Prop) (Q : unit -> RenderState -> Prop) :
  (forall st, P st -> ok c) ->
  (forall st, P st ->
     Q tt {| doc := doc st ++ [c]; cursorY := cursorY st;
             pageNumber := pageNumber st |}) ->
  sound ok P (call lib c) Q.
Proof.
  intros Hok HQ st HP. unfold call. destruct (throws lib (doc st) c).
  - exists []. cbn. rewrite app_nil_r.
    split; [reflexivity|]. split; [constructor|]. discriminate.
  - exists [c]. cbn. split; [reflexivity|].
    split; [repeat constructor; eapply Hok, HP|]. intros [] _. apply HQ, HP.
Qed.

Lemma sound_weaken {A} (ok' : DocCall -> Prop) (P P' : RenderState -> Prop)
  (m : Render A) (Q Q' : A -> RenderState -> Prop) :
  (forall c, ok' c -> ok c) ->
  (forall st, P' st -> P st) ->
  (forall a st, Q a st -> Q' a st) ->
  sound ok' P m Q -> sound ok P' m Q'.
Proof.
  intros Hok HP HQ H st HP'. destruct (H st (HP _ HP')) as (new & Hd & Hn & Hq).
  exists new. split; [exact Hd|]. split.
  - eapply Forall_impl; [exact Hn|exact Hok].
  - intros a Ha. apply HQ, Hq, Ha.
Qed.

Lemma sound_forEach {A} (I : RenderState -> Prop) (l : list A) (f : A -> Render unit) :
  (forall a, a ∈ l -> sound ok I (f a) (fun _ => I)) ->
  sound ok I (forEach l f) (fun _ => I).
Proof.
  induction l as [|a l IH]; intros H; [apply sound_ret; auto|].
  cbn [forEach]. eapply sound_bind; [apply H; left|].
  intros u. apply IH. intros a' Ha'. apply H. right. exact Ha'.
Qed.

(** What holds of a document, and goes on holding when calls that satisfy
    [ok] are added, holds on after a computation. *)
Lemma sound_frame {A} (M : list DocCall -> Prop) (P : RenderState -> Prop)
  (m : Render A) (Q : A -> RenderState -> Prop) :
  (forall calls new, M calls -> Forall ok new -> M (calls ++ new)) ->
  sound ok P m Q ->
  sound ok (fun st => P st /\ M (doc st)) m (fun a st => Q a st /\ M (doc st)).
Proof.
  intros HM H st [HP Hm]. destruct (H st HP) as (new & Hd & Hn & Hq).
  exists new. split; [exact Hd|]. split; [exact Hn|].
  intros a Ha. split; [apply Hq, Ha|]. rewrite Hd. apply HM; assumption.
Qed.

End RenderRules.

Section PageCount.

Import Generator RenderLogic.

Lemma page_count_snoc calls c :
  page_count (calls ++ [c])
  = match c with AddPage => S (page_count calls) | _ => page_count calls end.
Proof.
  unfold page_count. rewrite List.filter_app, length_app.
  destruct c; cbn; lia.
Qed.

Lemma counts_pages_call a b st c :
  c <> AddPage ->
  counts_pages a b st ->
  counts_pages a b {| doc := doc st ++ [c]; cursorY := cursorY st;
                      pageNumber := pageNumber st |}.
Proof.
  unfold counts_pages. cbn [doc pageNumber]. rewrite page_count_snoc.
  intros Hc H. destruct c; congruence.
Qed.

End PageCount.

Section StateRules.

Import Generator RenderLogic.
Local Open Scope Q_scope.

Context {ok : DocCall -> Prop}.

Lemma sound_cursor (f : RenderState -> Q) (P : RenderState -> Prop)
  (Q : unit -> RenderState -> Prop) :
  (forall st, P st ->
     Q tt {| doc := doc st; cursorY := f st; pageNumber := pageNumber st |}) ->
  sound ok P
    (fun st => ({| doc := doc st; cursorY := f st; pageNumber := pageNumber st |},
                Returned tt)) Q.
Proof.
  intros H. apply sound_state. intros st HP. cbn. split; [reflexivity|].
  intros [] _. apply H, HP.
Qed.

Lemma sound_setCursorY v (P : RenderState -> Prop) (Q : unit -> RenderState -> Prop) :
  (forall st, P st ->
     Q tt {| doc := doc st; cursorY := v; pageNumber := pageNumber st |}) ->
  sound ok P (setCursorY v) Q.
Proof. exact (sound_cursor (fun _ => v) P Q). Qed.

Lemma sound_addCursorY d (P : RenderState -> Prop) (Q : unit -> RenderState -> Prop) :
  (forall st, P st ->
     Q tt {| doc := doc st; cursorY := cursorY st + d; pageNumber := pageNumber st |}) ->
  sound ok P (addCursorY d) Q.
Proof. exact (sound_cursor (fun st => cursorY st + d) P Q). Qed.

Lemma sound_getCursorY (P : RenderState -> Prop) (Q : Q -> RenderState -> Prop) :
  (forall st, P st -> Q (cursorY st) st) -> sound ok P getCursorY Q.
Proof.
  intros H. apply sound_state. intros st HP. cbn. split; [reflexivity|].
  intros y [= <-]. apply H, HP.
Qed.

Lemma sound_textWidth lib s (P : RenderState -> Prop) (Q : Q -> RenderState -> Prop) :
  (forall st, P st -> Q (getTextWidth lib (doc st) s) st) ->
  sound ok P (textWidth lib s) Q.
Proof.
  intros H. apply sound_state. intros st HP. cbn. split; [reflexivity|].
  intros y [= <-]. apply H, HP.
Qed.

(** A fact that does not depend on the state can be taken out of the
    precondition. *)
Lemma sound_assume {A} (F : Prop) (P : RenderState -> Prop) (m : Render A)
  (Q : A -> RenderState -> Prop) :
  (F -> sound ok P m Q) -> sound ok (fun st => P st /\ F) m Q.
Proof. intros H st [HP HF]. exact (H HF st HP). Qed.

End StateRules.

Section Words.

Import Generator RenderLogic.

(** A word of [flatten]: not empty, without a space. *)
Local Abbreviation word_ok :=
  (fun w : Word => word_text w <> [] /\ SP ∉ word_text w).

Lemma split_pieces sep s : Forall (fun l => sep ∉ l) (split sep s).
Proof.
  induction s as [|c s IH]; [repeat constructor; apply not_elem_of_nil|].
  cbn [split]. destruct (Ascii.eqb c sep) eqn:E.
  - constructor; [apply not_elem_of_nil|exact IH].
  - apply Ascii.eqb_neq in E.
    destruct (split sep s) as [|l ls].
    + repeat constructor. intros H. apply list_elem_of_singleton in H. congruence.
    + apply Forall_cons in IH as [Hl Hls]. constructor; [|exact Hls].
      intros H. apply elem_of_cons in H as [H|H]; [congruence|exact (Hl H)].
Qed.

Lemma words_of_ok currentStyle s : Forall word_ok (words_of currentStyle s).
Proof.
  unfold words_of. apply Forall_map.
  pose proof (split_pieces SP s) as H.
  induction H as [|l ls Hl _ IH]; [constructor|]. cbn [List.filter].
  unfold jseq at 1. destruct (decide (l = [])) as [E|E].
  - rewrite (bool_decide_eq_true_2 _ E). exact IH.
  - rewrite (bool_decide_eq_false_2 _ E). constructor; [|exact IH].
    cbn [word_text]. auto.
Qed.

Lemma flatten_token_ok token :
  forall currentStyle ws,
    flatten_token currentStyle token = Returned ws -> Forall word_ok ws.
Proof.
  induction token as [ty tx tk it IHtk _] using Token_induction.
  intros currentStyle ws. cbn [flatten_token type text tokens].
  destruct (jseq ty (lit "strong") || jseq ty (lit "em")).
  - destruct tk as [inner|]; [|discriminate]. cbn [all_tokens] in IHtk.
    revert ws. induction IHtk as [|t inner Ht _ IH]; intros ws.
    + intros [= <-]. constructor.
    + destruct (flatten_token _ t) as [ws1|] eqn:E1; [|discriminate].
      match goal with
      | |- match ?f inner with _ => _ end = _ -> _ =>
          destruct (f inner) as [ws2|] eqn:E2; [|discriminate]
      end.
      intros [= <-]. apply Forall_app. split; [exact (Ht _ _ E1)|].
      apply IH. reflexivity.
  - destruct (jseq ty (lit "text")).
    + destruct tx as [s|]; intros [= <-]; [apply words_of_ok|constructor].
    + intros [= <-]. constructor.
Qed.

Lemma flatten_tokens_ok l :
  forall currentStyle ws,
    flatten_tokens currentStyle l = Returned ws -> Forall word_ok ws.
Proof.
  induction l as [|t l IH]; intros currentStyle ws; cbn [flatten_tokens].
  - intros [= <-]. constructor.
  - destruct (flatten_token currentStyle t) as [ws1|] eqn:E1; [|discriminate].
    destruct (flatten_tokens currentStyle l) as [ws2|] eqn:E2; [|discriminate].
    intros [= <-]. apply Forall_app.
    split; [exact (flatten_token_ok _ _ _ E1)|exact (IH _ _ E2)].
Qed.

Lemma drawn_word_of w : word_ok w -> drawn_word (word_text w ++ [SP]).
Proof. intros [H1 H2]. exists (word_text w). auto. Qed.

End Words.

Section BodyPass.

Import Generator RenderLogic.
Local Open Scope render_scope.
Local Open Scope Q_scope.

Variable lib : Libraries.
Variable x0 : Q.
Variables a b : nat.

Local Abbreviation ok := (body_call lib x0).
Local Abbreviation Inv := (counts_pages a b).
Local Abbreviation W := (widths_not_negative lib).
Local Abbreviation BREAK := (PAGE_HEIGHT - PAGE_MARGIN).
Local Abbreviation word_ok :=
  (fun w : Word => word_text w <> [] /\ SP ∉ word_text w).

Lemma ensurePage_sound :
  sound ok Inv (ensurePage lib) (fun _ st => Inv st /\ cursorY st <= BREAK).
Proof.
  intros st H. unfold ensurePage, bind, getCursorY, call, nextPageNumber, setCursorY.
  destruct (Extractor.Qgtb (cursorY st) BREAK) eqn:E.
  - destruct (throws lib (doc st) AddPage); cbn [fst snd doc cursorY pageNumber].
    + exists []. rewrite app_nil_r.
      split; [reflexivity|]. split; [constructor|]. discriminate.
    + exists [AddPage]. split; [reflexivity|].
      split; [repeat constructor|]. intros _ _. split.
      * unfold counts_pages in *. cbn [doc pageNumber].
        rewrite page_count_snoc. lia.
      * discriminate.
  - exists []. cbn [fst snd doc cursorY pageNumber]. rewrite app_nil_r.
    split; [reflexivity|]. split; [constructor|]. intros _ _.
    split; [exact H|]. apply Qgtb_false, E.
Qed.

Lemma renderWords_sound x maxWidth words :
  (W -> x0 <= x) ->
  Forall word_ok words ->
  forall cursorX,
    (W -> x0 <= cursorX) ->
    sound ok Inv (renderWords lib x maxWidth cursorX words) (fun _ => Inv).
Proof.
  intros Hx. induction 1 as [|w words Hw _ IH]; intros cursorX Hc.
  { apply sound_ret. auto. }
  cbn [renderWords].
  apply sound_bind with (Q := fun _ st => Inv st /\ cursorY st <= BREAK);
    [apply ensurePage_sound|intros _u].
  apply sound_bind with (Q := fun _ st => Inv st /\ cursorY st <= BREAK).
  { apply sound_call.
    - intros _ _. split; [reflexivity|]. destruct (word_style w); cbn; auto.
    - intros st [H1 H2].
      split; [apply counts_pages_call; [discriminate|exact H1]|exact H2]. }
  intros _v.
  apply sound_bind
    with (Q := fun wordWidth st =>
                 (Inv st /\ cursorY st <= BREAK) /\ (W -> 0 <= wordWidth)).
  { apply sound_textWidth. intros st H. split; [exact H|]. intros HW. apply HW. }
  intros wordWidth. cbv zeta. apply sound_assume. intros Hwidth.
  apply sound_bind with (Q := fun _ st => Inv st /\ cursorY st <= BODY_BOTTOM).
  { destruct (Extractor.Qgtb (cursorX + wordWidth) (x + maxWidth)).
    - apply sound_addCursorY. intros st [H1 H2]. split; [exact H1|].
      cbn [cursorY]. unfold BODY_BOTTOM, PAGE_LINE_HEIGHT in *. lra.
    - apply sound_ret. intros st [H1 H2]. split; [exact H1|].
      unfold BODY_BOTTOM, PAGE_LINE_HEIGHT in *. lra. }
  intros _w.
  apply sound_bind with (Q := fun y st => Inv st /\ y <= BODY_BOTTOM).
  { apply sound_getCursorY. auto. }
  intros y.
  apply sound_bind with (Q := fun _ st => Inv st).
  { apply sound_call.
    - intros st [_ Hy]. cbn. split; [exact Hy|]. split.
      + intros HW. destruct (Extractor.Qgtb (cursorX + wordWidth) (x + maxWidth)); auto.
      + split; [reflexivity|]. eexists. split; [reflexivity|].
        right. apply drawn_word_of, Hw.
    - intros st [H _]. apply counts_pages_call; [discriminate|exact H]. }
  intros _x. apply IH. intros HW.
  specialize (Hx HW). specialize (Hc HW). specialize (Hwidth HW).
  destruct (Extractor.Qgtb (cursorX + wordWidth) (x + maxWidth)); lra.
Qed.

Lemma flatten_sound inlineTokens :
  sound ok Inv (flatten inlineTokens) (fun ws st => Inv st /\ Forall word_ok ws).
Proof.
  unfold flatten. destruct inlineTokens as [l|]; [|apply sound_throw].
  destruct (flatten_tokens normal l) as [ws|] eqn:E; [|apply sound_throw].
  apply sound_ret. intros st H. split; [exact H|]. eapply flatten_tokens_ok, E.
Qed.

Lemma renderInlineTokens_sound inlineTokens x y maxWidth :
  (W -> x0 <= x) ->
  sound ok Inv (renderInlineTokens lib inlineTokens x y maxWidth) (fun _ => Inv).
Proof.
  intros Hx. unfold renderInlineTokens.
  apply sound_bind with (Q := fun _ st => Inv st);
    [apply sound_setCursorY; auto|intros _u].
  apply sound_bind with (Q := fun ws st => Inv st /\ Forall word_ok ws);
    [apply flatten_sound|intros words].
  apply sound_assume. intros Hwords.
  apply sound_bind with (Q := fun _ st => Inv st);
    [apply renderWords_sound; assumption|intros _v].
  apply sound_bind with (Q := fun _ st => Inv st);
    [apply sound_addCursorY; auto|intros _w].
  apply sound_getCursorY. auto.
Qed.

Lemma level_indent (listLevel : nat) : 0 <= inject_Z (Z.of_nat listLevel) * 5.
Proof. unfold Qle. cbn. lia. Qed.

Lemma renderItemContent_sound indent effectiveMaxWidth itemContent :
  (W -> x0 <= indent) ->
  sound ok Inv (renderItemContent lib indent effectiveMaxWidth itemContent)
    (fun _ => Inv).
Proof.
  intros Hx.
  assert (W -> x0 <= indent + 4) as Hx4 by (intros HW; specialize (Hx HW); lra).
  assert (forall toks,
            sound ok Inv
              (y <- getCursorY ;;
               y' <- renderInlineTokens lib toks (indent + 4) y
                       (effectiveMaxWidth - 4) ;;
               setCursorY y') (fun _ => Inv)) as Hrun.
  { intros toks.
    apply sound_bind with (Q := fun _ st => Inv st);
      [apply sound_getCursorY; auto|intros y].
    apply sound_bind with (Q := fun _ st => Inv st);
      [apply renderInlineTokens_sound, Hx4|intros y'].
    apply sound_setCursorY. auto. }
  unfold renderItemContent.
  destruct (jseq (type itemContent) (lit "paragraph")
            && bool_decide (is_Some (tokens itemContent))); [apply Hrun|].
  destruct (jseq (type itemContent) (lit "text")); [|apply sound_ret; auto].
  destruct (text itemContent); [apply Hrun|apply sound_ret; auto].
Qed.

Lemma renderToken_sound token :
  forall maxWidth listLevel,
    sound ok Inv (renderToken lib x0 maxWidth listLevel token) (fun _ => Inv).
Proof.
  induction token as [ty tx tk it _ IHit] using Token_induction.
  intros maxWidth listLevel. cbn [renderToken type text tokens items].
  apply sound_bind with (Q := fun _ st => Inv st /\ cursorY st <= BREAK);
    [apply ensurePage_sound|intros _u]. cbv zeta.
  assert (forall c, c <> AddPage -> ok c ->
            sound ok (fun st => Inv st /\ cursorY st <= BREAK) (call lib c)
              (fun _ st => Inv st /\ cursorY st <= BREAK)) as Hstyle.
  { intros c Hp Hc. apply sound_call; [auto|].
    intros st [H1 H2]. split; [|exact H2].
    apply counts_pages_call; assumption. }
  assert (forall toks,
            sound ok (fun st => Inv st /\ cursorY st <= BREAK)
              (y <- getCursorY ;;
               y' <- renderInlineTokens lib toks x0 y maxWidth ;;
               setCursorY y') (fun _ => Inv)) as Hinline.
  { intros toks.
    apply sound_bind with (Q := fun _ st => Inv st);
      [apply sound_getCursorY; tauto|intros y].
    apply sound_bind with (Q := fun _ st => Inv st);
      [apply renderInlineTokens_sound; intros; lra|intros y'].
    apply sound_setCursorY. auto. }
  assert (forall (m : Render unit),
            sound ok Inv m (fun _ => Inv) ->
            sound ok (fun st => Inv st /\ cursorY st <= BREAK) m (fun _ => Inv))
    as Hdrop.
  { intros m. apply sound_weaken; tauto. }
  destruct (jseq ty (lit "heading")); [apply Hdrop, sound_ret; auto|].
  destruct (jseq ty (lit "paragraph")).
  { do 3 (eapply sound_bind; [apply Hstyle; [discriminate|cbn; auto]|intros ?]).
    apply sound_bind with (Q := fun _ st => Inv st);
      [apply sound_getCursorY; tauto|intros y].
    apply sound_bind with (Q := fun _ st => Inv st);
      [apply renderInlineTokens_sound; intros; lra|intros y'].
    apply sound_bind with (Q := fun _ st => Inv st);
      [apply sound_setCursorY; auto|intros ?].
    apply sound_addCursorY. auto. }
  destruct (jseq ty (lit "list")).
  { apply Hdrop.
    apply sound_bind with (Q := fun _ st => Inv st).
    - destruct it as [its|]; [|apply sound_throw]. cbn [all_tokens] in IHit.
      induction IHit as [|t its Ht _ IH]; [apply sound_ret; auto|].
      apply sound_bind with (Q := fun _ st => Inv st); [apply Ht|intros ?; exact IH].
    - intros ?. destruct (listLevel =? 0)%nat;
        [apply sound_addCursorY|apply sound_ret]; auto. }
  destruct (jseq ty (lit "list_item")).
  { do 2 (eapply sound_bind; [apply Hstyle; [discriminate|cbn; auto]|intros ?]).
    apply sound_bind with (Q := fun y st => Inv st /\ y <= BREAK);
      [apply sound_getCursorY; tauto|intros y].
    apply sound_bind with (Q := fun _ st => Inv st).
    { apply sound_call.
      - intros st [_ Hy]. cbn. split.
        + unfold BODY_BOTTOM, PAGE_LINE_HEIGHT in *. lra.
        + split; [intros _; pose proof (level_indent listLevel); lra|].
          split; [reflexivity|]. eexists. split; [reflexivity|]. left. reflexivity.
      - intros st [H _]. apply counts_pages_call; [discriminate|exact H]. }
    intros ?.
    apply sound_bind with (Q := fun _ st => Inv st).
    - destruct tk as [content|]; [|apply sound_throw].
      apply sound_forEach. intros c _. apply renderItemContent_sound.
      intros _. pose proof (level_indent listLevel). lra.
    - intros ?. apply sound_addCursorY. auto. }
  destruct (jseq ty (lit "space")); [apply Hdrop, sound_ret; auto|].
  destruct tx as [[|c s]|]; try (apply Hdrop, sound_ret; auto).
  do 2 (eapply sound_bind; [apply Hstyle; [discriminate|cbn; auto]|intros ?]).
  apply Hinline.
Qed.

Lemma renderMarkdown_sound markdown maxWidth startY :
  sound ok Inv (renderMarkdown lib markdown x0 maxWidth startY) (fun _ => Inv).
Proof.
  unfold renderMarkdown.
  apply sound_bind with (Q := fun _ st => Inv st).
  { destruct startY as [v|]; [|apply sound_ret; auto].
    destruct (Qeq_bool v 0); [apply sound_ret|apply sound_setCursorY]; auto. }
  intros ?. destruct (lexer lib markdown) as [toks|]; [|apply sound_throw].
  apply sound_bind with (Q := fun _ st => Inv st).
  - apply sound_forEach. intros t _. apply renderToken_sound.
  - intros ?. apply sound_getCursorY. auto.
Qed.

End BodyPass.

Section LayoutPass.

Import Generator RenderLogic.
Local Open Scope render_scope.
Local Open Scope Q_scope.

Variable lib : Libraries.
Variables a b : nat.

Local Abbreviation ok := layout_call.
Local Abbreviation Inv := (counts_pages a b).

Lemma body_call_layout_call x c : body_call lib x c -> layout_call c.
Proof. destruct c; cbn; auto. Qed.

Lemma call_layout_sound c :
  layout_call c -> c <> AddPage -> sound ok Inv (call lib c) (fun _ => Inv).
Proof.
  intros Hc Hp. apply sound_call; [auto|].
  intros st H. apply counts_pages_call; assumption.
Qed.

Lemma textAtCursor_sound s x centered :
  sound ok Inv (textAtCursor lib s x centered) (fun _ => Inv).
Proof.
  unfold textAtCursor.
  apply sound_bind with (Q := fun _ st => Inv st);
    [apply sound_getCursorY; auto|intros y].
  apply call_layout_sound; [exact I|discriminate].
Qed.

Lemma lineAtCursor_sound x1 d1 x2 d2 :
  sound ok Inv (lineAtCursor lib x1 d1 x2 d2) (fun _ => Inv).
Proof.
  unfold lineAtCursor.
  apply sound_bind with (Q := fun _ st => Inv st);
    [apply sound_getCursorY; auto|intros y].
  apply call_layout_sound; [exact I|discriminate].
Qed.

Lemma renderBody_sound content :
  sound ok Inv (renderBody lib content) (fun _ => Inv).
Proof.
  unfold renderBody.
  apply sound_bind with (Q := fun _ st => Inv st).
  - eapply sound_weaken; [| | |apply (renderMarkdown_sound lib PAGE_MARGIN a b)]; auto.
    apply body_call_layout_call.
  - intros ?. apply sound_addCursorY. auto.
Qed.

Lemma whenSection_sound data key (body : jsstring -> Render unit) :
  (forall content, sound ok Inv (body content) (fun _ => Inv)) ->
  sound ok Inv (whenSection data key body) (fun _ => Inv).
Proof.
  intros H. unfold whenSection.
  destruct (Parse.sections data !! key) as [[|c s]|]; try (apply sound_ret; auto).
  apply H.
Qed.

End LayoutPass.

(** One step for the templates. *)
Ltac layout_step :=
  first
    [ apply call_layout_sound; [exact I|discriminate]
    | apply textAtCursor_sound
    | apply lineAtCursor_sound
    | apply renderBody_sound
    | apply sound_textWidth; solve [auto]
    | apply sound_addCursorY; solve [auto]
    | apply sound_ret; solve [auto]
    | apply sound_forEach; intros ? _
    | apply whenSection_sound; intros ?; cbv zeta
    | match goal with
      | |- RenderLogic.sound _ (RenderLogic.counts_pages ?a ?b) _ _ =>
          apply sound_bind
            with (Q := fun _ => RenderLogic.counts_pages a b); [|intros ?; cbv beta]
      end ].

Section LayoutFacts.

Import Generator RenderLogic.
Local Open Scope render_scope.
Local Open Scope Q_scope.

Variable lib : Libraries.

Lemma renderTemplate_sound a b templateId data :
  sound layout_call (fun st => (page_count (doc st) + b = 1 + a)%nat)
    (renderTemplate lib templateId data) (fun _ => counts_pages a b).
Proof.
  assert (sound layout_call (fun st => (page_count (doc st) + b = 1 + a)%nat)
            newRenderer (fun _ => counts_pages a b)) as Hnew.
  { apply sound_state. intros st H. split; [reflexivity|].
    intros _ _. unfold counts_pages. cbn [newRenderer fst doc pageNumber]. lia. }
  destruct templateId; cbn [renderTemplate];
    unfold renderClassicTemplate, renderProfessionalTemplate,
           renderTechnicalTemplate, renderModernTemplate;
    (apply sound_bind with (Q := fun _ => counts_pages a b);
     [exact Hnew|intros ?; cbv beta]);
    repeat layout_step.
Qed.

(** A computation that keeps the page count in step, whatever the step,
    runs from any state, *)
Lemma sound_runs {A} (m : Render A) :
  (forall a b, sound layout_call (counts_pages a b) m (fun _ => counts_pages a b)) ->
  sound layout_call (fun _ => True) m (fun _ _ => True).
Proof.
  intros H st _.
  destruct (H (page_count (doc st)) (pageNumber st) st) as (new & Hd & Hn & _).
  { unfold counts_pages. lia. }
  exists new. auto.
Qed.

Lemma renderTemplate_runs templateId data :
  sound layout_call (fun _ => True) (renderTemplate lib templateId data)
    (fun _ _ => True).
Proof.
  intros st _.
  destruct (renderTemplate_sound (page_count (doc st)) 1 templateId data st)
    as (new & Hd & Hn & _); [lia|].
  exists new. auto.
Qed.

(** A computation that runs from any state keeps what holds of the
    document and goes on holding when calls of the layout are added. *)
Lemma sound_keeps {A} (M : list DocCall -> Prop) (m : Render A) :
  (forall calls new, M calls -> Forall layout_call new -> M (calls ++ new)) ->
  sound layout_call (fun _ => True) m (fun _ _ => True) ->
  sound layout_call (fun st => M (doc st)) m (fun _ st => M (doc st)).
Proof.
  intros HM H.
  eapply sound_weaken; [| | |apply (sound_frame M _ _ _ HM H)]; cbv beta; tauto.
Qed.

Lemma layout_sound resumeText templateId :
  sound (fun _ => True) (fun st => doc st = [])
    (layout lib resumeText templateId) (fun _ => counts_pages 0 0).
Proof.
  unfold layout. cbv zeta.
  apply sound_bind with (Q := fun _ st => doc st = [NewDocument]).
  { apply sound_call; [auto|]. intros st H. cbn [doc]. rewrite H. reflexivity. }
  intros ?.
  apply sound_bind with (Q := fun _ st => (page_count (doc st) + 0 = 1 + 0)%nat).
  { apply sound_call; [auto|]. intros st H. cbn [doc]. rewrite H. reflexivity. }
  intros ?. eapply sound_weaken; [| | |apply (renderTemplate_sound 0 0)]; auto.
Qed.

Lemma text_positions_Forall (ok' : DocCall -> Prop) (R : Q * Q -> Prop) calls :
  (forall s cx cy centered, ok' (DrawText s cx cy centered) -> R (cx, cy)) ->
  Forall ok' calls -> Forall R (text_positions calls).
Proof.
  intros H. induction 1 as [|c calls Hc _ IH]; [constructor|].
  destruct c; cbn [text_positions]; try exact IH.
  constructor; [eapply H, Hc|exact IH].
Qed.

Lemma renderMarkdown_calls markdown x maxWidth startY st :
  exists new,
    doc (fst (renderMarkdown lib markdown x maxWidth startY st)) = doc st ++ new
    /\ Forall (body_call lib x) new.
Proof.
  destruct (renderMarkdown_sound lib x (page_count (doc st)) (pageNumber st)
              markdown maxWidth startY st) as (new & Hd & Hn & _).
  { unfold counts_pages. lia. }
  exists new. auto.
Qed.

End LayoutFacts.

(** X20.  The page number of the renderer counts the pages of the
    document: when the layout of a resume returns, the field
    [pageNumber] is one more than the number of pages added. *)
Theorem page_number_counts_pages
  (lib : Generator.Libraries) (resumeText : jsstring)
  (templateId : Generator.TemplateId) (st : Generator.RenderState) :
  Generator.layout lib resumeText templateId Generator.no_document
  = (st, Generator.Returned tt) ->
  Generator.pageNumber st = Generator.page_count (Generator.doc st).
Proof.
  intros H.
  destruct (layout_sound lib resumeText templateId Generator.no_document eq_refl)
    as (new & _ & _ & HQ).
  rewrite H in HQ. specialize (HQ tt eq_refl).
  unfold RenderLogic.counts_pages in HQ. cbn [fst] in HQ. lia.
Qed.

Lemma page_number_counts_pages_witness :
  Generator.pageNumber
    (fst (Generator.layout Generator.example_libraries Generator.example_resume
            Generator.classic Generator.no_document))
  = Generator.page_count
      (Generator.doc
         (fst (Generator.layout Generator.example_libraries Generator.example_resume
                 Generator.classic Generator.no_document))).
Proof.
  apply (page_number_counts_pages Generator.example_libraries
           Generator.example_resume Generator.classic).
  vm_compute. reflexivity.
Defined.

(** X21.  The text of a section body stays in its box: whatever the
    markdown, the tokens and the state the renderer starts in, every text
    [renderMarkdown] draws is at most one line below the row at which a
    page is broken (282 of the 297 units of the page), and, when the
    document reports no negative width, none is drawn left of the left
    edge [x]. *)
Theorem body_text_stays_in_its_box
  (lib : Generator.Libraries) (markdown : jsstring) (x maxWidth : Q)
  (startY : option Q) (st : Generator.RenderState) :
  exists new : list Generator.DocCall,
    Generator.doc (fst (Generator.renderMarkdown lib markdown x maxWidth startY st))
    = Generator.doc st ++ new
    /\ Forall (fun p => (snd p <= RenderLogic.BODY_BOTTOM)%Q)
         (Generator.text_positions new)
    /\ (RenderLogic.widths_not_negative lib ->
        Forall (fun p => (x <= fst p)%Q) (Generator.text_positions new)).
Proof.
  destruct (renderMarkdown_calls lib markdown x maxWidth startY st) as (new & Hd & Hn).
  exists new. split; [exact Hd|]. split.
  - eapply text_positions_Forall; [|exact Hn].
    intros s cx cy centered H. apply H.
  - intros HW. eapply text_positions_Forall; [|exact Hn].
    intros s cx cy centered (_ & H & _). exact (H HW).
Qed.

(** X22.  A section body is drawn word by word in one typeface: the
    calls [renderMarkdown] makes on the document set the font to Helvetica
    in normal, bold or italic, the font size to that of the body and the
    text colour to the primary colour, add pages, and draw left-aligned
    texts that are either the bullet or one word (not empty, without a
    space) followed by one space.  It draws no line and no text that is
    not a string. *)
Theorem body_is_drawn_word_by_word
  (lib : Generator.Libraries) (markdown : jsstring) (x maxWidth : Q)
  (startY : option Q) (st : Generator.RenderState) :
  exists new : list Generator.DocCall,
    Generator.doc (fst (Generator.renderMarkdown lib markdown x maxWidth startY st))
    = Generator.doc st ++ new
    /\ Forall
         (fun c =>
            match c with
            | Generator.DrawText s _ _ centered =>
                centered = false
                /\ exists t, s = Some t
                   /\ (t = Generator.BULLET \/ RenderLogic.drawn_word t)
            | Generator.SetFont fontName fontStyle =>
                fontName = Generator.helvetica
                /\ (fontStyle = lit "normal" \/ fontStyle = lit "bold"
                    \/ fontStyle = lit "italic")
            | Generator.SetFontSize size => size = Generator.FONT_body
            | Generator.SetTextColor color => color = Generator.COLOR_primary
            | Generator.AddPage => True
            | _ => False
            end) new.
Proof.
  destruct (renderMarkdown_calls lib markdown x maxWidth startY st) as (new & Hd & Hn).
  exists new. split; [exact Hd|].
  eapply Forall_impl; [exact Hn|].
  intros c Hc. destruct c; cbn in Hc |- *; tauto.
Qed.

Section SavedDocument.

Import Generator RenderLogic.
Local Open Scope render_scope.

Variable lib : Libraries.

(** What holds of the document when the layout and the save have
    returned holds of every document saved. *)
Lemma generatePdfResume_saved resumeText templateId filename
  (R : list DocCall -> Prop) :
  sound (fun _ => True) (fun st => doc st = [])
    (layout lib resumeText templateId ;; call lib (Save filename))
    (fun _ st => R (doc st)) ->
  Forall R (saved_documents (generatePdfResume lib resumeText templateId filename)).
Proof.
  intros H. unfold generatePdfResume.
  destruct (H no_document eq_refl) as (new & _ & _ & HQ).
  destruct ((layout lib resumeText templateId ;; call lib (Save filename)) no_document)
    as [st [[]|]]; cbn [saved_documents]; constructor.
  - apply (HQ tt eq_refl).
  - constructor.
Qed.

(** The layout after the creation of the document, with what it
    establishes and what it keeps. *)
Lemma generate_sound resumeText templateId filename
  (M R : list DocCall -> Prop) :
  M [NewDocument] ->
  (forall calls new, M calls -> Forall layout_call new -> M (calls ++ new)) ->
  (forall calls, M calls -> R (calls ++ [Save filename])) ->
  sound (fun _ => True) (fun st => doc st = [])
    (layout lib resumeText templateId ;; call lib (Save filename))
    (fun _ st => R (doc st)).
Proof.
  intros H0 HM HR. unfold layout. cbv zeta.
  apply sound_bind with (Q := fun _ st => M (doc st)).
  - apply sound_bind with (Q := fun _ st => M (doc st)).
    { apply sound_call; [auto|]. intros st H. cbn [doc]. rewrite H. exact H0. }
    intros ?.
    match goal with
    | |- sound _ _ ?m _ =>
        assert (sound layout_call (fun st => M (doc st)) m (fun _ st => M (doc st)))
          as Hk
    end.
    { apply sound_keeps; [exact HM|].
      apply sound_bind with (Q := fun _ _ => True).
      - apply sound_call; [intros; exact I|auto].
      - intros ?. apply renderTemplate_runs. }
    eapply sound_weaken; [| | |exact Hk]; auto.
  - intros ?. apply sound_call; [auto|]. intros st H. cbn [doc]. apply HR, H.
Qed.

Lemma draws_extends s calls new : draws s calls -> draws s (calls ++ new).
Proof.
  intros (x & y & H). exists x, y. apply elem_of_app. left. exact H.
Qed.

Lemma textAtCursor_draws s x :
  sound layout_call (fun _ => True) (textAtCursor lib (Some s) x false)
    (fun _ st => draws s (doc st)).
Proof.
  unfold textAtCursor.
  apply sound_bind with (Q := fun _ _ => True);
    [apply sound_getCursorY; auto|intros y].
  apply sound_call; [intros; exact I|]. intros st _. cbn [doc].
  exists x, y. apply elem_of_app. right. left.
Qed.

Lemma draws_before_extends s1 s2 calls new :
  draws_before s1 s2 calls -> draws_before s1 s2 (calls ++ new).
Proof.
  intros (pre & post & x & y & -> & H). exists pre, (post ++ new), x, y.
  split; [rewrite <- app_assoc; reflexivity|apply draws_extends, H].
Qed.

Lemma textAtCursor_draws_after s1 s2 x :
  sound layout_call (fun st => draws s1 (doc st))
    (textAtCursor lib (Some s2) x false)
    (fun _ st => draws_before s1 s2 (doc st)).
Proof.
  unfold textAtCursor.
  apply sound_bind with (Q := fun _ st => draws s1 (doc st));
    [apply sound_getCursorY; auto|intros y].
  apply sound_call; [intros; exact I|]. intros st (x1 & y1 & H). cbn [doc].
  apply list_elem_of_split in H as (pre & post & ->).
  exists pre, (post ++ [DrawText (Some s2) x y false]), x1, y1.
  split; [rewrite <- app_assoc; reflexivity|].
  exists x, y. apply elem_of_app. right. left.
Qed.

(** A loop whose steps all run reaches the step of [k] in a state that
    satisfies what the steps keep, and goes on keeping what that step
    establishes. *)
Lemma forEach_reaches {A} (P M : list DocCall -> Prop) (l : list A)
  (f : A -> Render unit) (k : A) :
  (forall calls new, P calls -> Forall layout_call new -> P (calls ++ new)) ->
  (forall calls new, M calls -> Forall layout_call new -> M (calls ++ new)) ->
  k ∈ l ->
  (forall x, sound layout_call (fun _ => True) (f x) (fun _ _ => True)) ->
  sound layout_call (fun st => P (doc st)) (f k) (fun _ st => M (doc st)) ->
  sound layout_call (fun st => P (doc st)) (forEach l f) (fun _ st => M (doc st)).
Proof.
  intros HP HM Hk Hf Hfk.
  assert (forall l', sound layout_call (fun _ => True) (forEach l' f)
                       (fun _ _ => True)) as Hall.
  { intros l'. apply (sound_forEach (fun _ => True)). intros x _. apply Hf. }
  induction l as [|x l IH]; [inversion Hk|]. cbn [forEach].
  apply elem_of_cons in Hk as [<-|Hk].
  - apply sound_bind with (Q := fun _ st => M (doc st)); [exact Hfk|].
    intros ?. apply sound_keeps; [exact HM|apply Hall].
  - apply sound_bind with (Q := fun _ st => P (doc st));
      [apply sound_keeps; [exact HP|apply Hf]|].
    intros ?. apply IH, Hk.
Qed.

Lemma forEach_in_order {A} (M1 M2 : list DocCall -> Prop) (l : list A)
  (f : A -> Render unit) (k1 k2 : A) :
  (forall calls new, M1 calls -> Forall layout_call new -> M1 (calls ++ new)) ->
  (forall calls new, M2 calls -> Forall layout_call new -> M2 (calls ++ new)) ->
  before k1 k2 l ->
  (forall x, sound layout_call (fun _ => True) (f x) (fun _ _ => True)) ->
  sound layout_call (fun _ => True) (f k1) (fun _ st => M1 (doc st)) ->
  sound layout_call (fun st => M1 (doc st)) (f k2) (fun _ st => M2 (doc st)) ->
  sound layout_call (fun _ => True) (forEach l f) (fun _ st => M2 (doc st)).
Proof.
  intros H1 H2 (l1 & l2 & l3 & ->) Hf Hk1 Hk2.
  induction l1 as [|x l1 IH]; cbn [app forEach].
  - apply sound_bind with (Q := fun _ st => M1 (doc st)); [exact Hk1|].
    intros ?. apply (forEach_reaches M1 M2 _ f k2); try assumption.
    apply elem_of_app. right. left.
  - apply sound_bind with (Q := fun _ _ => True); [apply Hf|].
    intros ?. exact IH.
Qed.

End SavedDocument.

(** Steps that run, and steps that keep a text drawn. *)
Ltac runs_step := apply sound_runs; intros ? ?; solve [repeat layout_step].

Ltac keeps_step :=
  first
    [ runs_step
    | match goal with
      | |- RenderLogic.sound _
             (fun st => RenderLogic.draws ?T (Generator.doc st)) _ _ =>
          apply (sound_keeps (RenderLogic.draws T));
          [intros ? ? ? _; apply draws_extends; assumption|runs_step]
      end ].

(** Up to the title of a section, and on from it. *)
Ltac to_title :=
  first
    [ match goal with
      | |- RenderLogic.sound _ _ _ ?post => apply sound_bind with (Q := post)
      end;
      [ solve [apply textAtCursor_draws | apply textAtCursor_draws_after]
      | intros ?; apply sound_keeps;
        [ intros ? ? ? _;
          first [apply draws_extends | apply draws_before_extends]; assumption
        | runs_step ] ]
    | match goal with
      | |- RenderLogic.sound _ ?pre _ _ =>
          apply sound_bind with (Q := fun _ => pre)
      end;
      [ keeps_step | intros ?; cbv beta; to_title ] ].

Section TitleFacts.

Import Generator RenderLogic.
Local Open Scope render_scope.

Variable lib : Libraries.

Lemma renderTemplate_draws_title templateId data key c s :
  key ∈ sectionOrder templateId ->
  Parse.sections data !! key = Some (c :: s) ->
  sound layout_call (fun _ => True) (renderTemplate lib templateId data)
    (fun _ st => draws (sectionTitle templateId key) (doc st)).
Proof.
  intros Hkey Hlookup.
  assert (sound layout_call (fun _ => True) newRenderer (fun _ _ => True)) as Hnew.
  { apply sound_state. intros st _. split; [reflexivity|auto]. }
  destruct templateId; cbn [renderTemplate];
    unfold renderClassicTemplate, renderProfessionalTemplate,
           renderTechnicalTemplate, renderModernTemplate;
    (apply sound_bind with (Q := fun _ _ => True); [exact Hnew|intros ?]);
    repeat match goal with
           | |- sound _ _ (bind _ _) _ =>
               apply sound_bind with (Q := fun _ _ => True);
               [apply sound_runs; intros ? ?; solve [repeat layout_step]
               |intros ?; cbv beta]
           end;
    (apply (forEach_reaches (fun _ => True)
              (draws (sectionTitle _ key)) _ _ key);
     [ auto
     | intros ? ? ? _; apply draws_extends; assumption
     | exact Hkey
     | intros ?; runs_step
     | unfold whenSection; rewrite Hlookup; cbn [sectionTitle]; to_title ]).
Qed.

Lemma renderTemplate_draws_in_order templateId data key1 key2 c1 s1 c2 s2 :
  before key1 key2 (sectionOrder templateId) ->
  Parse.sections data !! key1 = Some (c1 :: s1) ->
  Parse.sections data !! key2 = Some (c2 :: s2) ->
  sound layout_call (fun _ => True) (renderTemplate lib templateId data)
    (fun _ st =>
       draws_before (sectionTitle templateId key1) (sectionTitle templateId key2)
         (doc st)).
Proof.
  intros Hbefore Hlookup1 Hlookup2.
  assert (sound layout_call (fun _ => True) newRenderer (fun _ _ => True)) as Hnew.
  { apply sound_state. intros st _. split; [reflexivity|auto]. }
  destruct templateId; cbn [renderTemplate];
    unfold renderClassicTemplate, renderProfessionalTemplate,
           renderTechnicalTemplate, renderModernTemplate;
    (apply sound_bind with (Q := fun _ _ => True); [exact Hnew|intros ?]);
    repeat match goal with
           | |- sound _ _ (bind _ _) _ =>
               apply sound_bind with (Q := fun _ _ => True);
               [runs_step|intros ?; cbv beta]
           end;
    (match type of Hbefore with
     | before _ _ (sectionOrder ?t) =>
         apply (forEach_in_order
                  (draws (sectionTitle t key1))
                  (draws_before (sectionTitle t key1) (sectionTitle t key2))
                  _ _ key1 key2)
     end;
     [ intros ? ? ? _; apply draws_extends; assumption
     | intros ? ? ? _; apply draws_before_extends; assumption
     | exact Hbefore
     | intros ?; runs_step
     | unfold whenSection; rewrite Hlookup1; cbn [sectionTitle]; to_title
     | unfold whenSection; rewrite Hlookup2; cbn [sectionTitle]; to_title ]).
Qed.

End TitleFacts.

(** X23.  A generation saves at most one document; the document saved was
    created first and saved last, under the file name given, and neither
    created nor saved in between. *)
Theorem document_created_first_saved_last
  (lib : Generator.Libraries) (resumeText : jsstring)
  (templateId : Generator.TemplateId) (filename : jsstring) :
  length (Generator.saved_documents
            (Generator.generatePdfResume lib resumeText templateId filename)) <= 1
  /\ Forall
       (fun calls =>
          exists mid : list Generator.DocCall,
            calls = Generator.NewDocument :: mid ++ [Generator.Save filename]
            /\ Forall RenderLogic.layout_call mid)
       (Generator.saved_documents
          (Generator.generatePdfResume lib resumeText templateId filename)).
Proof.
  split.
  - unfold Generator.generatePdfResume.
    destruct (Generator.bind _ _ _) as [st [[]|]]; cbn; lia.
  - apply (generatePdfResume_saved lib resumeText templateId filename
             (fun calls =>
                exists mid : list Generator.DocCall,
                  calls = Generator.NewDocument :: mid ++ [Generator.Save filename]
                  /\ Forall RenderLogic.layout_call mid)).
    apply (generate_sound lib resumeText templateId filename
             (fun calls =>
                exists mid, calls = Generator.NewDocument :: mid
                            /\ Forall RenderLogic.layout_call mid)
             (fun calls =>
                exists mid : list Generator.DocCall,
                  calls = Generator.NewDocument :: mid ++ [Generator.Save filename]
                  /\ Forall RenderLogic.layout_call mid)).
    + exists []. auto.
    + intros calls new (mid & -> & Hmid) Hnew. exists (mid ++ new).
      split; [reflexivity|]. apply Forall_app. auto.
    + intros calls (mid & -> & Hmid). exists mid. auto.
Qed.

(** X24.  A section whose content is the empty string, as the parse
    stores for a heading with nothing under it, is skipped like a section
    that is not there: with any of the four templates the calls made on
    the document are those for the document without it, so its title is
    not drawn. *)
Theorem empty_section_is_skipped
  (lib : Generator.Libraries) (templateId : Generator.TemplateId)
  (header : list jsstring) (sections : gmap jsstring jsstring) (key : jsstring) :
  Generator.renderTemplate lib templateId
    {| Parse.header := header; Parse.sections := <[key := []]> sections |}
  = Generator.renderTemplate lib templateId
      {| Parse.header := header; Parse.sections := delete key sections |}.
Proof.
  set (data1 := {| Parse.header := header;
                   Parse.sections := <[key := []]> sections |}).
  set (data2 := {| Parse.header := header; Parse.sections := delete key sections |}).
  assert (Hh : Parse.header data1 = Parse.header data2) by reflexivity.
  assert (Hw : forall k body,
            Generator.whenSection data1 k body = Generator.whenSection data2 k body).
  { intros k body. unfold Generator.whenSection, data1, data2. cbn [Parse.sections].
    destruct (decide (k = key)) as [->|Hne].
    - rewrite lookup_insert_eq, lookup_delete_eq. reflexivity.
    - rewrite lookup_insert_ne, lookup_delete_ne by congruence. reflexivity. }
  clearbody data1 data2.
  destruct templateId; cbn [Generator.renderTemplate];
    unfold Generator.renderClassicTemplate, Generator.renderProfessionalTemplate,
           Generator.renderTechnicalTemplate, Generator.renderModernTemplate;
    rewrite Hh; cbn [Generator.forEach Generator.sectionOrder];
    rewrite !Hw; reflexivity.
Qed.

(** X25.  The title of every section that a template lists and the
    document has with content is in the document saved: capitalized, in
    capitals for the professional template, left-aligned. *)
Theorem listed_section_title_is_drawn
  (lib : Generator.Libraries) (resumeText : jsstring)
  (templateId : Generator.TemplateId) (filename key : jsstring)
  (c : ascii) (s : jsstring) :
  key ∈ Generator.sectionOrder templateId ->
  Parse.sections (Parse.parseResumeStructure (Sanitize.sanitize resumeText)) !! key
  = Some (c :: s) ->
  Forall (RenderLogic.draws (RenderLogic.sectionTitle templateId key))
    (Generator.saved_documents
       (Generator.generatePdfResume lib resumeText templateId filename)).
Proof.
  intros Hkey Hlookup.
  apply (generatePdfResume_saved lib resumeText templateId filename
           (RenderLogic.draws (RenderLogic.sectionTitle templateId key))).
  unfold Generator.layout. cbv zeta.
  apply sound_bind
    with (Q := fun _ st =>
                 RenderLogic.draws (RenderLogic.sectionTitle templateId key)
                   (Generator.doc st)).
  - apply sound_bind with (Q := fun _ _ => True);
      [apply sound_call; auto|intros ?].
    apply sound_bind with (Q := fun _ _ => True);
      [apply sound_call; auto|intros ?].
    eapply sound_weaken;
      [| | |exact (renderTemplate_draws_title lib templateId _ key c s Hkey Hlookup)];
      auto.
  - intros ?. apply sound_call; [auto|]. intros st H. cbn [Generator.doc].
    apply draws_extends, H.
Qed.

Lemma listed_section_title_is_drawn_witness :
  Forall (RenderLogic.draws (lit "SKILLS"))
    (Generator.saved_documents
       (Generator.generatePdfResume Generator.example_libraries
          Generator.example_resume Generator.professional (lit "Jane-Doe-Resume.pdf"))).
Proof.
  refine (listed_section_title_is_drawn Generator.example_libraries
            Generator.example_resume Generator.professional
            (lit "Jane-Doe-Resume.pdf") (lit "skills") "-"%char
            (lit " Python" ++ LF :: lit "- Go") _ _).
  - compute_done.
  - vm_compute. reflexivity.
Defined.

(** The generation of the witness saves a document. *)
Example example_resume_is_saved :
  length (Generator.saved_documents
            (Generator.generatePdfResume Generator.example_libraries
               Generator.example_resume Generator.professional
               (lit "Jane-Doe-Resume.pdf"))) = 1.
Proof. vm_compute. reflexivity. Qed.

(** X26.  Sections come out in the order of the template, not of the
    document: when a template lists the key of one section before the key
    of another and the parsed resume has content under both, every
    document saved has the title of the first drawn before the title of
    the second. *)
Theorem sections_are_drawn_in_template_order
  (lib : Generator.Libraries) (resumeText : jsstring)
  (templateId : Generator.TemplateId) (filename key1 key2 : jsstring)
  (c1 : ascii) (s1 : jsstring) (c2 : ascii) (s2 : jsstring) :
  RenderLogic.before key1 key2 (Generator.sectionOrder templateId) ->
  Parse.sections (Parse.parseResumeStructure (Sanitize.sanitize resumeText)) !! key1
  = Some (c1 :: s1) ->
  Parse.sections (Parse.parseResumeStructure (Sanitize.sanitize resumeText)) !! key2
  = Some (c2 :: s2) ->
  Forall (RenderLogic.draws_before (RenderLogic.sectionTitle templateId key1)
            (RenderLogic.sectionTitle templateId key2))
    (Generator.saved_documents
       (Generator.generatePdfResume lib resumeText templateId filename)).
Proof.
  intros Hbefore Hlookup1 Hlookup2.
  apply (generatePdfResume_saved lib resumeText templateId filename
           (RenderLogic.draws_before (RenderLogic.sectionTitle templateId key1)
              (RenderLogic.sectionTitle templateId key2))).
  unfold Generator.layout. cbv zeta.
  apply sound_bind
    with (Q := fun _ st =>
                 RenderLogic.draws_before (RenderLogic.sectionTitle templateId key1)
                   (RenderLogic.sectionTitle templateId key2) (Generator.doc st)).
  - apply sound_bind with (Q := fun _ _ => True);
      [apply sound_call; auto|intros ?].
    apply sound_bind with (Q := fun _ _ => True);
      [apply sound_call; auto|intros ?].
    eapply sound_weaken;
      [| | |exact (renderTemplate_draws_in_order lib templateId _ key1 key2
                     c1 s1 c2 s2 Hbefore Hlookup1 Hlookup2)];
      auto.
  - intros ?. apply sound_call; [auto|]. intros st H. cbn [Generator.doc].
    apply draws_before_extends, H.
Qed.

Lemma sections_are_drawn_in_template_order_witness :
  Forall (RenderLogic.draws_before (lit "Projects") (lit "Experience"))
    (Generator.saved_documents
       (Generator.generatePdfResume Generator.example_libraries
          (lit "Jane Doe" ++ LF :: lit "jane@example.com" ++ LF
           :: lit "## Experience" ++ LF :: lit "Acme, 2020-2024" ++ LF
           :: lit "## Projects" ++ LF :: lit "* Parser")
          Generator.technical (lit "Jane-Doe-Resume.pdf"))).
Proof.
  refine (sections_are_drawn_in_template_order Generator.example_libraries
            (lit "Jane Doe" ++ LF :: lit "jane@example.com" ++ LF
             :: lit "## Experience" ++ LF :: lit "Acme, 2020-2024" ++ LF
             :: lit "## Projects" ++ LF :: lit "* Parser")
            Generator.technical (lit "Jane-Doe-Resume.pdf")
            (lit "projects") (lit "experience")
            "-"%char (lit " Parser") "A"%char (lit "cme, 2020-2024") _ _ _).
  - exists [lit "summary"; lit "skills"], [], [lit "education"]. reflexivity.
  - vm_compute. reflexivity.
  - vm_compute. reflexivity.
Defined.

(** The generation of the witness saves a document. *)
Example reordered_resume_is_saved :
  length (Generator.saved_documents
            (Generator.generatePdfResume Generator.example_libraries
               (lit "Jane Doe" ++ LF :: lit "jane@example.com" ++ LF
                :: lit "## Experience" ++ LF :: lit "Acme, 2020-2024" ++ LF
                :: lit "## Projects" ++ LF :: lit "* Parser")
               Generator.technical (lit "Jane-Doe-Resume.pdf"))) = 1.
Proof. vm_compute. reflexivity. Qed.

Section DrawnTexts.

Import Generator RenderLogic.
Local Open Scope render_scope.
Local Open Scope Q_scope.

Variable lib : Libraries.

Local Abbreviation any := (fun _ : DocCall => True).
Local Abbreviation texts_are :=
  (fun (l : list jsstring) (st : RenderState) => drawn_texts (doc st) = l).

Lemma drawn_texts_snoc calls c :
  drawn_texts (calls ++ [c])
  = drawn_texts calls ++ match c with
                         | DrawText (Some t) _ _ _ => [t]
                         | _ => []
                         end.
Proof.
  induction calls as [|d calls IH].
  - destruct c as [| | | | | |[t|] ? ? ?| | |]; reflexivity.
  - cbn [app drawn_texts].
    destruct d as [| | | | | |[t|] ? ? ?| | |]; rewrite IH; reflexivity.
Qed.

Lemma call_texts c pre :
  sound any (texts_are pre) (call lib c)
    (fun _ => texts_are (pre ++ match c with
                                | DrawText (Some t) _ _ _ => [t]
                                | _ => []
                                end)).
Proof.
  apply sound_call; [auto|]. intros st H. cbn [doc].
  rewrite drawn_texts_snoc, H. reflexivity.
Qed.

Lemma ensurePage_texts pre :
  sound any (texts_are pre) (ensurePage lib) (fun _ => texts_are pre).
Proof.
  unfold ensurePage.
  apply sound_bind with (Q := fun _ => texts_are pre);
    [apply sound_getCursorY; auto|intros y].
  destruct (Extractor.Qgtb y (PAGE_HEIGHT - PAGE_MARGIN)); [|apply sound_ret; auto].
  apply sound_bind with (Q := fun _ => texts_are pre).
  { eapply sound_weaken; [| | |apply (call_texts AddPage pre)]; auto.
    intros ? st H. cbv beta in H. rewrite app_nil_r in H. exact H. }
  intros ?.
  apply sound_bind with (Q := fun _ => texts_are pre).
  { apply sound_state. intros st H. split; [reflexivity|intros; exact H]. }
  intros ?. apply sound_setCursorY. auto.
Qed.

Lemma renderWords_texts x maxWidth words :
  forall pre cursorX,
    sound any (texts_are pre) (renderWords lib x maxWidth cursorX words)
      (fun _ => texts_are (pre ++ map (fun w => word_text w ++ [SP]) words)).
Proof.
  induction words as [|w words IH]; intros pre cursorX.
  { apply sound_ret. intros st H. cbn [map]. rewrite app_nil_r. exact H. }
  cbn [renderWords map].
  apply sound_bind with (Q := fun _ => texts_are pre);
    [apply ensurePage_texts|intros ?].
  apply sound_bind with (Q := fun _ => texts_are pre).
  { eapply sound_weaken; [| | |apply (call_texts _ pre)]; auto.
    intros ? st H. cbv beta in H. rewrite app_nil_r in H. exact H. }
  intros ?.
  apply sound_bind with (Q := fun _ => texts_are pre);
    [apply sound_textWidth; auto|intros wordWidth]. cbv zeta.
  apply sound_bind with (Q := fun _ => texts_are pre).
  { destruct (Extractor.Qgtb (cursorX + wordWidth) (x + maxWidth));
      [apply sound_addCursorY|apply sound_ret]; auto. }
  intros ?.
  apply sound_bind with (Q := fun _ => texts_are pre);
    [apply sound_getCursorY; auto|intros y].
  apply sound_bind with (Q := fun _ => texts_are (pre ++ [word_text w ++ [SP]]));
    [apply call_texts|intros ?].
  eapply sound_weaken; [| | |apply (IH (pre ++ [word_text w ++ [SP]]))]; auto.
  intros ? st H. cbv beta in H. rewrite <- app_assoc in H. exact H.
Qed.

Lemma renderInlineTokens_texts inlineTokens words x y maxWidth pre :
  flatten_tokens normal inlineTokens = Returned words ->
  sound any (texts_are pre)
    (renderInlineTokens lib (Some inlineTokens) x y maxWidth)
    (fun _ => texts_are (pre ++ map (fun w => word_text w ++ [SP]) words)).
Proof.
  intros Hflat. unfold renderInlineTokens, flatten. rewrite Hflat.
  apply sound_bind with (Q := fun _ => texts_are pre);
    [apply sound_setCursorY; auto|intros ?].
  apply sound_bind with (Q := fun ws st => texts_are pre st /\ ws = words);
    [apply sound_ret; auto|intros ws].
  apply sound_assume. intros ->.
  apply sound_bind
    with (Q := fun _ => texts_are (pre ++ map (fun w => word_text w ++ [SP]) words));
    [apply renderWords_texts|intros ?].
  apply sound_bind
    with (Q := fun _ => texts_are (pre ++ map (fun w => word_text w ++ [SP]) words));
    [apply sound_addCursorY; auto|intros ?].
  apply sound_getCursorY. auto.
Qed.

End DrawnTexts.

(** X27.  The inline renderer draws every word and nothing else: when
    [_renderInlineTokens] returns, the texts it has added to the document
    are the words of its tokens, each followed by a space, in the order of
    the tokens, none left out and none repeated, however many lines and
    pages they take. *)
Theorem inline_words_are_drawn_in_order
  (lib : Generator.Libraries) (inlineTokens : list Generator.Token)
  (words : list Generator.Word) (x y maxWidth v : Q)
  (st st' : Generator.RenderState) :
  Generator.flatten_tokens Generator.normal inlineTokens = Generator.Returned words ->
  Generator.renderInlineTokens lib (Some inlineTokens) x y maxWidth st
  = (st', Generator.Returned v) ->
  RenderLogic.drawn_texts (Generator.doc st')
  = RenderLogic.drawn_texts (Generator.doc st)
    ++ map (fun w => Generator.word_text w ++ [SP]) words.
Proof.
  intros Hflat Hrun.
  destruct (renderInlineTokens_texts lib inlineTokens words x y maxWidth
              (RenderLogic.drawn_texts (Generator.doc st)) Hflat st eq_refl)
    as (new & _ & _ & HQ).
  rewrite Hrun in HQ. exact (HQ v eq_refl).
Qed.

Lemma inline_words_are_drawn_in_order_witness :
  RenderLogic.drawn_texts
    (Generator.doc
       (fst (Generator.renderInlineTokens Generator.example_libraries
               (Some [ {| Generator.type := lit "text";
                          Generator.text := Some (lit "Built  a ");
                          Generator.tokens := None; Generator.items := None |};
                       {| Generator.type := lit "strong"; Generator.text := None;
                          Generator.tokens :=
                            Generator.textAsToken (lit "fast parser");
                          Generator.items := None |} ])
               20 270 30
               {| Generator.doc := [Generator.NewDocument]; Generator.cursorY := 270;
                  Generator.pageNumber := 1 |})))
  = RenderLogic.drawn_texts [Generator.NewDocument]
    ++ [lit "Built "; lit "a "; lit "fast "; lit "parser "].
Proof.
  refine (inline_words_are_drawn_in_order Generator.example_libraries
            [ {| Generator.type := lit "text";
                 Generator.text := Some (lit "Built  a ");
                 Generator.tokens := None; Generator.items := None |};
              {| Generator.type := lit "strong"; Generator.text := None;
                 Generator.tokens := Generator.textAsToken (lit "fast parser");
                 Generator.items := None |} ]
            [ {| Generator.word_text := lit "Built";
                 Generator.word_style := Generator.normal |};
              {| Generator.word_text := lit "a";
                 Generator.word_style := Generator.normal |};
              {| Generator.word_text := lit "fast";
                 Generator.word_style := Generator.bold |};
              {| Generator.word_text := lit "parser";
                 Generator.word_style := Generator.bold |} ]
            20 270 30 _
            {| Generator.doc := [Generator.NewDocument]; Generator.cursorY := 270;
               Generator.pageNumber := 1 |}
            _ _ _).
  - reflexivity.
  - vm_compute. reflexivity.
Defined.
